(** * arcos4py: collective-event linker and trackers

    A shallow embedding of [arcos4py/tools/_detect_events.py]: the
    per-frame clustering wrappers, the bounded [memory], the [Linker]
    (construction, validation, [link] and the nearest-neighbour linking of
    [brute_force_linking]), the tabular [DataFrameTracker] and the raster
    [ImageTracker], followed by the properties the specification states
    about them.

    Conventions of the embedding.
    - A 2-d numpy array of coordinates is a list of rows, a row a list of
      rationals; a 1-d array of labels or ids is a list of integers (the
      code carries them as floats holding integral values, [nan] marking
      noise is [None]). An array without rows has no number of columns
      here: it stands for the array of shape [(0, d)] that the trackers
      pass, [d] being the number of columns of the other arrays.
    - Floating point numbers are exact rationals. A distance is carried as
      its square; [d <= eps] is decided as [0 <= eps /\ d*d <= eps*eps].
    - A raised Python exception is the [Raise] result of the [except]
      monad; the state of the object whose method raised is dropped.
    - scikit-learn's DBSCAN, hdbscan's HDBSCAN, scipy's KDTree and numpy's
      argsort are parameters ([Externals]); the two whose results the code
      relies upon come with their contract ([ExternalsOk]). *)

From Stdlib Require Import ZArith QArith Lia Ascii String.
From stdpp Require Import base list strings sorting.

Local Open Scope string_scope.
Local Open Scope list_scope.
Local Open Scope Z_scope.

(** ** Exceptions *)

Inductive exn :=
| ValueError (msg : string)
| TypeError (msg : string)
| IndexError
| KeyError
| AttributeError
| SyntaxError
| NameError.

Inductive except (A : Type) :=
| Ok (a : A)
| Raise (e : exn).
Arguments Ok {A} a.
Arguments Raise {A} e.

Definition bind {A B} (m : except A) (k : A → except B) : except B :=
  match m with
  | Ok a => k a
  | Raise e => Raise e
  end.

Notation "'let!' x ':=' m 'in' k" := (bind m (λ x, k))
  (at level 10, x name, m at level 100, k at level 200, only parsing).
Notation "'let!' ' p ':=' m 'in' k" := (bind m (λ x, match x with p => k end))
  (at level 10, p pattern, m at level 100, k at level 200, only parsing).

Definition is_Ok {A} (m : except A) : Prop := ∃ a, m = Ok a.

(** ** Python values reaching the constructors *)

Definition coord := list Q.

Inductive pyval :=
| PyNone
| PyInt (z : Z)
| PyFloat (q : Q)
| PyStr (s : string)
| PyCallable (f : list coord → except (list (option Z))).

Inductive pytype := py_int | py_float | py_str | py_NoneType.

Definition has_type (v : pyval) (t : pytype) : bool :=
  match v, t with
  | PyInt _, py_int => true
  | PyFloat _, py_float => true
  | PyStr _, py_str => true
  | PyNone, py_NoneType => true
  | _, _ => false
  end.

(** [isinstance(v, (t1, ..., tn))] *)
Definition isinstance (v : pyval) (ts : list pytype) : bool :=
  existsb (has_type v) ts.

(** [hasattr(v, '__call__')] *)
Definition callable (v : pyval) : bool :=
  match v with
  | PyCallable _ => true
  | _ => false
  end.

(** [v == s] for a string literal [s] *)
Definition py_eq_str (v : pyval) (s : string) : bool :=
  match v with
  | PyStr t => bool_decide (t = s)
  | _ => false
  end.

(** The number a Python value denotes in a numeric comparison. *)
Definition as_number (v : pyval) : option Q :=
  match v with
  | PyInt z => Some (inject_Z z)
  | PyFloat q => Some q
  | _ => None
  end.

(** ** numpy helpers *)

(** [x.size] of a 2-d array: rows times columns. *)
Definition np_size (x : list coord) : nat := sum_list (length <$> x).

(** Fancy indexing [a[idx]] with an integer index array. *)
Fixpoint np_take {A} (a : list A) (idx : list nat) : except (list A) :=
  match idx with
  | [] => Ok []
  | i :: idx' =>
      match a !! i with
      | Some v => let! vs := np_take a idx' in Ok (v :: vs)
      | None => Raise IndexError
      end
  end.

(** Boolean-mask selection [a[mask]] when the lengths agree. *)
Fixpoint mask_select {A} (a : list A) (mask : list bool) : list A :=
  match a, mask with
  | v :: a', b :: mask' =>
      if b then v :: mask_select a' mask' else mask_select a' mask'
  | _, _ => []
  end.

(** Boolean-mask indexing [a[mask]]: numpy refuses a mask of another
    length. *)
Definition np_mask {A} (a : list A) (mask : list bool) : except (list A) :=
  if decide (length mask = length a) then Ok (mask_select a mask)
  else Raise IndexError.

(** Writes [vals] in order into the [true] positions of [mask]. *)
Fixpoint mask_fill (base : list Z) (mask : list bool) (vals : list Z) : list Z :=
  match base, mask with
  | v :: base', b :: mask' =>
      if b then
        match vals with
        | w :: vals' => w :: mask_fill base' mask' vals'
        | [] => v :: mask_fill base' mask' []
        end
      else v :: mask_fill base' mask' vals
  | _, _ => base
  end.

Definition count_true (mask : list bool) : nat := length (filter (λ b, b = true) mask).

(** Boolean-mask assignment [base[mask] = vals]: [vals] has one entry per
    selected position, or a single entry that is broadcast. *)
Definition np_put_mask (base : list Z) (mask : list bool) (vals : list Z)
  : except (list Z) :=
  if decide (length vals = count_true mask) then Ok (mask_fill base mask vals)
  else
    match vals with
    | [w] => Ok (mask_fill base mask (replicate (count_true mask) w))
    | _ => Raise (ValueError "NumPy boolean array indexing assignment cannot assign")
    end.

(** [np.unique(a)]: the sorted distinct values. *)
Fixpoint dedup_adjacent (l : list Z) : list Z :=
  match l with
  | [] => []
  | v :: l' =>
      match l' with
      | [] => [v]
      | w :: _ => if decide (v = w) then dedup_adjacent l' else v :: dedup_adjacent l'
      end
  end.

Definition np_unique (a : list Z) : list Z := dedup_adjacent (merge_sort Z.le a).

(** Index of the first occurrence of [v] in [a]. *)
Definition first_index (v : Z) (a : list Z) : nat :=
  match list_find (λ w, w = v) a with
  | Some (i, _) => i
  | None => length a
  end.

(** [np.unique(a, return_index=True)] *)
Definition np_unique_index (a : list Z) : list Z * list nat :=
  let u := np_unique a in (u, (λ v, first_index v a) <$> u).

(** [np.split(a, indices)]: the pieces [a[0:i1]], [a[i1:i2]], ...,
    [a[ik:]], each a Python slice. *)
Fixpoint np_split_from {A} (start : nat) (indices : list nat) (a : list A)
  : list (list A) :=
  match indices with
  | [] => [drop start a]
  | i :: indices' => take (i - start) (drop start a) :: np_split_from i indices' a
  end.

Definition np_split {A} (a : list A) (indices : list nat) : list (list A) :=
  np_split_from 0 indices a.

(** [np.nanmax] of an array without nan; an empty array raises
    [ValueError]. *)
Definition np_nanmax (a : list Z) : except Z :=
  match a with
  | [] => Raise (ValueError "zero-size array to reduction operation fmax which has no identity")
  | v :: a' => Ok (foldr Z.max v a')
  end.

(** Squared Euclidean distance of two points. *)
Fixpoint dist2 (p q : coord) : Q :=
  match p, q with
  | x :: p', y :: q' => ((x - y) * (x - y) + dist2 p' q')%Q
  | _, _ => 0%Q
  end.

(** [d <= eps] for a distance [d] given by its square [d2]. *)
Definition dist_le (d2 : Q) (eps : Q) : bool :=
  Qle_bool 0 eps && Qle_bool d2 (eps * eps).

(** [nn_dist <= epsPrev] on an array of distances; comparing with a value
    that is not a number raises. *)
Definition np_dist_le (nn_dist2 : list Q) (epsPrev : pyval) : except (list bool) :=
  match as_number epsPrev with
  | Some e => Ok ((λ d2, dist_le d2 e) <$> nn_dist2)
  | None => Raise (TypeError "'<=' not supported between instances of 'float' and 'str'")
  end.

(** ** Table cells *)

(** A cell of a pandas DataFrame: an integer or a float. *)
Inductive cell :=
| CInt (z : Z)
| CFloat (q : Q).

Definition cell_num (c : cell) : Q :=
  match c with
  | CInt z => inject_Z z
  | CFloat q => q
  end.

Definition Qlt_bool (x y : Q) : bool := negb (Qle_bool y x).

(** Lexicographic order of two tuples of sort keys. *)
Fixpoint keys_leb (k1 k2 : list cell) : bool :=
  match k1, k2 with
  | c1 :: k1', c2 :: k2' =>
      if Qlt_bool (cell_num c1) (cell_num c2) then true
      else if Qlt_bool (cell_num c2) (cell_num c1) then false
      else keys_leb k1' k2'
  | _, _ => true
  end.

(** ** External libraries *)

Class Externals := {
  (** [DBSCAN(eps, min_samples, algorithm="kd_tree", n_jobs).fit(x).labels_] *)
  DBSCAN_fit : pyval → Z → Z → list coord → except (list Z);
  (** [HDBSCAN(min_cluster_size, min_samples, cluster_selection_epsilon,
      cluster_selection_method, core_dist_n_jobs).fit(x).labels_] *)
  HDBSCAN_fit : Z → Z → pyval → string → Z → list coord → except (list Z);
  (** [KDTree(data).query(p, k=1)]: squared distance to, and index of, the
      nearest point of [data]. *)
  KDTree_query : list coord → coord → Q * nat;
  (** [np.argsort(a)] *)
  np_argsort : list Z → list nat;
  (** The row order [DataFrame.sort_values(by)] produces, given the tuple
      of [by] cells of every row. *)
  sort_values_order : list (list cell) → list nat;
}.

Definition is_nearest (data : list coord) (p : coord) (r : Q * nat) : Prop :=
  ∃ q, data !! r.2 = Some q
       ∧ (r.1 == dist2 p q)%Q
       ∧ ∀ q', q' ∈ data → (dist2 p q <= dist2 p q')%Q.

Class ExternalsOk (E : Externals) : Prop := {
  KDTree_query_nearest : ∀ data p, data ≠ [] → is_nearest data p (KDTree_query data p);
  np_argsort_perm : ∀ a, np_argsort a ≡ₚ seq 0 (length a);
  np_argsort_sorted : ∀ a, Sorted Z.le ((λ i, default 0 (a !! i)) <$> np_argsort a);
  sort_values_order_perm : ∀ keys, sort_values_order keys ≡ₚ seq 0 (length keys);
  sort_values_order_sorted : ∀ keys,
    Sorted (λ k1 k2, keys_leb k1 k2 = true)
      ((λ i, default [] (keys !! i)) <$> sort_values_order keys);
}.

Section Linker.
Context `{E : Externals}.

(** ** Clustering wrappers *)

(** [np.where(cluster_labels > -1, cluster_labels + 1, np.nan)] on one
    label. *)
Definition shift_label (l : Z) : option Z :=
  if bool_decide (-1 < l) then Some (l + 1) else None.

Definition _dbscan (x : list coord) (eps : pyval) (minClSz : Z) (n_jobs : Z)
  : except (list (option Z)) :=
  if negb (np_size x =? 0)%nat then
    let! cluster_labels := DBSCAN_fit eps minClSz n_jobs x in
    Ok (shift_label <$> cluster_labels)
  else Ok [].

Definition _hdbscan (x : list coord) (eps : pyval) (minClSz : Z) (min_samples : Z)
    (cluster_selection_method : string) (n_jobs : Z) : except (list (option Z)) :=
  if negb (np_size x =? 0)%nat then
    let! cluster_labels := HDBSCAN_fit minClSz min_samples eps cluster_selection_method n_jobs x in
    Ok (shift_label <$> cluster_labels)
  else Ok [].

(** ** memory *)

Record memory := {
  n_timepoints : Z;
  coordinates : list (list coord);
  prev_cluster_ids : list (list Z);
  max_prev_cluster_id : Z;
}.

Definition memory_new (n : Z) : memory :=
  {| n_timepoints := n; coordinates := []; prev_cluster_ids := [];
     max_prev_cluster_id := 0 |}.

Definition set_max_prev_cluster_id (m : memory) (v : Z) : memory :=
  {| n_timepoints := n_timepoints m; coordinates := coordinates m;
     prev_cluster_ids := prev_cluster_ids m; max_prev_cluster_id := v |}.

(** [list.pop(0)] *)
Definition pop0 {A} (l : list A) : except (list A) :=
  match l with
  | [] => Raise IndexError
  | _ :: l' => Ok l'
  end.

Definition memory_update (m : memory) (new_coordinates : list coord)
    (new_cluster_ids : list Z) : except memory :=
  let! '(cs, ps) :=
    (if bool_decide (Z.of_nat (length (coordinates m)) = n_timepoints m) then
       let! cs := pop0 (coordinates m) in
       let! ps := pop0 (prev_cluster_ids m) in
       Ok (cs, ps)
     else Ok (coordinates m, prev_cluster_ids m)) in
  Ok {| n_timepoints := n_timepoints m;
        coordinates := cs ++ [new_coordinates];
        prev_cluster_ids := ps ++ [new_cluster_ids];
        max_prev_cluster_id := max_prev_cluster_id m |}.

(** [np.concatenate] of 1-d arrays when there are several, else
    element 0. *)
Definition concat_or_first {A} (l : list (list A)) : except (list A) :=
  if bool_decide (1 < length l)%nat then Ok (concat l)
  else match l with
       | a :: _ => Ok a
       | [] => Raise IndexError
       end.

(** [np.concatenate] of 2-d arrays, which must agree in their number of
    columns. An array without rows carries no width in this embedding and
    goes with every other array. *)
Definition np_concatenate_rows (l : list (list coord)) : except (list coord) :=
  match concat l with
  | [] => Ok []
  | r :: rs =>
      if forallb (λ r' : coord, bool_decide (length r' = length r)) rs then Ok (r :: rs)
      else Raise (ValueError "all the input array dimensions except for the concatenation axis must match exactly")
  end.

Definition all_coordinates (m : memory) : except (list coord) :=
  if bool_decide (1 < length (coordinates m))%nat then np_concatenate_rows (coordinates m)
  else match coordinates m with
       | a :: _ => Ok a
       | [] => Raise IndexError
       end.

Definition all_cluster_ids (m : memory) : except (list Z) :=
  concat_or_first (prev_cluster_ids m).

(** ** brute_force_linking *)

(** [memory_kdtree.query(points, k=1, workers=n_jobs)]: scipy takes -1 and
    the positive numbers as [workers], and points of the dimension of the
    data of the tree. *)
Definition kdtree_query (data : list coord) (points : list coord) (workers : Z)
  : except (list (Q * nat)) :=
  if bool_decide (workers = 0 ∨ workers < -1) then
    Raise (ValueError "Invalid number of workers, must be -1 or > 0")
  else
    match data with
    | d :: _ =>
        if forallb (λ p : coord, bool_decide (length p = length d)) points then
          Ok (KDTree_query data <$> points)
        else Raise (ValueError "x must consist of vectors of the length of the data")
    | [] => Ok (KDTree_query data <$> points)
    end.

Definition brute_force_linking (cluster_labels : list Z)
    (cluster_coordinates : list coord) (memory_cluster_labels : list Z)
    (memory_kdtree : list coord) (propagation_threshold : Z) (epsPrev : pyval)
    (max_cluster_label : Z) (n_jobs : Z) : except (list Z * Z) :=
  let! nn := kdtree_query memory_kdtree cluster_coordinates n_jobs in
  let nn_dist := fst <$> nn in
  let nn_indices := snd <$> nn in
  let! prev_cluster_labels := np_take memory_cluster_labels nn_indices in
  let! within := np_dist_le nn_dist epsPrev in
  let prev_cluster_labels_eps := mask_select prev_cluster_labels within in
  if bool_decide (Z.of_nat (length prev_cluster_labels_eps) < propagation_threshold) then
    let max_cluster_label := max_cluster_label + 1 in
    Ok (replicate (length cluster_labels) max_cluster_label, max_cluster_label)
  else
    let prev_clusternbr_eps_unique := np_unique prev_cluster_labels_eps in
    if bool_decide (length prev_clusternbr_eps_unique = 0%nat) then
      let max_cluster_label := max_cluster_label + 1 in
      Ok (replicate (length cluster_labels) max_cluster_label, max_cluster_label)
    else Ok (prev_cluster_labels, max_cluster_label).

(** ** Linker *)

Record Linker := {
  _memory : memory;
  _nn_tree : option (list coord);
  propagation_threshold : Z;
  epsPrev : pyval;
  n_jobs : Z;
  event_ids : list Z;
  max_prev_event_id : Z;
  clustering_function : list coord → except (list (option Z));
}.

Definition set_memory (self : Linker) (m : memory) : Linker :=
  {| _memory := m; _nn_tree := _nn_tree self;
     propagation_threshold := propagation_threshold self;
     epsPrev := epsPrev self; n_jobs := n_jobs self;
     event_ids := event_ids self; max_prev_event_id := max_prev_event_id self;
     clustering_function := clustering_function self |}.

Definition set_event_ids (self : Linker) (ids : list Z) : Linker :=
  {| _memory := _memory self; _nn_tree := _nn_tree self;
     propagation_threshold := propagation_threshold self;
     epsPrev := epsPrev self; n_jobs := n_jobs self;
     event_ids := ids; max_prev_event_id := max_prev_event_id self;
     clustering_function := clustering_function self |}.

Definition _update_tree (self : Linker) (coords : list coord) : Linker :=
  {| _memory := _memory self; _nn_tree := Some coords;
     propagation_threshold := propagation_threshold self;
     epsPrev := epsPrev self; n_jobs := n_jobs self;
     event_ids := event_ids self; max_prev_event_id := max_prev_event_id self;
     clustering_function := clustering_function self |}.

Definition _validate_input (eps epsPrev minClSz minSamples clusteringMethod
    propagationThreshold nPrev nJobs : pyval) : except unit :=
  if negb (isinstance eps [py_int; py_float; py_str]) then
    Raise (ValueError "eps must be a number or None")
  else if negb (isinstance epsPrev [py_int; py_NoneType]) then
    Raise (ValueError "epsPrev must be a number or None")
  else if negb (forallb (λ i, isinstance i [py_int])
                  [minClSz; minSamples; propagationThreshold; nPrev; nJobs]) then
    Raise (ValueError "must be an int")
  else if negb (isinstance clusteringMethod [py_str]) then
    Raise (ValueError "clusteringMethod must be a string")
  else Ok ().

(** The integer held by an argument that passed the [int] check. *)
Definition int_value (v : pyval) : except Z :=
  match v with
  | PyInt z => Ok z
  | _ => Raise (TypeError "an integer is required")
  end.

Definition Linker_init (eps epsPrev minClSz minSamples clusteringMethod
    propagationThreshold nPrev nJobs : pyval) : except Linker :=
  let self_epsPrev := match epsPrev with PyNone => eps | _ => epsPrev end in
  let! _ := _validate_input eps epsPrev minClSz minSamples clusteringMethod
        propagationThreshold nPrev nJobs in
  let! nPrev := int_value nPrev in
  let! propagationThreshold := int_value propagationThreshold in
  let! nJobs := int_value nJobs in
  let! minClSz := int_value minClSz in
  let! minSamples := int_value minSamples in
  let! clustering :=
    match clusteringMethod with
    | PyCallable f => Ok f
    | _ =>
        if py_eq_str clusteringMethod "dbscan" then
          Ok (λ x, _dbscan x eps minClSz 1)
        else if py_eq_str clusteringMethod "hdbscan" then
          Ok (λ x, _hdbscan x eps minClSz minSamples "leaf" 1)
        else Raise (ValueError "Clustering method must be either in ['dbscan', 'hdbscan'] or a callable with data as the only argument an argument")
    end in
  Ok {| _memory := memory_new nPrev; _nn_tree := None;
        propagation_threshold := propagationThreshold;
        epsPrev := self_epsPrev; n_jobs := nJobs;
        event_ids := []; max_prev_event_id := 0;
        clustering_function := clustering |}.

Definition isnan (o : option Z) : bool :=
  match o with None => true | Some _ => false end.

Definition _clustering (self : Linker) (x : list coord)
  : except (list Z * list coord * list bool) :=
  if bool_decide (np_size x = 0%nat) then Ok ([], x, [])
  else
    let! clusters := clustering_function self x in
    let nanrows := isnan <$> clusters in
    let! kept_clusters := np_mask clusters (negb <$> nanrows) in
    let! kept_x := np_mask x (negb <$> nanrows) in
    Ok (omap id kept_clusters, kept_x, nanrows).

Definition _link_next_cluster (self : Linker) (cluster : list Z)
    (cluster_coordinates : list coord) : except (list Z * Linker) :=
  let! memory_cluster_labels := all_cluster_ids (_memory self) in
  let! memory_kdtree := from_option Ok (Raise AttributeError) (_nn_tree self) in
  let! '(linked_clusters, max_cluster_label) :=
    brute_force_linking cluster cluster_coordinates memory_cluster_labels
      memory_kdtree (propagation_threshold self) (epsPrev self)
      (max_prev_cluster_id (_memory self)) (n_jobs self) in
  Ok (linked_clusters,
      set_memory self (set_max_prev_cluster_id (_memory self) max_cluster_label)).

Definition _group_data (frame_data : list Z) : list Z * list nat :=
  let '(unique_frame_vals, unique_frame_indices) := np_unique_index frame_data in
  (unique_frame_vals, tail unique_frame_indices).

Definition _group_by_clusterid (cluster_ids : list Z) (coordinates : list coord)
  : except (list nat * list (list Z) * list (list coord)) :=
  let cluster_ids_sort_key := np_argsort cluster_ids in
  let! cluster_ids_sorted := np_take cluster_ids cluster_ids_sort_key in
  let! coordinates_sorted := np_take coordinates cluster_ids_sort_key in
  let '(_, group_by_cluster_id) := _group_data cluster_ids_sorted in
  let grouped_clusters := np_split cluster_ids_sorted group_by_cluster_id in
  let grouped_coordinates := np_split coordinates_sorted group_by_cluster_id in
  Ok (cluster_ids_sort_key, grouped_clusters, grouped_coordinates).

(** The list comprehension of [_update_id]: links the clusters one after
    the other, each call seeing the counter left by the previous one. *)
Fixpoint link_clusters (self : Linker) (groups : list (list Z * list coord))
  : except (list (list Z) * Linker) :=
  match groups with
  | [] => Ok ([], self)
  | (cluster, cluster_coordinates) :: groups' =>
      let! '(linked, self) := _link_next_cluster self cluster cluster_coordinates in
      let! '(rest, self) := link_clusters self groups' in
      Ok (linked :: rest, self)
  end.

Definition _update_id (self : Linker) (cluster_ids : list Z)
    (coordinates : list coord) : except (list Z * Linker) :=
  let! memory_coordinates := all_coordinates (_memory self) in
  let self := _update_tree self memory_coordinates in
  let! '(cluster_ids_sort_key, grouped_clusters, grouped_coordinates) :=
    _group_by_clusterid cluster_ids coordinates in
  let! '(linked_cluster_ids, self) :=
    link_clusters self (zip grouped_clusters grouped_coordinates) in
  let revers_sort_key := np_argsort (Z.of_nat <$> cluster_ids_sort_key) in
  let! linked_cluster_ids := np_take (concat linked_cluster_ids) revers_sort_key in
  Ok (linked_cluster_ids, self).

Definition _update_id_empty (self : Linker) (cluster_ids : list Z)
  : list Z * Linker :=
  let linked_cluster_ids := (λ l, l + max_prev_cluster_id (_memory self)) <$> cluster_ids in
  match np_nanmax linked_cluster_ids with
  | Ok m => (linked_cluster_ids,
             set_memory self (set_max_prev_cluster_id (_memory self) m))
  | Raise _ => (linked_cluster_ids, self)
  end.

Definition link (self : Linker) (input_coordinates : list coord) : except Linker :=
  let! '(cluster_ids, coordinates, nanrows) := _clustering self input_coordinates in
  let! '(linked_cluster_ids, self) :=
    (if bool_decide (length (prev_cluster_ids (_memory self)) = 0%nat) then
       Ok (_update_id_empty self cluster_ids)
     else if bool_decide (length cluster_ids = 0%nat) then
       Ok (_update_id_empty self cluster_ids)
     else
       let! memory_ids := all_cluster_ids (_memory self) in
       if bool_decide (length memory_ids = 0%nat) then
         Ok (_update_id_empty self cluster_ids)
       else _update_id self cluster_ids coordinates) in
  let! m := memory_update (_memory self) coordinates linked_cluster_ids in
  let self := set_memory self m in
  let! event_ids := np_put_mask (replicate (length nanrows) (-1)) (negb <$> nanrows)
                linked_cluster_ids in
  Ok (set_event_ids self event_ids).

(** A sequence of [link] calls on one Linker; returns the [event_ids] and
    the counter exposed after every call, and the final Linker. *)
Fixpoint link_all (self : Linker) (frames : list (list coord))
  : except (list (list Z * Z) * Linker) :=
  match frames with
  | [] => Ok ([], self)
  | x :: frames' =>
      let! self := link self x in
      let! '(outs, final) := link_all self frames' in
      Ok ((event_ids self, max_prev_cluster_id (_memory self)) :: outs, final)
  end.

End Linker.


(** ** Tabular tracker *)

Fixpoint mapE {A B} (f : A → except B) (l : list A) : except (list B) :=
  match l with
  | [] => Ok []
  | a :: l' => let! b := f a in let! bs := mapE f l' in Ok (b :: bs)
  end.

(** A pandas DataFrame with a default index: the column labels and the
    rows, one cell per column. *)
Record DataFrame := {
  columns : list string;
  rows : list (list cell);
}.

(** [x.empty]: one of the axes has length 0. *)
Definition df_empty (x : DataFrame) : bool :=
  bool_decide (columns x = []) || bool_decide (rows x = []).

Definition column_index (x : DataFrame) (name : string) : except nat :=
  match list_find (λ c, c = name) (columns x) with
  | Some (i, _) => Ok i
  | None => Raise KeyError
  end.

Definition cell_at (r : list cell) (i : nat) : except cell :=
  from_option Ok (Raise IndexError) (r !! i).

(** [x[name]] *)
Definition get_column (x : DataFrame) (name : string) : except (list cell) :=
  let! i := column_index x name in
  mapE (λ r, cell_at r i) (rows x).

(** [x[names]] for a list of labels, row by row. *)
Definition get_columns (x : DataFrame) (names : list string)
  : except (list (list cell)) :=
  let! idx := mapE (column_index x) names in
  mapE (λ r, mapE (cell_at r) idx) (rows x).

Definition select_rows (x : DataFrame) (mask : list bool) : DataFrame :=
  {| columns := columns x; rows := mask_select (rows x) mask |}.

(** [x.drop(columns=[name])] for a label that is present. *)
Definition drop_column (x : DataFrame) (name : string) : DataFrame :=
  let keep := (λ c, bool_decide (c ≠ name)) <$> columns x in
  {| columns := mask_select (columns x) keep;
     rows := (λ r, mask_select r keep) <$> rows x |}.

(** [x[name] = vals] for one value per row. *)
Definition set_column (x : DataFrame) (name : string) (vals : list cell) : DataFrame :=
  match list_find (λ c, c = name) (columns x) with
  | Some (i, _) =>
      {| columns := columns x; rows := zip_with (λ r v, <[i:=v]> r) (rows x) vals |}
  | None =>
      {| columns := columns x ++ [name];
         rows := zip_with (λ r v, r ++ [v]) (rows x) vals |}
  end.

Section Trackers.
Context `{E : Externals}.

Record DataFrameTracker := {
  df_linker : Linker;
  coordinates_column : list string;
  frame_column : string;
  id_column : option string;
  bin_meas_column : option string;
  collid_column : string;
}.

Definition df_set_linker (self : DataFrameTracker) (l : Linker) : DataFrameTracker :=
  {| df_linker := l; coordinates_column := coordinates_column self;
     frame_column := frame_column self; id_column := id_column self;
     bin_meas_column := bin_meas_column self; collid_column := collid_column self |}.

Definition _select_necessary_columns (data : DataFrame) (pos_col : list string)
  : except (list coord) :=
  let! cells := get_columns data pos_col in
  Ok ((λ r : list cell, cell_num <$> r) <$> cells).

Definition _sort_input (x : DataFrame) (frame_col : string)
    (object_id_col : option string) : except DataFrame :=
  let by_cols :=
    match object_id_col with
    | Some c => if bool_decide (c = "") then [frame_col] else [frame_col; c]
    | None => [frame_col]
    end in
  let! keys := get_columns x by_cols in
  let! sorted := np_take (rows x) (sort_values_order keys) in
  Ok {| columns := columns x; rows := sorted |}.

Definition df_filter_active (data : DataFrame) (bin_meas_col : option string)
  : except DataFrame :=
  match bin_meas_col with
  | Some c =>
      let! col := get_column data c in
      Ok (select_rows data ((λ v, Qlt_bool 0 (cell_num v)) <$> col))
  | None => Ok data
  end.

Definition df_track_iteration (self : DataFrameTracker) (x : DataFrame)
  : except (DataFrame * DataFrameTracker) :=
  let! x_filtered := df_filter_active x (bin_meas_column self) in
  let! coordinates_data := _select_necessary_columns x_filtered (coordinates_column self) in
  let! linker := link (df_linker self) coordinates_data in
  let self := df_set_linker self linker in
  let df_out :=
    if bool_decide (collid_column self ∈ columns x)
    then drop_column x_filtered (collid_column self)
    else x_filtered in
  let event_ids := event_ids linker in
  if bool_decide (length event_ids = 0%nat) then
    Ok (set_column df_out (collid_column self)
          (replicate (length (rows df_out)) (CInt 0)), self)
  else if bool_decide (length event_ids = length (rows df_out)) then
    Ok (set_column df_out (collid_column self) (CInt <$> event_ids), self)
  else Raise (ValueError "Length of values does not match length of index").

(** The frame numbers of an integer column; [range] refuses a float. *)
Definition int_of_cell (c : cell) : except Z :=
  match c with
  | CInt z => Ok z
  | CFloat _ => Raise (TypeError "'numpy.float64' object cannot be interpreted as an integer")
  end.

(** [range(n)] *)
Definition py_range (n : Z) : list Z := Z.of_nat <$> seq 0 (Z.to_nat n).

(** The keywords of Python. *)
Definition py_keywords : list string :=
  ["False"; "None"; "True"; "and"; "as"; "assert"; "async"; "await"; "break";
   "class"; "continue"; "def"; "del"; "elif"; "else"; "except"; "finally"; "for";
   "from"; "global"; "if"; "import"; "in"; "is"; "lambda"; "nonlocal"; "not";
   "or"; "pass"; "raise"; "return"; "try"; "while"; "with"; "yield"].

Definition is_letter (c : ascii) : bool :=
  let n := nat_of_ascii c in
  bool_decide (65 ≤ n ≤ 90)%nat || bool_decide (97 ≤ n ≤ 122)%nat
  || bool_decide (n = 95)%nat.

Definition is_digit (c : ascii) : bool :=
  let n := nat_of_ascii c in bool_decide (48 ≤ n ≤ 57)%nat.

(** A name an expression can use for a column: an ASCII identifier that
    is not a keyword. *)
Definition is_identifier (s : string) : bool :=
  match list_ascii_of_string s with
  | [] => false
  | c :: cs =>
      is_letter c && forallb (λ d, is_letter d || is_digit d) cs
      && negb (bool_decide (s ∈ py_keywords))
  end.

(** The functions of numexpr, the engine pandas evaluates a query with
    when it is installed: an expression may not use their names for
    columns. *)
Definition numexpr_functions : list string :=
  ["sin"; "cos"; "exp"; "log"; "expm1"; "log1p"; "sqrt"; "sinh"; "cosh"; "tanh";
   "arcsin"; "arccos"; "arctan"; "arccosh"; "arcsinh"; "arctanh"; "abs"; "log10";
   "floor"; "ceil"; "arctan2"; "sum"; "prod"; "min"; "max"].

(** [x.query(f'{frame_col} == {t}')] given the integer frame numbers of
    the rows. The string is parsed as an expression: it compares the
    column with [t] when the name of the column is an identifier; a name
    such as one with a blank in it is a syntax error, and the name of a
    function of the engine is refused. *)
Definition query_frame (x : DataFrame) (frame_col : string) (frames : list Z) (t : Z)
  : except DataFrame :=
  if negb (is_identifier frame_col) then Raise SyntaxError
  else if bool_decide (frame_col ∈ numexpr_functions) then Raise NameError
  else Ok (select_rows x ((λ f, bool_decide (f = t)) <$> frames)).

(** The body of the generator of [track], run over the frames [ts]. *)
Fixpoint df_track_frames (self : DataFrameTracker) (x_sorted : DataFrame)
    (frames : list Z) (ts : list Z) : except (list DataFrame * DataFrameTracker) :=
  match ts with
  | [] => Ok ([], self)
  | t :: ts' =>
      let! x_frame := query_frame x_sorted (frame_column self) frames t in
      let! '(x_tracked, self) := df_track_iteration self x_frame in
      let! '(rest, self) := df_track_frames self x_sorted frames ts' in
      Ok (x_tracked :: rest, self)
  end.

(** [track], the generator consumed to its end. *)
Definition df_track (self : DataFrameTracker) (x : DataFrame)
  : except (list DataFrame * DataFrameTracker) :=
  if df_empty x then Raise (ValueError "Input is empty")
  else
    let! x_sorted := _sort_input x (frame_column self) (id_column self) in
    let! fcol := get_column x_sorted (frame_column self) in
    let! frames := mapE int_of_cell fcol in
    let! fmax := np_nanmax frames in
    df_track_frames self x_sorted frames (py_range (fmax + 1)).

(** ** Raster tracker *)

(** An n-dimensional integer array: its shape and its elements in
    C order. *)
Record ndarray := {
  shape : list nat;
  data : list Z;
}.

Definition ndim (x : ndarray) : nat := length (shape x).

(** [astype(np.uint16)] on an integer. *)
Definition to_uint16 (v : Z) : Z := v `mod` 65536.

(** [np.indices(shape)] as rows of index tuples in C order. *)
Fixpoint np_indices (shape : list nat) : list (list nat) :=
  match shape with
  | [] => [[]]
  | n :: shape' => i ← seq 0 n; (λ idx, i :: idx) <$> np_indices shape'
  end.

(** Flat position of an index tuple; [None] when an index is out of
    bounds or the tuple has another length than the shape. *)
Fixpoint ravel (shape : list nat) (idx : list nat) : option nat :=
  match shape, idx with
  | [], [] => Some 0%nat
  | n :: shape', i :: idx' =>
      if bool_decide (i < n)%nat then
        j ← ravel shape' idx'; Some (i * foldr Nat.mul 1 shape' + j)%nat
      else None
  | _, _ => None
  end.

Definition np_getitem (x : ndarray) (idx : list nat) : except Z :=
  match ravel (shape x) idx with
  | Some j => from_option Ok (Raise IndexError) (data x !! j)
  | None => Raise IndexError
  end.

(** [out[idx] = v] on an array of dtype uint16. *)
Definition np_setitem_uint16 (out : ndarray) (idx : list nat) (v : Z) : except ndarray :=
  match ravel (shape out) idx with
  | Some j => Ok {| shape := shape out; data := <[j := to_uint16 v]> (data out) |}
  | None => Raise IndexError
  end.

Definition insert_axis (t : nat) (k : nat) (idx : list nat) : list nat :=
  take t idx ++ k :: drop t idx.

(** The [k]-th item of [np.moveaxis(x, t, 0)]. *)
Definition frame_along (x : ndarray) (t : nat) (k : nat) : except ndarray :=
  let fshape := delete t (shape x) in
  let! d := mapE (λ idx, np_getitem x (insert_axis t k idx)) (np_indices fshape) in
  Ok {| shape := fshape; data := d |}.

Record ImageTracker := {
  img_linker : Linker;
}.

Definition _image_to_coordinates (image : ndarray)
  : except (list (list Z) * list Z) :=
  let image_data := to_uint16 <$> data image in
  if bool_decide (shape image = []) then
    Raise (ValueError "cannot reshape array of size 0 into shape (0)")
  else
    let coordinates_array := (λ idx : list nat, Z.of_nat <$> idx) <$> np_indices (shape image) in
    Ok (coordinates_array, image_data).

Definition img_filter_active (pos_data : list (list Z)) (bin_meas_data : list Z)
  : list (list Z) :=
  mask_select pos_data ((λ v, bool_decide (0 < v)) <$> bin_meas_data).

(** The writes of [out_img[indices] = values], one row after the other. *)
Fixpoint scatter_uint16 (out : ndarray) (pos : list (list Z)) (vals : list Z)
  : except ndarray :=
  match pos, vals with
  | p :: pos', v :: vals' =>
      let! out := np_setitem_uint16 out (Z.to_nat <$> p) v in
      scatter_uint16 out pos' vals'
  | _, _ => Ok out
  end.

(** [n_dims] is the number of columns of [pos_data]; for an array without
    rows it is the rank of [x], [track_iteration] passing one column for
    every axis. *)
Definition _coordinates_to_image (x : ndarray) (pos_data : list (list Z))
    (tracked_events : list Z) : except ndarray :=
  let out_img := {| shape := shape x; data := replicate (length (data x)) 0 |} in
  if bool_decide (length tracked_events = 0%nat) then Ok out_img
  else
    let tracked_events_mask := (λ e, bool_decide (0 < e)) <$> tracked_events in
    let! pos_data := np_mask pos_data tracked_events_mask in
    let pos_data := (λ p : list Z, to_uint16 <$> p) <$> pos_data in
    let n_dims := from_option (λ p : list Z, length p) (ndim x) (head pos_data) in
    if bool_decide (n_dims = 0%nat) then
      Raise (ValueError "Dimension of input array not supported.")
    else
      scatter_uint16 out_img pos_data (mask_select tracked_events tracked_events_mask).

Definition img_track_iteration (self : ImageTracker) (x : ndarray)
  : except (ndarray * ImageTracker) :=
  let! '(coordinates_data, meas_data) := _image_to_coordinates x in
  let coordinates_data_filtered := img_filter_active coordinates_data meas_data in
  let! linker :=
    link (img_linker self) ((λ p : list Z, inject_Z <$> p) <$> coordinates_data_filtered) in
  let tracked_events := event_ids linker in
  let! out_img := _coordinates_to_image x coordinates_data_filtered tracked_events in
  Ok (out_img, {| img_linker := linker |}).

(** [c.upper()] on an ASCII character. *)
Definition ascii_upper (c : ascii) : ascii :=
  let n := nat_of_ascii c in
  if bool_decide (97 ≤ n ≤ 122)%nat then ascii_of_nat (n - 32) else c.

(** [l.index(c)] for a [c] that occurs in [l]. *)
Definition first_index_of (c : ascii) (l : list ascii) : nat :=
  match list_find (λ d, d = c) l with
  | Some (j, _) => j
  | None => 0%nat
  end.

(** [d[k]] on a dict given as its items. *)
Definition dict_get {A} (k : ascii) (d : list (ascii * A)) : except A :=
  match list_find (λ kv, kv.1 = k) d with
  | Some (_, kv) => Ok kv.2
  | None => Raise KeyError
  end.

Definition available_dims : list ascii := ["T"; "X"; "Y"; "Z"]%char.

(** The checks at the head of [ImageTracker.track]; returns the position
    of the T axis. *)
Definition img_track_check (x : ndarray) (dims : string) : except nat :=
  let dims_list := ascii_upper <$> list_ascii_of_string dims in
  if existsb (λ i, negb (bool_decide (i ∈ dims_list))) dims_list then
    Raise (ValueError "Invalid dimension. Must be 'T', 'X', 'Y', or 'Z'.")
  else if bool_decide (length (remove_dups dims_list) < length dims_list)%nat then
    Raise (ValueError "Duplicate dimensions in dims.")
  else if bool_decide (length dims_list ≠ ndim x) then
    Raise (ValueError "Length of dims must be equal to number of dimensions in image.")
  else
    let dims_dict :=
      (λ i, (i, first_index_of i dims_list))
        <$> filter (λ i, i ∈ dims_list) available_dims in
    dict_get "T"%char dims_dict.

Fixpoint img_track_frames (self : ImageTracker) (x : ndarray) (t : nat)
    (ks : list nat) : except (list ndarray * ImageTracker) :=
  match ks with
  | [] => Ok ([], self)
  | k :: ks' =>
      let! x_frame := frame_along x t k in
      let! '(x_tracked, self) := img_track_iteration self x_frame in
      let! '(rest, self) := img_track_frames self x t ks' in
      Ok (x_tracked :: rest, self)
  end.

(** [track], the generator consumed to its end. *)
Definition img_track (self : ImageTracker) (x : ndarray) (dims : string)
  : except (list ndarray * ImageTracker) :=
  let! t := img_track_check x dims in
  img_track_frames self x t (seq 0 (default 0%nat (shape x !! t))).

End Trackers.

(** ** Construction of the tabular tracker *)

(** [DataFrameTracker._validate_input]: the loop over the necessary
    column names, then the loop over the optional ones. *)
Definition df_validate_input (coordinates_column : list pyval)
    (frame_column id_column bin_meas_column collid_column : pyval) : except unit :=
  let necessray_cols := [frame_column; collid_column] ++ coordinates_column in
  let optional_cols := [id_column; bin_meas_column] in
  if negb (forallb (λ col, isinstance col [py_str]) necessray_cols) then
    Raise (TypeError "Column names must be of type str")
  else if negb (forallb (λ col, isinstance col [py_str; py_NoneType]) optional_cols) then
    Raise (TypeError "Column names must be of type str or None")
  else Ok ().

(** The string held by an argument that passed the [str] check, and the
    optional string held by one that passed the [str]-or-None check. *)
Definition str_value (v : pyval) : except string :=
  match v with
  | PyStr s => Ok s
  | _ => Raise (TypeError "a string is required")
  end.

Definition optional_str_value (v : pyval) : except (option string) :=
  match v with
  | PyStr s => Ok (Some s)
  | PyNone => Ok None
  | _ => Raise (TypeError "a string or None is required")
  end.

Definition DataFrameTracker_init (linker : Linker) (coordinates_column : list pyval)
    (frame_column id_column bin_meas_column collid_column : pyval)
  : except DataFrameTracker :=
  let! _ := df_validate_input coordinates_column frame_column id_column
              bin_meas_column collid_column in
  let! coordinates := mapE str_value coordinates_column in
  let! frame := str_value frame_column in
  let! id := optional_str_value id_column in
  let! bin_meas := optional_str_value bin_meas_column in
  let! collid := str_value collid_column in
  Ok {| df_linker := linker; coordinates_column := coordinates;
        frame_column := frame; id_column := id; bin_meas_column := bin_meas;
        collid_column := collid |}.

(** ** The entry point for images *)

(** [s.index(c)] on a string *)
Definition str_index (c : ascii) (s : list ascii) : except nat :=
  match list_find (λ d, d = c) s with
  | Some (i, _) => Ok i
  | None => Raise (ValueError "substring not found")
  end.

(** [np.stack(arrays, axis)]: the arrays must have one shape; element
    [idx] of the result is element [idx] without its entry [axis] of the
    array numbered by that entry. *)
Definition np_stack (arrays : list ndarray) (axis : nat) : except ndarray :=
  match arrays with
  | [] => Raise (ValueError "need at least one array to stack")
  | a :: _ =>
      if negb (forallb (λ b, bool_decide (shape b = shape a)) arrays) then
        Raise (ValueError "all input arrays must have the same shape")
      else if bool_decide (ndim a < axis)%nat then
        Raise (ValueError "axis is out of bounds")
      else
        let out_shape := insert_axis axis (length arrays) (shape a) in
        let! d :=
          mapE (λ idx : list nat,
                  match idx !! axis with
                  | Some k =>
                      match arrays !! k with
                      | Some b => np_getitem b (delete axis idx)
                      | None => Raise IndexError
                      end
                  | None => Raise IndexError
                  end) (np_indices out_shape) in
        Ok {| shape := out_shape; data := d |}
  end.

(** [pd.concat(tables).reset_index(drop=True)] for tables that have the
    same columns, which is what [DataFrameTracker.track] yields: the rows
    of the tables, one table after the other. *)
Definition pd_concat (tables : list DataFrame) : except DataFrame :=
  match tables with
  | [] => Raise (ValueError "No objects to concatenate")
  | d :: _ => Ok {| columns := columns d; rows := concat (rows <$> tables) |}
  end.

Section Entry.
Context `{E : Externals}.

(** [track_events_dataframe]; the progress bar reads [X[frame_column]]
    before the first frame is tracked. *)
Definition track_events_dataframe (X : DataFrame) (coordinates_column : list pyval)
    (frame_column id_column bin_meas_colum collid_column : pyval)
    (eps epsPrev minClSz minSamples clusteringMethod propagationThreshold nPrev nJobs : pyval)
  : except DataFrame :=
  let! linker := Linker_init eps epsPrev minClSz minSamples clusteringMethod
                   propagationThreshold nPrev nJobs in
  let! tracker := DataFrameTracker_init linker coordinates_column frame_column
                    id_column bin_meas_colum collid_column in
  let! frame := str_value frame_column in
  let! total := get_column X frame in
  let! '(timepoints, _) := df_track tracker X in
  pd_concat timepoints.

(** [track_events_image]; the progress bar reads [X.shape[T_index]]
    before the first frame is tracked. *)
Definition track_events_image (X : ndarray)
    (eps epsPrev minClSz minSamples clusteringMethod propagationThreshold nPrev : pyval)
    (dims : string) (nJobs : pyval) : except ndarray :=
  let! linker := Linker_init eps epsPrev minClSz minSamples clusteringMethod
                   propagationThreshold nPrev nJobs in
  let tracker := {| img_linker := linker |} in
  let! T_index := str_index "T"%char (ascii_upper <$> list_ascii_of_string dims) in
  let! total := from_option Ok (Raise IndexError) (shape X !! T_index) in
  let! '(timepoints, _) := img_track tracker X dims in
  np_stack timepoints T_index.

End Entry.
(** ** A reference implementation of the external libraries

    A linear scan for the nearest neighbour, an insertion argsort, and a
    clusterer that puts all points of a frame in one cluster. They
    satisfy the contract and serve to run the model on concrete frames. *)

Fixpoint scan_nearest (p : coord) (data : list coord) (i : nat) (best : Q * nat)
  : Q * nat :=
  match data with
  | [] => best
  | q :: data' =>
      let d := dist2 p q in
      scan_nearest p data' (S i) (if Qle_bool best.1 d then best else (d, i))
  end.

Definition scan_query (data : list coord) (p : coord) : Q * nat :=
  match data with
  | [] => (0%Q, 0%nat)
  | q :: data' => scan_nearest p data' 1 (dist2 p q, 0%nat)
  end.

(** Insertion of index [i] into a list of indices sorted by [leb]. *)
Fixpoint insert_by (leb : nat → nat → bool) (i : nat) (sorted : list nat) : list nat :=
  match sorted with
  | [] => [i]
  | j :: sorted' =>
      if leb i j then i :: j :: sorted' else j :: insert_by leb i sorted'
  end.

Definition insertion_order (leb : nat → nat → bool) (n : nat) : list nat :=
  foldr (insert_by leb) [] (seq 0 n).

Definition key_at (a : list Z) (i : nat) : Z := default 0 (a !! i).

Definition insertion_argsort (a : list Z) : list nat :=
  insertion_order (λ i j, bool_decide (key_at a i ≤ key_at a j)) (length a).

Definition keys_at (keys : list (list cell)) (i : nat) : list cell :=
  default [] (keys !! i).

Definition insertion_sort_values (keys : list (list cell)) : list nat :=
  insertion_order (λ i j, keys_leb (keys_at keys i) (keys_at keys j)) (length keys).

Definition one_cluster (x : list coord) : except (list Z) := Ok (replicate (length x) 0).

Definition reference_externals : Externals :=
  {| DBSCAN_fit := λ _ _ _, one_cluster;
     HDBSCAN_fit := λ _ _ _ _ _, one_cluster;
     KDTree_query := scan_query;
     np_argsort := insertion_argsort;
     sort_values_order := insertion_sort_values |}.

(** A Linker with the default arguments, over the reference
    implementation of the external libraries, and two frames. *)
Definition demo_linker : Linker :=
  {| _memory := memory_new 1; _nn_tree := None; propagation_threshold := 1;
     epsPrev := PyInt 1; n_jobs := 1; event_ids := []; max_prev_event_id := 0;
     clustering_function := λ x, _dbscan (E := reference_externals) x (PyInt 1) 1 1 |}.

Definition frame_a : list coord := [[0; 0]; [0; 1]]%Q.
Definition frame_b : list coord := [[1 # 2; 1 # 2]; [1 # 2; 3 # 2]]%Q.


(** The Linker after one more [link] call (unchanged if the call raises). *)
Definition linker_after (L : Linker) (x : list coord) : Linker :=
  match link (E := reference_externals) L x with
  | Ok L' => L'
  | Raise _ => L
  end.

(** A Linker with [propagationThreshold = 0] that has seen one point. *)
Definition zero_threshold_linker : Linker :=
  linker_after
    {| _memory := memory_new 1; _nn_tree := None; propagation_threshold := 0;
       epsPrev := PyInt 1; n_jobs := 1; event_ids := []; max_prev_event_id := 0;
       clustering_function := λ x, _dbscan (E := reference_externals) x (PyInt 1) 1 1 |}
    [[0; 0]]%Q.

(** A [2 x 1 x 1] image, both voxels bright. *)
Definition tiny_image : ndarray := {| shape := [2; 1; 1]%nat; data := [1; 1] |}.

(** A [2 x 2] frame with a negative intensity, and tracked event ids for
    its three active voxels, one of them beyond 16 bits. *)
Definition wrap_frame : ndarray := {| shape := [2; 2]%nat; data := [1; 0; -1; 7] |}.

(** The default Linker with its linking radius overwritten after
    construction. *)
Definition demo_linker_with_radius (r : pyval) : Linker :=
  {| _memory := _memory demo_linker; _nn_tree := _nn_tree demo_linker;
     propagation_threshold := propagation_threshold demo_linker;
     epsPrev := r; n_jobs := n_jobs demo_linker;
     event_ids := event_ids demo_linker;
     max_prev_event_id := max_prev_event_id demo_linker;
     clustering_function := clustering_function demo_linker |}.

(** A table with the columns t, x, y, m and rows in the frames 0 and 2,
    and a tracker over the default Linker. *)
Definition demo_table : DataFrame :=
  {| columns := ["t"; "x"; "y"; "m"];
     rows := [ [CInt 2; CInt 0; CInt 0; CInt 1];
               [CInt 0; CInt 0; CInt 0; CInt 1];
               [CInt 0; CInt 0; CInt 1; CInt 1];
               [CInt 2; CInt 5; CInt 5; CInt 0] ] |}.

Definition demo_tracker : DataFrameTracker :=
  {| df_linker := demo_linker; coordinates_column := ["x"; "y"];
     frame_column := "t"; id_column := None; bin_meas_column := Some "m";
     collid_column := "clTrackID" |}.

(** What [demo_tracker] yields for [demo_table]: one table for each of the
    frames 0, 1 and 2. *)
Definition demo_tracked : list DataFrame :=
  [ {| columns := ["t"; "x"; "y"; "m"; "clTrackID"];
       rows := [ [CInt 0; CInt 0; CInt 0; CInt 1; CInt 1];
                 [CInt 0; CInt 0; CInt 1; CInt 1; CInt 1] ] |};
    {| columns := ["t"; "x"; "y"; "m"; "clTrackID"]; rows := [] |};
    {| columns := ["t"; "x"; "y"; "m"; "clTrackID"];
       rows := [ [CInt 2; CInt 0; CInt 0; CInt 1; CInt 2] ] |} ].
(** ** The invariant of a Linker *)

Section Invariant_defs.
Context `{E : Externals}.

Definition ids_in (c : Z) (ids : list Z) : Prop := Forall (λ i, 1 ≤ i ≤ c) ids.

Definition labels_positive (f : list coord → except (list (option Z))) : Prop :=
  ∀ x ls, f x = Ok ls → Forall (λ o, ∀ l, o = Some l → 1 ≤ l) ls.

Record Linker_inv (L : Linker) : Prop := {
  inv_labels : labels_positive (clustering_function L);
  inv_counter : 0 ≤ max_prev_cluster_id (_memory L);
  inv_ids : Forall (ids_in (max_prev_cluster_id (_memory L)))
              (prev_cluster_ids (_memory L));
  inv_public : max_prev_event_id L = 0;
  inv_frames : length (coordinates (_memory L)) = length (prev_cluster_ids (_memory L));
  inv_bound : 0 ≤ n_timepoints (_memory L) →
              Z.of_nat (length (coordinates (_memory L))) ≤ n_timepoints (_memory L);
}.

(** Linking clusters changes nothing of the Linker but the counter. *)
Definition with_counter (L : Linker) (c : Z) : Linker :=
  set_memory L (set_max_prev_cluster_id (_memory L) c).

End Invariant_defs.


(** ** The linking rule in the specification's words *)

Section LinkSpec.
Context `{E : Externals}.
Context (memory_event_ids : list Z) (memory_coords : list coord).
Context (propagationThreshold : Z) (eps_prev : Q).

(** The event id of the nearest memory neighbour of a point. *)
Definition neighbor_id (p : coord) : Z :=
  default 0 (memory_event_ids !! (KDTree_query memory_coords p).2).

(** The nearest memory neighbour lies within [epsPrev]. *)
Definition within_eps (p : coord) : bool :=
  dist_le (KDTree_query memory_coords p).1 eps_prev.

(** [eligible = neighbor_ids[nn_dist <= epsPrev]] for the points of one
    cluster. *)
Definition eligible (pts : list coord) : list Z :=
  neighbor_id <$> filter (λ p, within_eps p = true) pts.

(** A cluster receives a fresh id. *)
Definition mints (pts : list coord) : bool :=
  bool_decide (Z.of_nat (length (eligible pts)) < propagationThreshold)
  || bool_decide (eligible pts = []).

(** The points of the cluster labelled [l], in row order. *)
Definition cluster_points (labels : list Z) (coords : list coord) (l : Z)
  : list coord :=
  (filter (λ lp, lp.1 = l) (zip labels coords)).*2.

(** How many of the clusters with a label up to [l] receive a fresh id. *)
Definition minted_upto (labels : list Z) (coords : list coord) (l : Z) : nat :=
  length (filter (λ l', l' ≤ l ∧ mints (cluster_points labels coords l') = true)
            (remove_dups labels)).

(** The id of a row with label [l] and coordinates [p], when the counter
    stood at [c] before the call. *)
Definition row_id (c : Z) (labels : list Z) (coords : list coord)
    (l : Z) (p : coord) : Z :=
  if mints (cluster_points labels coords l)
  then c + Z.of_nat (minted_upto labels coords l)
  else neighbor_id p.

(** The linking of a list of clusters, each given by its points, one
    after the other, starting from counter [c]. *)
Fixpoint assign_clusters (c : Z) (clusters : list (list coord))
  : list (list Z) * Z :=
  match clusters with
  | [] => ([], c)
  | pts :: clusters' =>
      if mints pts then
        let '(rest, c') := assign_clusters (c + 1) clusters' in
        (replicate (length pts) (c + 1) :: rest, c')
      else
        let '(rest, c') := assign_clusters c clusters' in
        ((neighbor_id <$> pts) :: rest, c')
  end.

End LinkSpec.

(** ** What [link] computes, in the specification's words *)

Section LinkerSpec.
Context `{E : Externals}.

(** The counter the specification calls [max_prev_event_id]: the code
    keeps it in the memory as [max_prev_cluster_id]. *)
Definition counter (L : Linker) : Z := max_prev_cluster_id (_memory L).

(** [Memory.all_event_ids()] and [Memory.all_coordinates()] *)
Definition memory_ids (L : Linker) : list Z := concat (prev_cluster_ids (_memory L)).
Definition memory_points (L : Linker) : list coord := concat (coordinates (_memory L)).

(** The linking radius as a number. *)
Definition eps_of (L : Linker) : Q := default 0%Q (as_number (epsPrev L)).

(** The rows the clusterer kept (did not mark as noise). *)
Definition kept (clusters : list (option Z)) : list bool := negb <$> (isnan <$> clusters).

(** The ids of the kept rows, in row order, for their labels [cl] and
    coordinates [co]: steps 2 to 4 of the algorithm. *)
Definition linked_ids (L : Linker) (cl : list Z) (co : list coord) : list Z :=
  if bool_decide (memory_ids L = []) then (λ l, l + counter L) <$> cl
  else zip_with (row_id (memory_ids L) (memory_points L) (propagation_threshold L)
                   (eps_of L) (counter L) cl co) cl co.

(** How many clusters with a label below [l] receive a fresh id. *)
Definition minted_below (L : Linker) (cl : list Z) (co : list coord) (l : Z) : nat :=
  length (filter (λ l', l' < l
                        ∧ mints (memory_ids L) (memory_points L) (propagation_threshold L)
                            (eps_of L) (cluster_points cl co l') = true)
            (remove_dups cl)).

(** The clusters of a frame that receive a fresh id. *)
Definition minted_clusters (L : Linker) (cl : list Z) (co : list coord) : list Z :=
  filter (λ l, mints (memory_ids L) (memory_points L) (propagation_threshold L)
                 (eps_of L) (cluster_points cl co l) = true)
    (remove_dups cl).

End LinkerSpec.

(** The id of a row with label [l] when the clusters are linked in the
    order of the labels [vs], [M] telling which of them mint. *)
Definition run_id `{E : Externals} (mem_ids : list Z) (tree : list coord)
    (M : Z → bool) (c : Z) (vs : list Z) (l : Z) (p : coord) : Z :=
  if M l then c + Z.of_nat (length (filter (λ v, v ≤ l ∧ M v = true) vs))
  else neighbor_id mem_ids tree p.

(** Run-length encoding of a list of labels. *)
Fixpoint rle (l : list Z) : list (Z * nat) :=
  match l with
  | [] => []
  | v :: l' =>
      match rle l' with
      | (w, n) :: r => if decide (v = w) then (v, S n) :: r else (v, 1%nat) :: (w, n) :: r
      | [] => [(v, 1%nat)]
      end
  end.

(** The start offsets of consecutive runs of the given lengths. *)
Fixpoint offsets_from (s : nat) (ns : list nat) : list nat :=
  match ns with
  | [] => []
  | n :: ns' => s :: offsets_from (s + n) ns'
  end.

(** Cuts a list into pieces of the given lengths, the last piece taking
    what remains. *)
Fixpoint chunks {A} (ns : list nat) (a : list A) : list (list A) :=
  match ns with
  | [] => []
  | [n] => [a]
  | n :: ns' => take n a :: chunks ns' (drop n a)
  end.

(** The Linkers that a program can hold: constructed, then advanced by
    [link] calls that returned. *)
Inductive reachable `{E : Externals} : Linker → Prop :=
| reachable_init eps epsPrev minClSz minSamples clusteringMethod
    propagationThreshold nPrev nJobs L :
    Linker_init eps epsPrev minClSz minSamples clusteringMethod
      propagationThreshold nPrev nJobs = Ok L →
    reachable L
| reachable_link L x L' :
    reachable L → link L x = Ok L' → reachable L'.

(** Setting the public attribute [Linker.max_prev_event_id]. *)
Definition set_max_prev_event_id (L : Linker) (v : Z) : Linker :=
  {| _memory := _memory L; _nn_tree := _nn_tree L;
     propagation_threshold := propagation_threshold L;
     epsPrev := epsPrev L; n_jobs := n_jobs L;
     event_ids := event_ids L; max_prev_event_id := v;
     clustering_function := clustering_function L |}.


(** The last [j] calls left no ids in the memory. *)
Definition drained_to (j : nat) (m : memory) : Prop :=
  ∃ pre k, prev_cluster_ids m = pre ++ replicate k [] ∧ (pre = [] ∨ j ≤ k)%nat.


(** ** What the tabular tracker does for one frame *)

Section TableSpec.
Context `{E : Externals}.

(** The columns [_sort_input] sorts by: the frame, then the object id
    when there is one. *)
Definition sort_by (frame_col : string) (object_id_col : option string) : list string :=
  match object_id_col with
  | Some c => if bool_decide (c = "") then [frame_col] else [frame_col; c]
  | None => [frame_col]
  end.

(** The active rows of frame [t] and their coordinate array: steps 2 to 4
    of [track]. *)
Definition df_frame_input (self : DataFrameTracker) (x_sorted : DataFrame)
    (frames : list Z) (t : Z) : except (DataFrame * list coord) :=
  let! x_frame := query_frame x_sorted (frame_column self) frames t in
  let! x_filtered := df_filter_active x_frame (bin_meas_column self) in
  let! coords := _select_necessary_columns x_filtered (coordinates_column self) in
  Ok (x_filtered, coords).

(** The table emitted for a frame: the active rows, without a previous
    event-id column, with the event ids appended, or 0 when there are
    none. *)
Definition df_frame_output (self : DataFrameTracker) (x_sorted x_filtered : DataFrame)
    (ids : list Z) : DataFrame :=
  let df_out :=
    if bool_decide (collid_column self ∈ columns x_sorted)
    then drop_column x_filtered (collid_column self)
    else x_filtered in
  set_column df_out (collid_column self)
    (if bool_decide (ids = []) then replicate (length (rows df_out)) (CInt 0)
     else CInt <$> ids).

End TableSpec.

(** ** The window of the memory *)

Section MemorySpec.
Context `{E : Externals}.

(** The rows of a frame the clusterer keeps, and the mask selecting them. *)
Definition kept_rows (L : Linker) (x : list coord) : list coord :=
  match _clustering L x with
  | Ok (_, co, _) => co
  | Raise _ => []
  end.

Definition kept_mask (L : Linker) (x : list coord) : list bool :=
  match _clustering L x with
  | Ok (_, _, nan) => negb <$> nan
  | Raise _ => []
  end.

(** The event ids a call gave to the rows it kept. *)
Definition kept_ids (L : Linker) (x : list coord) (ids : list Z) : list Z :=
  mask_select ids (kept_mask L x).

End MemorySpec.

(** The last [n] items of a list. *)
Definition last_frames {A} (n : Z) (l : list A) : list A :=
  drop (length l - Z.to_nat n) l.

(** Every frame of the memory holds one event id per row. *)
Definition aligned `{E : Externals} (L : Linker) : Prop :=
  Forall2 (λ (c : list coord) (p : list Z), length c = length p)
    (coordinates (_memory L)) (prev_cluster_ids (_memory L)).

(** The frames a sequence of calls may be given: arrays of points of one
    dimension [d], for each of which the clusterer returns one label per
    row. *)
Definition well_shaped (d : nat) (x : list coord) : Prop :=
  Forall (λ r : coord, length r = d) x.

Definition clusters_rows `{E : Externals} (L : Linker) (x : list coord) : Prop :=
  x ≠ [] → ∃ ls, clustering_function L x = Ok ls ∧ length ls = length x.

(** ** Tables *)

(** Every row of the table has one cell per column. *)
Definition df_wf (x : DataFrame) : Prop :=
  Forall (λ r : list cell, length r = length (columns x)) (rows x).

(** A row of a table with the columns [cols], without the cells of the
    columns labelled [name]. *)
Definition without_column {A} (cols : list string) (name : string) (r : list A) : list A :=
  mask_select r ((λ c, bool_decide (c ≠ name)) <$> cols).

(** ** Images *)

(** The array holds one element per index tuple of its shape. *)
Definition nd_wf (x : ndarray) : Prop :=
  length (data x) = foldr Nat.mul 1%nat (shape x).

(** What [_coordinates_to_image] stores for an event id: the id as a
    uint16 when it is positive, 0 for the noise sentinel. *)
Definition clamp_id (e : Z) : Z :=
  if bool_decide (0 < e) then to_uint16 e else 0.

(** ** Reference data *)

(** The default Linker with another number of remembered frames. *)
Definition demo_linker_window (n : Z) : Linker :=
  {| _memory := memory_new n; _nn_tree := None; propagation_threshold := 1;
     epsPrev := PyInt 1; n_jobs := 1; event_ids := []; max_prev_event_id := 0;
     clustering_function := λ x, _dbscan (E := reference_externals) x (PyInt 1) 1 1 |}.

(** The default Linker with another number of workers. *)
Definition demo_linker_workers (j : Z) : Linker :=
  {| _memory := memory_new 1; _nn_tree := None; propagation_threshold := 1;
     epsPrev := PyInt 1; n_jobs := j; event_ids := []; max_prev_event_id := 0;
     clustering_function := λ x, _dbscan (E := reference_externals) x (PyInt 1) 1 1 |}.

(** The tracker and the Linker after a call that returned (unchanged if
    the call raised). *)
Definition tracker_after (self : DataFrameTracker) (x : DataFrame) : DataFrameTracker :=
  match df_track_iteration (E := reference_externals) self x with
  | Ok (_, self') => self'
  | Raise _ => self
  end.

Definition image_tracker_after (self : ImageTracker) (x : ndarray) : ImageTracker :=
  match img_track_iteration (E := reference_externals) self x with
  | Ok (_, self') => self'
  | Raise _ => self
  end.

Definition linker_after_all (L : Linker) (frames : list (list coord)) : Linker :=
  match link_all (E := reference_externals) L frames with
  | Ok (_, L') => L'
  | Raise _ => L
  end.

(** ** Rows of a table *)

(** The cell of a row in the column labelled [name] (0 when the table has
    no such column or the row is too short). *)
Definition row_cell (x : DataFrame) (name : string) (r : list cell) : cell :=
  match list_find (λ c, c = name) (columns x) with
  | Some (i, _) => default (CInt 0) (r !! i)
  | None => CInt 0
  end.

(** The row counts as active: its measurement is positive, or there is
    no measurement column. *)
Definition row_active (x : DataFrame) (bin_meas_col : option string) (r : list cell) : bool :=
  match bin_meas_col with
  | Some c => Qlt_bool 0 (cell_num (row_cell x c r))
  | None => true
  end.

(** The frame number of a row. *)
Definition row_frame (x : DataFrame) (frame_col : string) (r : list cell) : Z :=
  match row_cell x frame_col r with
  | CInt z => z
  | CFloat _ => 0
  end.

(** A row without its last cell. *)
Definition without_last {A} (r : list A) : list A := take (length r - 1) r.

(** [demo_tracker] reading its frame numbers and its measurements from
    other columns. *)
Definition demo_tracker_with (frame meas : string) : DataFrameTracker :=
  {| df_linker := demo_linker; coordinates_column := ["x"; "y"];
     frame_column := frame; id_column := None; bin_meas_column := Some meas;
     collid_column := "clTrackID" |}.

(** A table all of whose frame numbers are negative. *)
Definition negative_table : DataFrame :=
  {| columns := ["t"; "x"; "y"; "m"];
     rows := [ [CInt (-1); CInt 0; CInt 0; CInt 1] ] |}.
(** ** Reasoning about [except] *)

Lemma bind_Ok {A B} (m : except A) (k : A → except B) b :
  bind m k = Ok b → ∃ a, m = Ok a ∧ k a = Ok b.
Proof. destruct m as [a|e]; simpl; [eauto|done]. Qed.

Tactic Notation "inv_bind" hyp(H) :=
  let a := fresh "r" in
  let Ha := fresh "H" a in
  apply bind_Ok in H as (a & Ha & H).

Tactic Notation "inv_bind" hyp(H) "as" simple_intropattern(a) ident(Ha) :=
  apply bind_Ok in H as (a & Ha & H).

Ltac inv_Ok H := injection H as H; try subst.

(** ** Facts about the numpy helpers *)

Lemma np_take_Forall2 {A} (a : list A) idx vs :
  np_take a idx = Ok vs → Forall2 (λ i v, a !! i = Some v) idx vs.
Proof.
  revert vs. induction idx as [|i idx IH]; simpl; intros vs H.
  - inv_Ok H. constructor.
  - destruct (a !! i) as [v|] eqn:Hi; [|done].
    inv_bind H. inv_Ok H. constructor; [done|]. by apply IH.
Qed.

Lemma np_take_fmap {A} (a : list A) idx vs (d : A) :
  np_take a idx = Ok vs → vs = (λ i, default d (a !! i)) <$> idx.
Proof.
  intros H%np_take_Forall2. induction H as [|i v idx vs Hi _ IH]; simpl; [done|].
  by rewrite Hi, IH.
Qed.

Lemma np_take_elem_of {A} (a : list A) idx vs v :
  np_take a idx = Ok vs → v ∈ vs → v ∈ a.
Proof.
  intros H%np_take_Forall2 Hv. induction H as [|i w idx vs Hi _ IH].
  - by apply not_elem_of_nil in Hv.
  - apply elem_of_cons in Hv as [->|Hv]; [|by apply IH].
    by eapply list_elem_of_lookup_2.
Qed.

Lemma np_take_length {A} (a : list A) idx vs :
  np_take a idx = Ok vs → length vs = length idx.
Proof. intros H%np_take_Forall2. symmetry. by eapply Forall2_length. Qed.

Lemma np_take_in_range {A} (a : list A) idx :
  Forall (λ i, (i < length a)%nat) idx → is_Ok (np_take a idx).
Proof.
  induction 1 as [|i idx Hi _ [vs IH]]; simpl; [by eexists|].
  apply lookup_lt_is_Some_2 in Hi as [v ->]. rewrite IH. simpl. by eexists.
Qed.

Lemma mask_select_elem_of {A} (a : list A) mask v :
  v ∈ mask_select a mask → v ∈ a.
Proof.
  revert mask. induction a as [|w a IH]; intros [|[] mask]; simpl;
    try (by intros ?%not_elem_of_nil).
  - intros [->|?]%elem_of_cons; [left|right; eauto].
  - intros ?. right. eauto.
Qed.

Lemma mask_fill_Forall (P : Z → Prop) base mask vals :
  Forall P base → Forall P vals → Forall P (mask_fill base mask vals).
Proof.
  intros Hb. revert mask vals.
  induction Hb as [|v base Hv Hb IH]; intros mask vals Hvals; [by destruct mask|].
  destruct mask as [|[] mask]; simpl.
  - by constructor.
  - destruct Hvals as [|w vals Hw Hvals]; constructor; auto.
  - constructor; auto.
Qed.

Lemma mask_fill_length base mask vals :
  length (mask_fill base mask vals) = length base.
Proof.
  revert mask vals. induction base as [|v base IH]; intros [|[] mask] vals; simpl; try done.
  - destruct vals; simpl; by rewrite IH.
  - by rewrite IH.
Qed.

Lemma np_put_mask_Forall (P : Z → Prop) base mask vals out :
  np_put_mask base mask vals = Ok out →
  Forall P base → Forall P vals → Forall P out.
Proof.
  unfold np_put_mask. intros H Hb Hv. case_decide.
  - inv_Ok H. by apply mask_fill_Forall.
  - destruct vals as [|w [|]]; try done. inv_Ok H.
    apply mask_fill_Forall; [done|]. apply Forall_replicate. by inversion Hv.
Qed.

Lemma np_put_mask_length base mask vals out :
  np_put_mask base mask vals = Ok out → length out = length base.
Proof.
  unfold np_put_mask. intros H. case_decide.
  - inv_Ok H. apply mask_fill_length.
  - destruct vals as [|w [|]]; try done. inv_Ok H. apply mask_fill_length.
Qed.

Lemma foldr_max_ge v a : v ≤ foldr Z.max v a ∧ Forall (λ w, w ≤ foldr Z.max v a) a.
Proof.
  induction a as [|w a [IH1 IH2]]; simpl; [split; [lia|constructor]|].
  split; [lia|]. constructor; [lia|].
  eapply Forall_impl; [exact IH2|]. simpl. lia.
Qed.

Lemma foldr_max_elem_of v a : foldr Z.max v a ∈ v :: a.
Proof.
  induction a as [|w a IH]; simpl; [left|].
  destruct (Z.max_spec w (foldr Z.max v a)) as [[_ ->]|[_ ->]].
  - apply elem_of_cons in IH as [->|?]; [left|right; by right].
  - right. left.
Qed.

Lemma np_nanmax_Ok a m :
  np_nanmax a = Ok m → m ∈ a ∧ Forall (λ w, w ≤ m) a.
Proof.
  destruct a as [|v a]; simpl; [done|]. intros H. inv_Ok H. split.
  - apply foldr_max_elem_of.
  - constructor; apply foldr_max_ge.
Qed.

Lemma concat_or_first_ne {A} (l : list (list A)) : l ≠ [] → concat_or_first l = Ok (concat l).
Proof.
  unfold concat_or_first. intros Hl. case_bool_decide as Hlen; [done|].
  destruct l as [|a [|b l]]; simpl in *; try done; [|lia].
  by rewrite app_nil_r.
Qed.

Lemma concat_or_first_Ok {A} (l : list (list A)) r :
  concat_or_first l = Ok r → r = concat l ∧ l ≠ [].
Proof.
  intros H. destruct l as [|a l]; [done|].
  rewrite concat_or_first_ne in H by done. by inv_Ok H.
Qed.

Lemma forallb_Forall_true {A} (f : A → bool) (l : list A) :
  Forall (λ a, f a = true) l → forallb f l = true.
Proof. induction 1 as [|a l Ha _ IH]; simpl; [done|]. by rewrite Ha, IH. Qed.

Lemma np_concatenate_rows_Ok l r : np_concatenate_rows l = Ok r → r = concat l.
Proof.
  unfold np_concatenate_rows. destruct (concat l) as [|r0 rs]; [by intros [= <-]|].
  destruct (forallb _ rs); [by intros [= <-]|done].
Qed.

Lemma np_concatenate_rows_same d l :
  Forall (Forall (λ r : coord, length r = d)) l → np_concatenate_rows l = Ok (concat l).
Proof.
  intros Hl. apply Forall_concat in Hl. unfold np_concatenate_rows.
  destruct (concat l) as [|r0 rs]; [done|].
  apply Forall_cons in Hl as [Hr0 Hrs].
  rewrite forallb_Forall_true; [done|].
  eapply Forall_impl; [exact Hrs|]. simpl. intros r Hr.
  apply bool_decide_eq_true_2. congruence.
Qed.

Lemma all_coordinates_Ok m r :
  all_coordinates m = Ok r → r = concat (coordinates m) ∧ coordinates m ≠ [].
Proof.
  unfold all_coordinates. case_bool_decide as Hlen.
  - intros H%np_concatenate_rows_Ok. split; [done|]. intros Hnil.
    rewrite Hnil in Hlen. simpl in Hlen. lia.
  - destruct (coordinates m) as [|a [|b l]]; simpl in *; [done| |lia].
    intros [= <-]. by rewrite app_nil_r.
Qed.

Lemma all_coordinates_same d m :
  coordinates m ≠ [] → Forall (Forall (λ r : coord, length r = d)) (coordinates m) →
  all_coordinates m = Ok (concat (coordinates m)).
Proof.
  intros Hne Hd. unfold all_coordinates. case_bool_decide as Hlen.
  - by eapply np_concatenate_rows_same.
  - destruct (coordinates m) as [|a [|b l]]; simpl in *; [done| |lia].
    by rewrite app_nil_r.
Qed.

Lemma kdtree_query_Ok `{E : Externals} data pts w nn :
  kdtree_query data pts w = Ok nn →
  nn = KDTree_query data <$> pts ∧ (w = -1 ∨ 1 ≤ w).
Proof.
  unfold kdtree_query. case_bool_decide as Hw; [done|].
  assert (w = -1 ∨ 1 ≤ w) by lia.
  destruct data as [|d data]; [by intros [= <-]|].
  destruct (forallb _ pts); [by intros [= <-]|done].
Qed.

Lemma kdtree_query_same `{E : Externals} d data pts w :
  w = -1 ∨ 1 ≤ w →
  Forall (λ r : coord, length r = d) data → Forall (λ r : coord, length r = d) pts →
  kdtree_query data pts w = Ok (KDTree_query data <$> pts).
Proof.
  intros Hw Hdata Hpts. unfold kdtree_query.
  rewrite bool_decide_eq_false_2 by lia.
  destruct data as [|r0 data]; [done|]. apply Forall_cons in Hdata as [Hr0 _].
  rewrite forallb_Forall_true; [done|].
  eapply Forall_impl; [exact Hpts|]. simpl. intros r Hr.
  apply bool_decide_eq_true_2. congruence.
Qed.

Lemma scan_nearest_spec p data : ∀ i best pre q0,
  length pre = i →
  (pre ++ data) !! best.2 = Some q0 →
  (best.2 < i)%nat →
  (best.1 == dist2 p q0)%Q →
  (∀ q', q' ∈ pre → (dist2 p q0 <= dist2 p q')%Q) →
  is_nearest (pre ++ data) p (scan_nearest p data i best).
Proof.
  induction data as [|q data IH]; intros i best pre q0 Hlen Hlook Hlt Heq Hmin.
  - simpl. exists q0. rewrite app_nil_r in *. done.
  - simpl. replace (pre ++ q :: data) with ((pre ++ [q]) ++ data) in *
      by (by rewrite <- app_assoc).
    destruct (Qle_bool best.1 (dist2 p q)) eqn:Hle.
    + apply (IH (S i) best (pre ++ [q]) q0); try done.
      * rewrite length_app. simpl. lia.
      * lia.
      * intros q' [Hq'|Hq']%elem_of_app; [by apply Hmin|].
        apply list_elem_of_singleton in Hq' as ->.
        apply Qle_bool_iff in Hle. by rewrite <- Heq.
    + apply (IH (S i) (dist2 p q, i) (pre ++ [q]) q); simpl.
      * rewrite length_app. simpl. lia.
      * rewrite lookup_app_l by (rewrite length_app; simpl; lia).
        rewrite lookup_app_r by lia. by replace (i - length pre)%nat with 0%nat by lia.
      * lia.
      * reflexivity.
      * assert (dist2 p q < dist2 p q0)%Q as Hlt'.
        { apply Qnot_le_lt. intros Hc. rewrite <- Heq in Hc.
          apply Qle_bool_iff in Hc. congruence. }
        intros q' [Hq'|Hq']%elem_of_app.
        -- apply Qlt_le_weak. eapply Qlt_le_trans; [exact Hlt'|by apply Hmin].
        -- apply list_elem_of_singleton in Hq' as ->. apply Qle_refl.
Qed.

Lemma scan_query_nearest data p : data ≠ [] → is_nearest data p (scan_query data p).
Proof.
  destruct data as [|q data]; [done|]. intros _. unfold scan_query.
  apply (scan_nearest_spec p data 1 (dist2 p q, 0%nat) [q] q); simpl; try done.
  - lia.
  - intros q' ->%list_elem_of_singleton. apply Qle_refl.
Qed.

Lemma insert_by_perm leb i s : insert_by leb i s ≡ₚ i :: s.
Proof.
  induction s as [|j s IH]; simpl; [done|].
  destruct (leb i j); [done|]. rewrite IH. apply Permutation_swap.
Qed.

Lemma insertion_order_perm leb n : insertion_order leb n ≡ₚ seq 0 n.
Proof.
  unfold insertion_order. induction (seq 0 n) as [|i s IH]; simpl; [done|].
  by rewrite insert_by_perm, IH.
Qed.

Section insertion_sorted.
Context {K : Type} (R : K → K → Prop) (key : nat → K) (leb : nat → nat → bool).
Hypothesis leb_sound : ∀ i j, leb i j = true → R (key i) (key j).
Hypothesis leb_total : ∀ i j, leb i j = false → R (key j) (key i).

Lemma insert_by_sorted i s :
  Sorted R (key <$> s) → Sorted R (key <$> insert_by leb i s).
Proof.
  induction s as [|j s IH]; simpl; intros Hs.
  - repeat constructor.
  - destruct (leb i j) eqn:Hij; simpl.
    + constructor; [done|]. constructor. by apply leb_sound.
    + apply Sorted_inv in Hs as [Hs Hhd]. constructor; [by apply IH|].
      destruct s as [|k s]; simpl.
      * constructor. by apply leb_total.
      * destruct (leb i k); simpl; constructor; [by apply leb_total|].
        by apply HdRel_inv in Hhd.
Qed.

Lemma insertion_order_sorted n : Sorted R (key <$> insertion_order leb n).
Proof.
  unfold insertion_order. induction (seq 0 n) as [|i s IH]; simpl.
  - constructor.
  - by apply insert_by_sorted.
Qed.
End insertion_sorted.

Lemma keys_leb_total k1 k2 : keys_leb k1 k2 = false → keys_leb k2 k1 = true.
Proof.
  revert k2. induction k1 as [|c1 k1 IH]; intros [|c2 k2]; simpl; try done.
  destruct (Qlt_bool (cell_num c1) (cell_num c2)) eqn:H12; [done|].
  destruct (Qlt_bool (cell_num c2) (cell_num c1)) eqn:H21; [done|]. apply IH.
Qed.

Lemma reference_externals_ok : ExternalsOk reference_externals.
Proof.
  split.
  - apply scan_query_nearest.
  - intros a. apply insertion_order_perm.
  - intros a. apply (insertion_order_sorted Z.le (key_at a)).
    + intros i j. by case_bool_decide.
    + intros i j. case_bool_decide; [done|]. lia.
  - intros keys. apply insertion_order_perm.
  - intros keys.
    apply (insertion_order_sorted (λ k1 k2, keys_leb k1 k2 = true) (keys_at keys)).
    + done.
    + intros i j. apply keys_leb_total.
Qed.

Section Invariant.
Context `{E : Externals}.

Lemma ids_in_mono c c' ids : c ≤ c' → ids_in c ids → ids_in c' ids.
Proof. intros Hc Hi. eapply Forall_impl; [exact Hi|]. intros i. simpl. lia. Qed.

Lemma shift_label_positive (ls : list Z) :
  Forall (λ o, ∀ l, o = Some l → 1 ≤ l) (shift_label <$> ls).
Proof.
  apply Forall_fmap, Forall_true. intros z l. unfold shift_label. simpl.
  case_bool_decide; intros [= <-]. lia.
Qed.

Lemma _dbscan_labels_positive eps m n : labels_positive (λ x, _dbscan x eps m n).
Proof.
  intros x ls. unfold _dbscan. destruct (negb _).
  - intros H. inv_bind H. inv_Ok H. apply shift_label_positive.
  - intros H. inv_Ok H. constructor.
Qed.

Lemma _hdbscan_labels_positive eps m ms meth n :
  labels_positive (λ x, _hdbscan x eps m ms meth n).
Proof.
  intros x ls. unfold _hdbscan. destruct (negb _).
  - intros H. inv_bind H. inv_Ok H. apply shift_label_positive.
  - intros H. inv_Ok H. constructor.
Qed.

Lemma _validate_input_Ok eps epsPrev minClSz minSamples cm pt nPrev nJobs u :
  _validate_input eps epsPrev minClSz minSamples cm pt nPrev nJobs = Ok u →
  isinstance eps [py_int; py_float; py_str] = true
  ∧ isinstance epsPrev [py_int; py_NoneType] = true
  ∧ isinstance cm [py_str] = true.
Proof.
  unfold _validate_input.
  destruct (isinstance eps _); [|done].
  destruct (isinstance epsPrev _); [|done]. simpl negb at 1 2.
  destruct (forallb _ _); [|done].
  destruct (isinstance cm _); done.
Qed.

Lemma Linker_init_inv eps epsPrev minClSz minSamples cm pt nPrev nJobs L :
  Linker_init eps epsPrev minClSz minSamples cm pt nPrev nJobs = Ok L →
  Linker_inv L.
Proof.
  unfold Linker_init. intros H.
  inv_bind H. apply _validate_input_Ok in Hr as (_ & _ & Hcm).
  do 5 inv_bind H. inv_bind H. inv_Ok H.
  split; simpl; [|lia|constructor|done|done|done].
  destruct cm; try done. simpl in Hr5.
  case_bool_decide.
  - inv_Ok Hr5. apply _dbscan_labels_positive.
  - case_bool_decide; [|done]. inv_Ok Hr5. apply _hdbscan_labels_positive.
Qed.

Lemma _clustering_labels L x cl co nan :
  labels_positive (clustering_function L) →
  _clustering L x = Ok (cl, co, nan) → Forall (λ l, 1 ≤ l) cl.
Proof.
  intros Hpos. unfold _clustering. intros H. case_bool_decide.
  - inv_Ok H. constructor.
  - do 3 inv_bind H. inv_Ok H.
    apply Hpos in Hr. apply Forall_forall. intros l Hl.
    apply list_elem_of_omap in Hl as (o & Ho & Hol). simpl in Hol. subst o.
    unfold np_mask in Hr0. case_decide; [|done]. inv_Ok Hr0.
    apply mask_select_elem_of in Ho.
    by eapply (proj1 (Forall_forall _ _) Hr).
Qed.

Lemma brute_force_linking_ids cl cc mem_ids tree thr eps c nj ids c' :
  brute_force_linking cl cc mem_ids tree thr eps c nj = Ok (ids, c') →
  ids_in c mem_ids → 0 ≤ c → c ≤ c' ∧ ids_in c' ids.
Proof.
  unfold brute_force_linking. intros H Hmem Hc.
  inv_bind H as nn Hnn. inv_bind H as prev Hprev. inv_bind H as within Hwithin.
  assert (ids_in (c + 1) (replicate (length cl) (c + 1))) as Hrep.
  { apply Forall_replicate. lia. }
  case_bool_decide; [inv_Ok H; split; [lia|done]|].
  case_bool_decide; inv_Ok H; [split; [lia|done]|]. split; [lia|].
  apply Forall_forall. intros i Hi.
  eapply np_take_elem_of in Hi; [|done].
  by eapply (proj1 (Forall_forall _ _) Hmem).
Qed.

Lemma with_counter_id L : with_counter L (max_prev_cluster_id (_memory L)) = L.
Proof. by destruct L as [[] ? ? ? ? ? ? ?]. Qed.

Lemma with_counter_twice L c c' : with_counter (with_counter L c) c' = with_counter L c'.
Proof. done. Qed.

Lemma _link_next_cluster_Ok L cl cc ids L' :
  _link_next_cluster L cl cc = Ok (ids, L') →
  ∃ mem_ids tree c',
    all_cluster_ids (_memory L) = Ok mem_ids ∧ _nn_tree L = Some tree
    ∧ brute_force_linking cl cc mem_ids tree (propagation_threshold L) (epsPrev L)
        (max_prev_cluster_id (_memory L)) (n_jobs L) = Ok (ids, c')
    ∧ L' = with_counter L c'.
Proof.
  unfold _link_next_cluster. intros H.
  inv_bind H as mem_ids Hmem. inv_bind H as tree' Htree'.
  destruct (_nn_tree L) as [tree|] eqn:Htree; [|done]. simpl in Htree'. inv_Ok Htree'.
  inv_bind H as [ids' c'] Hbf. inv_Ok H.
  eexists _, _, _. repeat split; eauto.
Qed.

Lemma link_clusters_ids L groups res L' :
  link_clusters L groups = Ok (res, L') →
  Forall (ids_in (max_prev_cluster_id (_memory L))) (prev_cluster_ids (_memory L)) →
  0 ≤ max_prev_cluster_id (_memory L) →
  ∃ c', L' = with_counter L c' ∧ max_prev_cluster_id (_memory L) ≤ c'
        ∧ Forall (ids_in c') res.
Proof.
  revert L res L'. induction groups as [|[cl cc] groups IH]; simpl; intros L res L' H Hmem Hc.
  - inv_Ok H. exists (max_prev_cluster_id (_memory L')).
    by rewrite with_counter_id.
  - inv_bind H. destruct r as [ids L1]. inv_bind H. destruct r as [rest L2]. inv_Ok H.
    apply _link_next_cluster_Ok in Hr as (mem_ids & tree & c1 & Hids & _ & Hbf & ->).
    apply concat_or_first_Ok in Hids as [-> _].
    apply brute_force_linking_ids in Hbf as [Hc1 Hids1]; [|by apply Forall_concat|done].
    apply IH in Hr0 as (c' & -> & Hc' & Hrest); simpl in *.
    + exists c'. split; [done|]. split; [lia|].
      constructor; [|done]. by eapply ids_in_mono.
    + eapply Forall_impl; [exact Hmem|]. intros ?. by apply ids_in_mono.
    + lia.
Qed.

Lemma _update_id_ids L cl co ids L' :
  _update_id L cl co = Ok (ids, L') →
  Forall (ids_in (max_prev_cluster_id (_memory L))) (prev_cluster_ids (_memory L)) →
  0 ≤ max_prev_cluster_id (_memory L) →
  ∃ c', L' = with_counter (_update_tree L (concat (coordinates (_memory L)))) c'
        ∧ max_prev_cluster_id (_memory L) ≤ c' ∧ ids_in c' ids.
Proof.
  unfold _update_id. intros H Hmem Hc. inv_bind H.
  apply all_coordinates_Ok in Hr as [-> _].
  inv_bind H. destruct r as [[key gcl] gco]. inv_bind H. destruct r as [linked L1].
  inv_bind H. inv_Ok H.
  apply link_clusters_ids in Hr0 as (c' & -> & Hc' & Hres); [|done..].
  exists c'. split; [done|]. split; [done|].
  apply Forall_forall. intros i Hi. eapply np_take_elem_of in Hi; [|done].
  apply Forall_concat in Hres. by eapply (proj1 (Forall_forall _ _) Hres).
Qed.

Lemma _update_id_empty_ids L cl :
  Forall (λ l, 1 ≤ l) cl → 0 ≤ max_prev_cluster_id (_memory L) →
  ∃ c', (_update_id_empty L cl).2 = with_counter L c'
        ∧ max_prev_cluster_id (_memory L) ≤ c'
        ∧ ids_in c' (_update_id_empty L cl).1.
Proof.
  intros Hcl Hc. unfold _update_id_empty.
  set (c := max_prev_cluster_id (_memory L)) in *.
  destruct (np_nanmax _) as [m|e] eqn:Hmax; simpl.
  - apply np_nanmax_Ok in Hmax as [Hin Hle]. exists m. split; [done|].
    apply list_elem_of_fmap in Hin as (l & -> & Hl).
    apply (proj1 (Forall_forall _ _) Hcl) in Hl. split; [lia|].
    apply Forall_forall. intros i Hi.
    pose proof (proj1 (Forall_forall _ _) Hle i Hi).
    apply list_elem_of_fmap in Hi as (l' & -> & Hl').
    apply (proj1 (Forall_forall _ _) Hcl) in Hl'. lia.
  - exists c. split; [by rewrite with_counter_id|]. split; [lia|].
    destruct cl; [constructor|done].
Qed.

Lemma memory_update_Ok m co ids m' :
  memory_update m co ids = Ok m' →
  ∃ cs ps,
    m' = {| n_timepoints := n_timepoints m; coordinates := cs ++ [co];
            prev_cluster_ids := ps ++ [ids];
            max_prev_cluster_id := max_prev_cluster_id m |}
    ∧ (Z.of_nat (length (coordinates m)) = n_timepoints m
       ∧ (∃ c0, coordinates m = c0 :: cs) ∧ (∃ p0, prev_cluster_ids m = p0 :: ps)
       ∨ Z.of_nat (length (coordinates m)) ≠ n_timepoints m
         ∧ cs = coordinates m ∧ ps = prev_cluster_ids m).
Proof.
  unfold memory_update. intros H. inv_bind H as [cs ps] Hpop. inv_Ok H.
  exists cs, ps. split; [done|]. case_bool_decide.
  - left. inv_bind Hpop as cs' Hcs. inv_bind Hpop as ps' Hps. inv_Ok Hpop.
    destruct (coordinates m); [done|]. destruct (prev_cluster_ids m); [done|].
    simpl in *. inv_Ok Hcs. inv_Ok Hps. eauto.
  - right. by inv_Ok Hpop.
Qed.

Lemma memory_update_ids m co ids m' c :
  memory_update m co ids = Ok m' →
  Forall (ids_in c) (prev_cluster_ids m) → ids_in c ids →
  Forall (ids_in c) (prev_cluster_ids m')
  ∧ max_prev_cluster_id m' = max_prev_cluster_id m
  ∧ n_timepoints m' = n_timepoints m.
Proof.
  intros (cs & ps & -> & Hcase)%memory_update_Ok Hm Hids.
  simpl. split; [|done]. apply Forall_app. split; [|by repeat constructor].
  destruct Hcase as [(_ & _ & [p0 Hp])|(_ & _ & ->)]; [|done].
  rewrite Hp in Hm. by inversion Hm.
Qed.

Lemma memory_update_frames m co ids m' :
  memory_update m co ids = Ok m' →
  length (coordinates m) = length (prev_cluster_ids m) →
  (0 ≤ n_timepoints m → Z.of_nat (length (coordinates m)) ≤ n_timepoints m) →
  length (coordinates m') = length (prev_cluster_ids m')
  ∧ (0 ≤ n_timepoints m' → Z.of_nat (length (coordinates m')) ≤ n_timepoints m').
Proof.
  intros (cs & ps & -> & Hcase)%memory_update_Ok Hlen Hbound. simpl.
  rewrite !length_app. simpl.
  destruct Hcase as [(Hn & [c0 Hc] & [p0 Hp])|(Hn & -> & ->)].
  - rewrite Hc, Hp in *. simpl in *. lia.
  - lia.
Qed.

(** One [link] call keeps the invariant, never lowers the counter, and
    emits only ids that are [-1] or lie between 1 and the new counter. *)
Lemma link_step L x L' :
  Linker_inv L → link L x = Ok L' →
  Linker_inv L'
  ∧ max_prev_cluster_id (_memory L) ≤ max_prev_cluster_id (_memory L')
  ∧ Forall (λ i, i = -1 ∨ 1 ≤ i ≤ max_prev_cluster_id (_memory L')) (event_ids L')
  ∧ clustering_function L' = clustering_function L
  ∧ propagation_threshold L' = propagation_threshold L
  ∧ epsPrev L' = epsPrev L
  ∧ n_timepoints (_memory L') = n_timepoints (_memory L).
Proof.
  intros [Hlab Hc Hmem Hpub Hfr Hbd]. unfold link. intros H.
  inv_bind H. destruct r as [[cl co] nan].
  pose proof (_clustering_labels _ _ _ _ _ Hlab Hr) as Hcl.
  inv_bind H. destruct r as [linked L1].
  assert (∃ c' L0, L1 = with_counter L0 c'
            ∧ clustering_function L0 = clustering_function L
            ∧ max_prev_event_id L0 = max_prev_event_id L
            ∧ propagation_threshold L0 = propagation_threshold L
            ∧ epsPrev L0 = epsPrev L
            ∧ _memory L0 = _memory L
            ∧ max_prev_cluster_id (_memory L) ≤ c' ∧ ids_in c' linked)
    as (c' & L0 & -> & Hcf & Hpe & Hpt & Hep & Hm0 & Hcc' & Hlinked).
  { destruct (_update_id_empty_ids L cl Hcl Hc) as (c' & HL & Hc' & Hids).
    case_bool_decide.
    { inv_Ok Hr0. rewrite Hr0 in HL, Hids. simpl in HL, Hids. by exists c', L. }
    case_bool_decide.
    { inv_Ok Hr0. rewrite Hr0 in HL, Hids. simpl in HL, Hids. by exists c', L. }
    inv_bind Hr0. case_bool_decide.
    { inv_Ok Hr0. rewrite Hr0 in HL, Hids. simpl in HL, Hids. by exists c', L. }
    apply _update_id_ids in Hr0 as (c'' & -> & Hc'' & Hids''); [|done..].
    by exists c'', (_update_tree L (concat (coordinates (_memory L)))). }
  inv_bind H. inv_bind H. inv_Ok H. simpl in *.
  pose proof Hr1 as Hfr'. apply memory_update_frames in Hfr' as [Hfr' Hbd'];
    [|simpl; by rewrite Hm0..].
  eapply memory_update_ids in Hr1 as (Hmem' & Hmax' & Hnt'); [| |exact Hlinked].
  2:{ simpl. rewrite Hm0. eapply Forall_impl; [exact Hmem|].
      intros ?. by apply ids_in_mono. }
  simpl in *. rewrite Hmax', Hnt', Hm0.
  split; [split; simpl; try done; [by rewrite Hcf|lia|by rewrite Hmax'|congruence]|].
  split; [done|]. split; [|done].
  eapply np_put_mask_Forall; [done| |].
  - apply Forall_replicate. by left.
  - eapply Forall_impl; [exact Hlinked|]. simpl. intros. by right.
Qed.

End Invariant.

(** ** Grouping a sorted label vector *)

Lemma rle_nil_iff l : rle l = [] ↔ l = [].
Proof.
  split; [|by intros ->]. destruct l as [|v l]; [done|]. simpl.
  destruct (rle l) as [|[w n] r]; [done|]. by case_decide.
Qed.

Lemma rle_head l : head (rle l).*1 = head l.
Proof.
  destruct l as [|v l]; [done|]. simpl.
  destruct (rle l) as [|[w n] r]; [done|]. by case_decide.
Qed.

Lemma rle_cons v l :
  rle (v :: l) =
    match rle l with
    | (w, n) :: r => if decide (v = w) then (v, S n) :: r else (v, 1%nat) :: (w, n) :: r
    | [] => [(v, 1%nat)]
    end.
Proof. done. Qed.

Lemma dedup_adjacent_cons v w l :
  dedup_adjacent (v :: w :: l) =
    if decide (v = w) then dedup_adjacent (w :: l) else v :: dedup_adjacent (w :: l).
Proof. done. Qed.

Lemma dedup_adjacent_rle l : dedup_adjacent l = (rle l).*1.
Proof.
  induction l as [|v l IH]; [done|].
  destruct l as [|w l']; [done|].
  rewrite dedup_adjacent_cons, rle_cons, IH.
  pose proof (rle_head (w :: l')) as Hhd.
  destruct (rle (w :: l')) as [|[w' n] r]; [done|].
  simpl in Hhd. injection Hhd as ->.
  repeat case_decide; by simplify_eq/=.
Qed.

Lemma rle_concat l : concat ((λ vn, replicate vn.2 vn.1) <$> rle l) = l.
Proof.
  induction l as [|v l IH]; [done|]. simpl.
  destruct (rle l) as [|[w n] r]; simpl in *.
  - by rewrite <- IH.
  - case_decide as Hvw; [rewrite <- Hvw in IH|]; simpl; by rewrite <- IH.
Qed.

Lemma rle_positive l : Forall (λ vn, (0 < vn.2)%nat) (rle l).
Proof.
  induction l as [|v l IH]; [constructor|]. simpl.
  destruct (rle l) as [|[w n] r].
  - repeat constructor.
  - case_decide.
    + inversion IH; subst. constructor; [simpl; lia|done].
    + constructor; [simpl; lia|done].
Qed.

Lemma rle_sum l : sum_list (rle l).*2 = length l.
Proof.
  induction l as [|v l IH]; [done|]. simpl.
  destruct (rle l) as [|[w n] r]; simpl in *; [lia|].
  case_decide; simpl; lia.
Qed.

Lemma rle_increasing l : Sorted Z.le l → Sorted Z.lt (rle l).*1.
Proof.
  induction l as [|v l IH]; intros Hs; [constructor|].
  apply Sorted_inv in Hs as [Hs Hhd]. specialize (IH Hs).
  pose proof (rle_head l) as Hh. simpl.
  destruct (rle l) as [|[w n] r]; simpl in *.
  - repeat constructor.
  - destruct l as [|w' l']; [done|]. simpl in Hh. injection Hh as ->.
    apply HdRel_inv in Hhd.
    case_decide; subst; simpl.
    + done.
    + constructor; [done|]. constructor. lia.
Qed.

Lemma first_index_cons u v l :
  first_index u (v :: l) = if decide (v = u) then 0%nat else S (first_index u l).
Proof.
  unfold first_index. simpl. case_decide; [done|].
  destruct (list_find _ l) as [[i w]|]; simpl; done.
Qed.

Lemma offsets_from_S s ns : S <$> offsets_from s ns = offsets_from (S s) ns.
Proof.
  revert s. induction ns as [|n ns IH]; intros s; simpl; [done|].
  by rewrite IH.
Qed.

Lemma rle_first_index l :
  Sorted Z.le l →
  (λ v, first_index v l) <$> (rle l).*1 = offsets_from 0 (rle l).*2.
Proof.
  induction l as [|v l IH]; intros Hs; [done|].
  pose proof (rle_increasing _ Hs) as Hinc.
  apply (Sorted_StronglySorted Z.lt) in Hinc.
  apply Sorted_inv in Hs as [Hs Hhd]. specialize (IH Hs).
  assert (∀ us : list Z, Forall (λ u, v < u) us →
      (λ u, first_index u (v :: l)) <$> us = S <$> ((λ u, first_index u l) <$> us))
    as Hshift.
  { intros us Hus. rewrite <- list_fmap_compose. apply Forall_fmap_ext_1.
    eapply Forall_impl; [exact Hus|]. intros u Hu. simpl in *.
    rewrite first_index_cons. by rewrite decide_False by lia. }
  rewrite rle_cons in *.
  destruct (rle l) as [|[w n] r].
  - rewrite !fmap_cons. cbn [fst snd offsets_from fmap list_fmap].
    by rewrite first_index_cons, decide_True.
  - rewrite !fmap_cons in IH. cbn [fst snd offsets_from] in IH.
    injection IH as Hw Hr.
    case_decide as Hvw.
    + subst w. rewrite !fmap_cons in *. cbn [fst snd offsets_from] in *.
      rewrite first_index_cons, decide_True by done. f_equal.
      apply StronglySorted_inv in Hinc as [_ Hinc].
      rewrite Hshift by done. rewrite Hr. by rewrite offsets_from_S.
    + rewrite !fmap_cons in *. cbn [fst snd offsets_from] in *.
      rewrite first_index_cons, decide_True by done. f_equal.
      apply StronglySorted_inv in Hinc as [_ Hinc].
      pose proof (Hshift _ Hinc) as Hsh. rewrite !fmap_cons in Hsh.
      injection Hsh as -> ->. by rewrite Hw, Hr, offsets_from_S.
Qed.

Lemma np_split_from_chunks {A} ns s (a : list A) :
  ns ≠ [] → np_split_from s (tail (offsets_from s ns)) a = chunks ns (drop s a).
Proof.
  revert s. induction ns as [|n ns IH]; intros s Hne; [done|].
  destruct ns as [|n' ns]; [done|].
  change (tail (offsets_from s (n :: n' :: ns))) with (offsets_from (s + n) (n' :: ns)).
  change (offsets_from (s + n) (n' :: ns))
    with ((s + n)%nat :: tail (offsets_from (s + n) (n' :: ns))) at 1.
  cbn [np_split_from chunks]. rewrite IH by done.
  rewrite drop_drop. by replace (s + n - s)%nat with n by lia.
Qed.

Lemma np_unique_sorted l : Sorted Z.le l → np_unique l = (rle l).*1.
Proof.
  intros Hs. unfold np_unique. rewrite <- dedup_adjacent_rle. f_equal.
  apply (Sorted_unique Z.le); [apply (Sorted_merge_sort Z.le)|done|].
  apply merge_sort_Permutation.
Qed.

Lemma np_unique_nil_iff l : np_unique l = [] ↔ l = [].
Proof.
  unfold np_unique. rewrite dedup_adjacent_rle. split.
  - intros H. apply fmap_nil_inv, rle_nil_iff in H.
    apply Permutation_nil_r. by rewrite <- H, merge_sort_Permutation.
  - by intros ->.
Qed.

Lemma chunks_cons {A} n n' ns (a : list A) :
  chunks (n :: n' :: ns) a = take n a :: chunks (n' :: ns) (drop n a).
Proof. done. Qed.

Lemma chunks_length {A} ns (a : list A) : length (chunks ns a) = length ns.
Proof.
  revert a. induction ns as [|n ns IH]; intros a; [done|].
  destruct ns as [|n' ns]; [done|]. rewrite chunks_cons. cbn [length]. by rewrite IH.
Qed.

Lemma chunks_concat {A} ns (a : list A) : ns ≠ [] → concat (chunks ns a) = a.
Proof.
  revert a. induction ns as [|n ns IH]; intros a Hne; [done|].
  destruct ns as [|n' ns]; [simpl; by rewrite app_nil_r|].
  rewrite chunks_cons. cbn [concat]. rewrite IH by done. apply take_drop.
Qed.

Lemma chunks_lengths {A} ns (a : list A) :
  sum_list ns = length a → Forall2 (λ n ch, length ch = n) ns (chunks ns a).
Proof.
  revert a. induction ns as [|n ns IH]; intros a Hsum; [constructor|].
  destruct ns as [|n' ns].
  - simpl in *. repeat constructor. lia.
  - rewrite chunks_cons. change (sum_list (n :: n' :: ns)) with (n + sum_list (n' :: ns))%nat in Hsum.
    constructor.
    + rewrite length_take. lia.
    + apply IH. rewrite length_drop. lia.
Qed.

Lemma chunks_rle l : chunks (rle l).*2 l = (λ vn, replicate vn.2 vn.1) <$> rle l.
Proof.
  pose proof (rle_concat l) as Hc. revert Hc.
  generalize (rle l) as r. intros r. revert l.
  induction r as [|[v n] r IH]; intros l Hc; [done|].
  destruct r as [|[v' n'] r].
  - simpl in *. rewrite app_nil_r in Hc. by rewrite Hc.
  - rewrite !fmap_cons in *. cbn [fst snd] in *. rewrite chunks_cons.
    cbn [concat] in Hc. rewrite <- Hc at 1 2.
    rewrite take_app_length' by (by rewrite length_replicate).
    rewrite drop_app_length' by (by rewrite length_replicate).
    f_equal. by apply IH.
Qed.

(** ** The linking of one frame, cluster by cluster *)

Section LinkProofs.
Context `{E : Externals} `{!ExternalsOk E}.

Lemma mask_select_fmap {A B} (f : A → B) (g : A → bool) (l : list A) :
  mask_select (f <$> l) (g <$> l) = f <$> filter (λ x, g x = true) l.
Proof.
  induction l as [|x l IH]; [done|]. rewrite !fmap_cons. simpl.
  destruct (g x) eqn:Hg.
  - rewrite filter_cons_True by done. by rewrite fmap_cons, IH.
  - rewrite filter_cons_False by (by rewrite Hg). done.
Qed.

Lemma brute_force_linking_spec cl cc mem_ids tree thr epsv e c nj ids c' :
  brute_force_linking cl cc mem_ids tree thr epsv c nj = Ok (ids, c') →
  as_number epsv = Some e →
  length cl = length cc →
  assign_clusters mem_ids tree thr e c [cc] = ([ids], c').
Proof.
  unfold brute_force_linking. intros H He Hlen.
  inv_bind H as nn Hnn. apply kdtree_query_Ok in Hnn as [-> _].
  inv_bind H as prev Hprev. inv_bind H as within Hwithin.
  apply (np_take_fmap _ _ _ 0) in Hprev.
  rewrite <- !list_fmap_compose in Hprev.
  unfold np_dist_le in Hwithin. rewrite He in Hwithin. injection Hwithin as <-.
  rewrite <- !list_fmap_compose in H.
  change (prev = neighbor_id mem_ids tree <$> cc) in Hprev. subst prev.
  change ((λ d2, dist_le d2 e) ∘ fst ∘ KDTree_query tree) with (within_eps tree e) in H.
  rewrite mask_select_fmap in H.
  change (neighbor_id mem_ids tree <$> filter (λ p, within_eps tree e p = true) cc)
    with (eligible mem_ids tree e cc) in H.
  cbn [assign_clusters]. unfold mints.
  case_bool_decide as Hthr; simpl.
  { inv_Ok H. by rewrite Hlen. }
  case_bool_decide as Huniq.
  - inv_Ok H. apply length_zero_iff_nil in Huniq. apply (proj1 (np_unique_nil_iff _)) in Huniq.
    rewrite bool_decide_eq_true_2 by done. by rewrite Hlen.
  - inv_Ok H. rewrite bool_decide_eq_false_2; [done|].
    intros Hnil. apply Huniq. by rewrite Hnil.
Qed.

Lemma assign_clusters_cons mem_ids tree thr e c pts rest :
  assign_clusters mem_ids tree thr e c (pts :: rest) =
    let '(r1, c1) := assign_clusters mem_ids tree thr e c [pts] in
    let '(r2, c2) := assign_clusters mem_ids tree thr e c1 rest in
    (r1 ++ r2, c2).
Proof.
  cbn [assign_clusters]. destruct (mints _ _ _ _ pts).
  - by destruct (assign_clusters _ _ _ _ (c + 1) rest).
  - by destruct (assign_clusters _ _ _ _ c rest).
Qed.

Lemma link_clusters_spec L groups res L' mem_ids tree e :
  link_clusters L groups = Ok (res, L') →
  all_cluster_ids (_memory L) = Ok mem_ids →
  _nn_tree L = Some tree →
  as_number (epsPrev L) = Some e →
  Forall (λ g, length g.1 = length g.2) groups →
  assign_clusters mem_ids tree (propagation_threshold L) e
    (max_prev_cluster_id (_memory L)) groups.*2
  = (res, max_prev_cluster_id (_memory L')).
Proof.
  revert L res L'. induction groups as [|[cl cc] groups IH];
    intros L res L' H Hmem Htree He Hlen.
  - simpl in H. by inv_Ok H.
  - cbn [link_clusters] in H.
    inv_bind H as [ids L1] H1. inv_bind H as [rest L2] H2. inv_Ok H.
    apply Forall_cons in Hlen as [Hlen1 Hlen].
    apply _link_next_cluster_Ok in H1 as (mem_ids' & tree' & c1 & Hmem' & Htree' & Hbf & ->).
    rewrite Hmem in Hmem'. inv_Ok Hmem'. rewrite Htree in Htree'. inv_Ok Htree'.
    eapply brute_force_linking_spec in Hbf; [|done..].
    apply (IH _ _ _ H2) in Hlen; [|done..]. simpl in Hlen.
    rewrite fmap_cons, assign_clusters_cons. cbn [snd]. rewrite Hbf, Hlen. done.
Qed.

Lemma chunks_cons_sum {A} n ns (a : list A) :
  sum_list (n :: ns) = length a →
  chunks (n :: ns) a = take n a :: chunks ns (drop n a).
Proof.
  destruct ns as [|n' ns]; [|done]. simpl. intros Hn.
  by rewrite take_ge by lia.
Qed.

Lemma zip_with_ext_elem {A B C} (f g : A → B → C) (l : list A) (k : list B) :
  (∀ x y, x ∈ l → f x y = g x y) → zip_with f l k = zip_with g l k.
Proof.
  revert k. induction l as [|x l IH]; intros k Hfg; [done|].
  destruct k as [|y k]; [done|]. simpl. f_equal.
  - apply Hfg. left.
  - apply IH. intros ???. apply Hfg. by right.
Qed.

Lemma zip_with_replicate_l {A B C} (f : A → B → C) n x (k : list B) :
  length k = n → zip_with f (replicate n x) k = f x <$> k.
Proof.
  revert n. induction k as [|y k IH]; intros n <-; [done|].
  simpl. f_equal. by apply IH.
Qed.

Lemma elem_of_runs (R : list (Z * nat)) l :
  l ∈ concat ((λ vn, replicate vn.2 vn.1) <$> R) → l ∈ R.*1.
Proof.
  induction R as [|[v n] R IH]; simpl; [done|].
  intros [Hl|Hl]%elem_of_app.
  - apply elem_of_replicate_inv in Hl as ->. left.
  - right. by apply IH.
Qed.

Lemma filter_none {A} (P : A → Prop) `{∀ x, Decision (P x)} (l : list A) :
  Forall (λ x, ¬ P x) l → filter P l = [].
Proof.
  induction 1 as [|x l Hx _ IH]; [done|]. by rewrite filter_cons_False.
Qed.

Section runs.
Context (mem_ids : list Z) (tree : list coord) (thr : Z) (e : Q) (M : Z → bool).

Lemma assign_clusters_runs R : ∀ sc c,
  StronglySorted Z.lt R.*1 →
  sum_list R.*2 = length sc →
  Forall2 (λ vn pts, mints mem_ids tree thr e pts = M vn.1) R (chunks R.*2 sc) →
  (assign_clusters mem_ids tree thr e c (chunks R.*2 sc)).2
    = c + Z.of_nat (length (filter (λ v, M v = true) R.*1))
  ∧ concat (assign_clusters mem_ids tree thr e c (chunks R.*2 sc)).1
    = zip_with (run_id mem_ids tree M c R.*1) (concat ((λ vn, replicate vn.2 vn.1) <$> R)) sc.
Proof.
  induction R as [|[v n] R IH]; intros sc c Hinc Hsum Hm.
  { simpl. split; [lia|done]. }
  rewrite !fmap_cons in *. cbn [fst snd] in *.
  rewrite chunks_cons_sum in * by done.
  apply Forall2_cons in Hm as [Hmv Hm]. cbn [fst] in Hmv.
  apply StronglySorted_inv in Hinc as [Hinc Hv].
  change (sum_list (n :: R.*2)) with (n + sum_list R.*2)%nat in Hsum.
  assert (length (take n sc) = n) as Htake by (rewrite length_take; lia).
  assert (sum_list R.*2 = length (drop n sc)) as Hsum' by (rewrite length_drop; lia).
  cbn [assign_clusters concat]. rewrite Hmv.
  assert (∀ (f : Z → coord → Z) X,
      zip_with f (replicate n v ++ X) sc = (f v <$> take n sc) ++ zip_with f X (drop n sc))
    as ->.
  { intros f X. rewrite <- (take_drop n sc) at 1.
    rewrite zip_with_app by (by rewrite length_replicate).
    by rewrite zip_with_replicate_l. }
  assert (∀ l, l ∈ concat ((λ vn, replicate vn.2 vn.1) <$> R) → v < l) as Hlt.
  { intros l Hl%elem_of_runs. by eapply (proj1 (Forall_forall _ _) Hv). }
  assert (filter (λ v', v' ≤ v ∧ M v' = true) R.*1 = []) as Hnone.
  { apply filter_none, Forall_forall. intros l Hl [Hle _].
    apply (proj1 (Forall_forall _ _) Hv) in Hl. lia. }
  destruct (M v) eqn:HMv.
  - destruct (IH (drop n sc) (c + 1) Hinc Hsum' Hm) as [IH2 IH1].
    destruct (assign_clusters _ _ _ _ (c + 1) _) as [rest c2]. cbn [fst snd concat] in *.
    rewrite filter_cons_True by done. split; [simpl; lia|].
    rewrite IH1. f_equal.
    + unfold run_id. rewrite HMv.
      rewrite filter_cons_True by (split; [lia|done]). rewrite Hnone. simpl.
      generalize (take n sc). intros ps. induction ps as [|p ps IHps]; simpl; [done|].
      f_equal; lia || done.
    + apply zip_with_ext_elem. intros l p Hl. unfold run_id.
      destruct (M l); [|done].
      rewrite (filter_cons_True _ v) by (split; [apply Hlt in Hl; lia|done]).
      simpl. lia.
  - destruct (IH (drop n sc) c Hinc Hsum' Hm) as [IH2 IH1].
    destruct (assign_clusters _ _ _ _ c _) as [rest c2]. cbn [fst snd concat] in *.
    rewrite filter_cons_False by (by rewrite HMv). split; [done|].
    rewrite IH1. f_equal.
    + unfold run_id. by rewrite HMv.
    + apply zip_with_ext_elem. intros l p Hl. unfold run_id.
      destruct (M l); [|done].
      by rewrite (filter_cons_False _ v) by (rewrite HMv; intros [_ ?]; done).
Qed.

End runs.

Section clusters.
Context (mem_ids : list Z) (tree : list coord) (thr : Z) (e : Q).

Lemma mints_perm pts pts' :
  pts ≡ₚ pts' → mints mem_ids tree thr e pts = mints mem_ids tree thr e pts'.
Proof.
  intros Hp. unfold mints.
  assert (eligible mem_ids tree e pts ≡ₚ eligible mem_ids tree e pts') as He.
  { unfold eligible. by rewrite Hp. }
  rewrite (Permutation_length He). f_equal.
  apply bool_decide_ext. split; intros Hnil; rewrite Hnil in He.
  - by apply Permutation_nil_l in He.
  - by apply Permutation_nil_r in He.
Qed.

Lemma cluster_points_perm sl sc cl co v :
  zip sl sc ≡ₚ zip cl co → cluster_points sl sc v ≡ₚ cluster_points cl co v.
Proof. intros Hp. unfold cluster_points. by rewrite Hp. Qed.

Lemma cluster_points_app l1 l2 c1 c2 v :
  length l1 = length c1 →
  cluster_points (l1 ++ l2) (c1 ++ c2) v = cluster_points l1 c1 v ++ cluster_points l2 c2 v.
Proof.
  intros Hlen. unfold cluster_points.
  by rewrite zip_with_app, filter_app, fmap_app.
Qed.

Lemma cluster_points_other l c v :
  v ∉ l → cluster_points l c v = [].
Proof.
  intros Hv. unfold cluster_points. rewrite filter_none; [done|].
  apply Forall_forall. intros [w p] Hwp ?. simpl in *. subst w.
  apply Hv. apply elem_of_zip_l in Hwp. done.
Qed.

Lemma cluster_points_replicate n v c :
  length c = n → cluster_points (replicate n v) c v = c.
Proof.
  revert n. induction c as [|p c IH]; intros n <-; [done|].
  unfold cluster_points in *. simpl. rewrite filter_cons_True by done.
  rewrite fmap_cons. simpl. f_equal. by apply IH.
Qed.

Lemma chunks_cluster_points R : ∀ sc pre_l pre_c,
  StronglySorted Z.lt R.*1 →
  sum_list R.*2 = length sc →
  length pre_l = length pre_c →
  Forall (λ l, Forall (Z.lt l) R.*1) pre_l →
  Forall2 (λ vn pts,
      pts = cluster_points (pre_l ++ concat ((λ vn, replicate vn.2 vn.1) <$> R))
              (pre_c ++ sc) vn.1)
    R (chunks R.*2 sc).
Proof.
  induction R as [|[v n] R IH]; intros sc pre_l pre_c Hinc Hsum Hpre Hlt; [constructor|].
  rewrite !fmap_cons in *. cbn [fst snd concat] in *.
  rewrite chunks_cons_sum by done.
  apply StronglySorted_inv in Hinc as [Hinc Hv].
  change (sum_list (n :: R.*2)) with (n + sum_list R.*2)%nat in Hsum.
  assert (length (take n sc) = n) as Htake by (rewrite length_take; lia).
  constructor.
  - cbn [fst]. replace (pre_c ++ sc) with (pre_c ++ take n sc ++ drop n sc)
      by (by rewrite take_drop).
    rewrite !cluster_points_app by (by rewrite ?length_replicate).
    rewrite cluster_points_replicate by done.
    rewrite !cluster_points_other, app_nil_r; [done| |].
    + intros Hin%elem_of_runs. apply (proj1 (Forall_forall _ _) Hv) in Hin. lia.
    + intros Hin. apply (proj1 (Forall_forall _ _) Hlt) in Hin.
      apply Forall_cons in Hin as [? _]. lia.
  - eapply Forall2_impl;
      [apply (IH (drop n sc) (pre_l ++ replicate n v) (pre_c ++ take n sc))|].
    5:{ intros vn pts ->. simpl. by rewrite <- !(assoc (++)), take_drop. }
    1,2: done || (rewrite length_drop; lia).
    + rewrite !length_app, length_replicate. lia.
    + apply Forall_app. split.
      * eapply Forall_impl; [exact Hlt|]. intros l Hl. simpl in Hl.
        by apply Forall_cons in Hl as [_ ?].
      * apply Forall_replicate. done.
Qed.

End clusters.

Lemma fmap_lookup_seq {A} (d : A) (l : list A) :
  (λ j, default d (l !! j)) <$> seq 0 (length l) = l.
Proof.
  apply list_eq. intros i. rewrite list_lookup_fmap.
  destruct (decide (i < length l)%nat) as [Hi|Hi].
  - rewrite lookup_seq_lt by done. simpl.
    apply lookup_lt_is_Some_2 in Hi as [x Hx]. by rewrite Hx.
  - rewrite lookup_seq_ge by lia. simpl. symmetry. apply lookup_ge_None. lia.
Qed.

Lemma zip_with_diag {A B C D} (f : B → C → D) (g1 : A → B) (g2 : A → C) (l : list A) :
  zip_with f (g1 <$> l) (g2 <$> l) = (λ x, f (g1 x) (g2 x)) <$> l.
Proof.
  induction l as [|x l IH]; [done|]. rewrite !fmap_cons. cbn [zip_with].
  by rewrite IH.
Qed.

Lemma Sorted_of_nat_seq s n : Sorted Z.le (Z.of_nat <$> seq s n).
Proof.
  revert s. induction n as [|n IH]; intros s; simpl; [constructor|].
  constructor; [apply IH|]. destruct n; simpl; constructor. lia.
Qed.

Lemma np_argsort_inverse (key : list nat) n :
  key ≡ₚ seq 0 n →
  (λ j, default 0%nat (key !! j)) <$> np_argsort (Z.of_nat <$> key) = seq 0 n.
Proof.
  intros Hkey. set (K := Z.of_nat <$> key).
  assert (length K = n) as HlenK.
  { unfold K. by rewrite length_fmap, Hkey, length_seq. }
  apply (inj (fmap Z.of_nat)). rewrite <- list_fmap_compose.
  transitivity ((λ j, default 0 (K !! j)) <$> np_argsort K).
  { apply list_fmap_ext. intros _ j _. simpl. unfold K.
    rewrite list_lookup_fmap. by destruct (key !! j). }
  apply (Sorted_unique Z.le).
  - apply np_argsort_sorted.
  - apply Sorted_of_nat_seq.
  - rewrite (np_argsort_perm K), fmap_lookup_seq. unfold K. by rewrite Hkey.
Qed.

Lemma _group_by_clusterid_spec cl co key gcl gco :
  _group_by_clusterid cl co = Ok (key, gcl, gco) →
  cl ≠ [] →
  let sl := (λ i, default 0 (cl !! i)) <$> key in
  let sc := (λ i, default [] (co !! i)) <$> key in
  key = np_argsort cl
  ∧ gcl = (λ vn, replicate vn.2 vn.1) <$> rle sl
  ∧ gco = chunks (rle sl).*2 sc.
Proof.
  intros H Hne sl sc. unfold _group_by_clusterid in H.
  inv_bind H as sl' Hsl. inv_bind H as sc' Hsc.
  apply (np_take_fmap _ _ _ 0) in Hsl. apply (np_take_fmap _ _ _ []) in Hsc.
  assert (Sorted Z.le sl') as Hsorted by (rewrite Hsl; apply np_argsort_sorted).
  unfold _group_data, np_unique_index in H.
  rewrite np_unique_sorted, rle_first_index in H by done.
  injection H as <- <- <-. fold sl in Hsl. fold sc in Hsc. subst sl' sc'.
  split; [done|].
  assert ((rle sl).*2 ≠ []) as Hns.
  { intros Hnil%fmap_nil_inv%rle_nil_iff. unfold sl in Hnil.
    apply fmap_nil_inv in Hnil. pose proof (np_argsort_perm cl) as Hp.
    rewrite Hnil in Hp. apply Permutation_nil_l in Hp.
    destruct cl; [done|]. simpl in Hp. done. }
  unfold np_split. rewrite !np_split_from_chunks by done.
  rewrite !drop_0. split; [|done]. apply chunks_rle.
Qed.

Lemma rle_values_perm sl cl :
  Sorted Z.le sl → sl ≡ₚ cl → (rle sl).*1 ≡ₚ remove_dups cl.
Proof.
  intros Hs Hp. apply NoDup_Permutation.
  - apply rle_increasing, (Sorted_StronglySorted Z.lt) in Hs.
    induction Hs as [|v vs _ IH Hv]; constructor; [|done].
    intros Hin. apply (proj1 (Forall_forall _ _) Hv) in Hin. lia.
  - apply NoDup_remove_dups.
  - intros v. rewrite elem_of_remove_dups, <- Hp. split.
    + intros Hv. rewrite <- (rle_concat sl). revert Hv.
      pose proof (rle_positive sl) as Hpos.
      induction Hpos as [|[w n] R Hn _ IH]; simpl; [done|].
      intros [->|Hv]%elem_of_cons; apply elem_of_app; [left|right; by apply IH].
      apply elem_of_replicate. simpl in Hn. split; [done|lia].
    + intros Hv. apply elem_of_runs. by rewrite rle_concat.
Qed.

Lemma _update_id_spec L cl co ids L' mem_ids e :
  _update_id L cl co = Ok (ids, L') →
  length cl = length co → cl ≠ [] →
  all_cluster_ids (_memory L) = Ok mem_ids →
  as_number (epsPrev L) = Some e →
  let tree := concat (coordinates (_memory L)) in
  let thr := propagation_threshold L in
  let c := max_prev_cluster_id (_memory L) in
  ids = zip_with (row_id mem_ids tree thr e c cl co) cl co
  ∧ max_prev_cluster_id (_memory L')
    = c + Z.of_nat (length (filter
          (λ l, mints mem_ids tree thr e (cluster_points cl co l) = true)
          (remove_dups cl))).
Proof.
  intros H Hlen Hne Hmem He tree thr c. unfold _update_id in H.
  inv_bind H as tree' Htree. apply all_coordinates_Ok in Htree as [-> _].
  inv_bind H as [[key gcl] gco] Hgroup. inv_bind H as [linked L1] Hlink.
  inv_bind H as ids' Hids. inv_Ok H.
  apply _group_by_clusterid_spec in Hgroup as (Hkey & -> & ->); [|done].
  set (sl := (λ i, default 0 (cl !! i)) <$> key) in *.
  set (sc := (λ i, default [] (co !! i)) <$> key) in *.
  pose proof (np_argsort_perm cl) as Hperm. rewrite <- Hkey in Hperm.
  assert (Sorted Z.le sl) as Hsorted by (unfold sl; rewrite Hkey; apply np_argsort_sorted).
  assert (length sl = length sc) as Hlen' by (unfold sl, sc; by rewrite !length_fmap).
  assert (zip sl sc ≡ₚ zip cl co) as Hzip.
  { unfold sl, sc. rewrite zip_with_diag, Hperm, <- zip_with_diag.
    by rewrite Hlen at 2; rewrite !fmap_lookup_seq. }
  assert (sl ≡ₚ cl) as Hslp.
  { unfold sl. by rewrite Hperm, fmap_lookup_seq. }
  set (R := rle sl) in *.
  assert (StronglySorted Z.lt R.*1) as Hinc
    by (by apply (Sorted_StronglySorted Z.lt), rle_increasing).
  assert (sum_list R.*2 = length sc) as Hsum by (unfold R; by rewrite rle_sum).
  apply (link_clusters_spec _ _ _ _ mem_ids tree e) in Hlink; [|done..|].
  2:{ apply Forall_forall. intros [g1 g2] Hg. simpl.
      apply elem_of_lookup_zip_with in Hg as (i & a & b & [= <- <-] & Ha & Hb).
      apply list_lookup_fmap_Some in Ha as ([v n] & -> & Hvn). simpl.
      rewrite length_replicate.
      pose proof (chunks_lengths R.*2 sc Hsum) as Hch.
      eapply Forall2_lookup_lr in Hch; [|by rewrite list_lookup_fmap, Hvn|done].
      done. }
  rewrite snd_zip in Hlink by (by rewrite length_fmap, chunks_length, length_fmap).
  simpl in Hlink.
  set (M := λ l, mints mem_ids tree thr e (cluster_points cl co l)).
  destruct (assign_clusters_runs mem_ids tree thr e M R sc c Hinc Hsum) as [Hc' Hcat].
  { eapply Forall2_impl;
      [apply (chunks_cluster_points R sc [] []); try done; constructor|].
    intros [v n] pts ->. simpl. unfold M. apply mints_perm.
    unfold R. rewrite rle_concat. by apply cluster_points_perm. }
  fold thr c in Hlink. rewrite Hlink in Hc', Hcat. simpl in Hc', Hcat.
  pose proof (rle_values_perm sl cl Hsorted Hslp) as HR. fold R in HR.
  split.
  - unfold R in Hcat. rewrite rle_concat in Hcat. fold R in Hcat.
    apply (np_take_fmap _ _ _ 0) in Hids. rewrite Hids, Hcat.
    unfold sl, sc. rewrite zip_with_diag.
    set (h := λ i, run_id mem_ids tree M c R.*1 (default 0 (cl !! i)) (default [] (co !! i))).
    transitivity (h <$> ((λ j, default 0%nat (key !! j)) <$> np_argsort (Z.of_nat <$> key))).
    { rewrite <- list_fmap_compose. apply Forall_fmap_ext_1, Forall_forall.
      intros j Hj. simpl. rewrite list_lookup_fmap.
      rewrite (np_argsort_perm (Z.of_nat <$> key)) in Hj.
      apply elem_of_seq in Hj as [_ Hj]. rewrite length_fmap in Hj. simpl in Hj.
      apply lookup_lt_is_Some_2 in Hj as [k ->]. done. }
    rewrite (np_argsort_inverse key (length cl)) by done.
    assert (∀ F : Z → coord → Z, zip_with F cl co
        = (λ i, F (default 0 (cl !! i)) (default [] (co !! i))) <$> seq 0 (length cl))
      as ->.
    { intros F. rewrite <- zip_with_diag, fmap_lookup_seq.
      by rewrite Hlen, fmap_lookup_seq. }
    apply list_fmap_ext. intros _ i _.
    unfold h, run_id, row_id, minted_upto, M.
    destruct (mints _ _ _ _ _); [|done]. f_equal. f_equal.
    apply Permutation_length. by rewrite HR.
  - rewrite Hc'. unfold M. f_equal. f_equal. apply Permutation_length. by rewrite HR.
Qed.

End LinkProofs.

(** ** One [link] call *)

Section LinkCall.
Context `{E : Externals}.

Lemma mask_select_length {A} (a : list A) mask :
  length a = length mask → length (mask_select a mask) = count_true mask.
Proof.
  revert mask. induction a as [|v a IH]; intros [|b mask] Hlen; try done.
  simpl in *. unfold count_true in *. destruct b.
  - rewrite filter_cons_True by done. simpl. by rewrite IH by lia.
  - rewrite filter_cons_False by done. by rewrite IH by lia.
Qed.

Lemma mask_select_fill base mask vals :
  length base = length mask → length vals = count_true mask →
  mask_select (mask_fill base mask vals) mask = vals.
Proof.
  revert mask vals. induction base as [|v base IH]; intros [|b mask] vals Hlen Hv;
    try done; simpl in *.
  - by destruct vals.
  - unfold count_true in *. destruct b.
    + rewrite filter_cons_True in Hv by done. destruct vals as [|w vals]; [done|].
      simpl in *. f_equal. apply IH; lia.
    + rewrite filter_cons_False in Hv by done. apply IH; [lia|done].
Qed.

Lemma mask_fill_lookup_false base mask vals i :
  mask !! i = Some false → mask_fill base mask vals !! i = base !! i.
Proof.
  revert mask vals i. induction base as [|v base IH]; intros [|b mask] vals i Hi;
    try done.
  destruct i as [|i]; simpl in *.
  - injection Hi as ->. done.
  - destruct b; [destruct vals|]; simpl; by apply IH.
Qed.

Lemma mask_select_lookup_true {A} (a : list A) mask i v :
  mask !! i = Some true → a !! i = Some v → v ∈ mask_select a mask.
Proof.
  revert mask i. induction a as [|w a IH]; intros [|b mask] i Hm Ha; try done.
  destruct i as [|i]; simpl in *.
  - injection Hm as ->. injection Ha as ->. left.
  - destruct b; [right|]; by eapply IH.
Qed.

Lemma mask_select_isnan (clusters : list (option Z)) :
  omap id (mask_select clusters (kept clusters)) = omap id clusters.
Proof.
  unfold kept. induction clusters as [|[l|] cs IH]; simpl in *; [done| |done].
  f_equal. exact IH.
Qed.

Lemma omap_length_kept (clusters : list (option Z)) :
  length (omap id clusters) = count_true (kept clusters).
Proof.
  unfold kept, count_true. induction clusters as [|[l|] cs IH]; simpl in *; [done| |].
  - f_equal. exact IH.
  - exact IH.
Qed.

Lemma np_size_zero_iff x :
  Forall (λ r : coord, r ≠ []) x → np_size x = 0%nat ↔ x = [].
Proof.
  intros Hx. split; [|by intros ->]. unfold np_size.
  destruct Hx as [|r x Hr _]; [done|]. simpl. destruct r; [done|]. simpl. lia.
Qed.

Lemma _clustering_spec L x cl co nan :
  _clustering L x = Ok (cl, co, nan) →
  Forall (λ r : coord, r ≠ []) x →
  ∃ clusters,
    (x ≠ [] → clustering_function L x = Ok clusters)
    ∧ (x = [] → clusters = [])
    ∧ length clusters = length x
    ∧ nan = isnan <$> clusters
    ∧ cl = omap id clusters
    ∧ co = mask_select x (kept clusters).
Proof.
  unfold _clustering. intros H Hx. case_bool_decide as Hsz.
  - inv_Ok H. apply np_size_zero_iff in Hsz as ->; [|done]. by exists [].
  - inv_bind H as clusters Hcl. inv_bind H as kc Hkc. inv_bind H as kx Hkx. inv_Ok H.
    unfold np_mask in *. repeat case_decide; try done. inv_Ok Hkc. inv_Ok Hkx.
    exists clusters. rewrite !length_fmap in *.
    assert (x ≠ []) by (by intros ->).
    repeat split; try done. apply mask_select_isnan.
Qed.

Lemma all_cluster_ids_Ok m ids :
  all_cluster_ids m = Ok ids → ids = concat (prev_cluster_ids m).
Proof. by intros [-> _]%concat_or_first_Ok. Qed.

(** The two paths of [link]. *)
Lemma link_inv L x L' :
  link L x = Ok L' →
  ∃ cl co nan linked L1 m,
    _clustering L x = Ok (cl, co, nan)
    ∧ ((memory_ids L = [] ∨ cl = []) ∧ _update_id_empty L cl = (linked, L1)
       ∨ (memory_ids L ≠ [] ∧ cl ≠ []) ∧ _update_id L cl co = Ok (linked, L1))
    ∧ memory_update (_memory L1) co linked = Ok m
    ∧ np_put_mask (replicate (length nan) (-1)) (negb <$> nan) linked = Ok (event_ids L')
    ∧ L' = set_event_ids (set_memory L1 m) (event_ids L').
Proof.
  unfold link. intros H. inv_bind H as [[cl co] nan] Hcl.
  inv_bind H as [linked L1] Hpath. inv_bind H as m Hm. inv_bind H as ev Hev. inv_Ok H.
  exists cl, co, nan, linked, L1, m. split; [done|]. split; [|done].
  unfold memory_ids. case_bool_decide as Hprev.
  { inv_Ok Hpath. left. split; [|done]. left.
    apply length_zero_iff_nil in Hprev. by rewrite Hprev. }
  case_bool_decide as Hcl0.
  { inv_Ok Hpath. left. split; [|done]. right. by apply length_zero_iff_nil. }
  inv_bind Hpath as ids Hids. apply all_cluster_ids_Ok in Hids as ->.
  case_bool_decide as Hids0.
  { inv_Ok Hpath. left. split; [|done]. left. by apply length_zero_iff_nil. }
  right. split; [|done]. split.
  - intros Hnil. by rewrite Hnil in Hids0.
  - intros ->. done.
Qed.

Lemma _update_id_empty_spec L cl :
  (_update_id_empty L cl).1 = (λ l, l + counter L) <$> cl
  ∧ ∃ c', (_update_id_empty L cl).2 = with_counter L c'
          ∧ (cl = [] → c' = counter L)
          ∧ (cl ≠ [] → c' ∈ (λ l, l + counter L) <$> cl
                       ∧ Forall (λ i, i ≤ c') ((λ l, l + counter L) <$> cl)).
Proof.
  unfold _update_id_empty, counter.
  destruct (np_nanmax _) as [m|e] eqn:Hmax; simpl; (split; [done|]).
  - apply np_nanmax_Ok in Hmax as [Hin Hle]. exists m. split; [done|].
    split; [|done]. intros ->. by apply not_elem_of_nil in Hin.
  - exists (max_prev_cluster_id (_memory L)). rewrite with_counter_id.
    split; [done|]. split; [done|]. by destruct cl.
Qed.

End LinkCall.

(** ** Properties of the specification *)

Section Reachable.
Context `{E : Externals}.

Lemma reachable_inv L : reachable L → Linker_inv L.
Proof.
  induction 1 as [????????? Hinit|L x L' _ IH Hlink].
  - by eapply Linker_init_inv.
  - by eapply link_step.
Qed.

Lemma link_all_reachable L frames outs L' :
  reachable L → link_all L frames = Ok (outs, L') → reachable L'.
Proof.
  revert L outs. induction frames as [|x frames IH]; intros L outs HL H; simpl in H.
  - by inv_Ok H.
  - inv_bind H as L1 H1. inv_bind H as [outs' L2] H2. inv_Ok H.
    eapply IH; [|done]. by eapply reachable_link.
Qed.

Lemma link_all_trace L frames outs L' :
  Linker_inv L → link_all L frames = Ok (outs, L') →
  Sorted Z.le (counter L :: outs.*2)
  ∧ Forall (λ out, Forall (λ i, i = -1 ∨ 0 < i ≤ out.2) out.1) outs
  ∧ max_prev_event_id L' = 0.
Proof.
  revert L outs. induction frames as [|x frames IH]; intros L outs HL H; simpl in H.
  - inv_Ok H. repeat split; [repeat constructor|constructor|apply HL].
  - inv_bind H as L1 H1. inv_bind H as [outs' L2] H2. inv_Ok H.
    apply (link_step _ _ _ HL) in H1 as (HL1 & Hc & Hids & _).
    destruct (IH _ _ HL1 H2) as (Hsorted & Houts & Hpub).
    rewrite fmap_cons. simpl. repeat split; [|constructor|]; try done.
    + constructor; [done|]. constructor. done.
    + simpl. eapply Forall_impl; [exact Hids|]. simpl. lia.
Qed.

Lemma _link_next_cluster_public L cl cc v :
  _link_next_cluster (set_max_prev_event_id L v) cl cc
  = (let! '(ids, L') := _link_next_cluster L cl cc in
     Ok (ids, set_max_prev_event_id L' v)).
Proof.
  unfold _link_next_cluster. simpl.
  destruct (all_cluster_ids _); [|done]. simpl.
  destruct (_nn_tree L); [|done]. simpl.
  by destruct (brute_force_linking _ _ _ _ _ _ _ _) as [[ids c]|].
Qed.

Lemma link_clusters_public L groups v :
  link_clusters (set_max_prev_event_id L v) groups
  = (let! '(res, L') := link_clusters L groups in
     Ok (res, set_max_prev_event_id L' v)).
Proof.
  revert L. induction groups as [|[cl cc] groups IH]; intros L; [done|].
  cbn [link_clusters]. rewrite _link_next_cluster_public.
  destruct (_link_next_cluster L cl cc) as [[ids L1]|]; [|done]. simpl.
  rewrite IH. by destruct (link_clusters L1 groups) as [[res L2]|].
Qed.

Lemma _update_id_public L cl co v :
  _update_id (set_max_prev_event_id L v) cl co
  = (let! '(ids, L') := _update_id L cl co in
     Ok (ids, set_max_prev_event_id L' v)).
Proof.
  unfold _update_id. simpl.
  destruct (all_coordinates _) as [tree|]; [|done]. simpl.
  destruct (_group_by_clusterid cl co) as [[[key gcl] gco]|]; [|done]. simpl.
  change (_update_tree (set_max_prev_event_id L v) tree)
    with (set_max_prev_event_id (_update_tree L tree) v).
  rewrite link_clusters_public.
  destruct (link_clusters _ _) as [[res L1]|]; [|done]. simpl.
  by destruct (np_take _ _).
Qed.

Lemma _update_id_empty_public L cl v :
  _update_id_empty (set_max_prev_event_id L v) cl
  = ((_update_id_empty L cl).1, set_max_prev_event_id (_update_id_empty L cl).2 v).
Proof. unfold _update_id_empty. simpl. by destruct (np_nanmax _). Qed.

(** [link] neither reads nor writes the public attribute. *)
Lemma link_public L x v :
  link (set_max_prev_event_id L v) x
  = (let! L' := link L x in Ok (set_max_prev_event_id L' v)).
Proof.
  unfold link.
  change (_clustering (set_max_prev_event_id L v) x) with (_clustering L x).
  destruct (_clustering L x) as [[[cl co] nan]|]; [|done]. simpl.
  rewrite !_update_id_empty_public, _update_id_public.
  destruct (_update_id_empty L cl) as [linked0 L0] eqn:Hempty. simpl.
  assert (∀ (r : except (list Z * Linker)) ,
    (let! '(linked, self) := (let! '(ids, L') := r in Ok (ids, set_max_prev_event_id L' v)) in
     let! m := memory_update (_memory self) co linked in
     let self0 := set_memory self m in
     let! event_ids := np_put_mask (replicate (length nan) (-1)) (negb <$> nan) linked in
     Ok (set_event_ids self0 event_ids))
    = (let! L' :=
         (let! '(linked, self) := r in
          let! m := memory_update (_memory self) co linked in
          let self0 := set_memory self m in
          let! event_ids := np_put_mask (replicate (length nan) (-1)) (negb <$> nan) linked in
          Ok (set_event_ids self0 event_ids)) in
       Ok (set_max_prev_event_id L' v))) as Hcomm.
  { intros [[linked L1]|]; [|done]. simpl.
    destruct (memory_update _ _ _); [|done]. simpl.
    by destruct (np_put_mask _ _ _). }
  repeat case_bool_decide; try apply (Hcomm (Ok (linked0, L0))).
  destruct (all_cluster_ids _); [|done]. simpl.
  case_bool_decide; [apply (Hcomm (Ok (linked0, L0)))|]. apply Hcomm.
Qed.

End Reachable.

(** C3. Across any sequence of [link] calls on one Linker the counter never
    decreases, every event id emitted by a call is the noise sentinel -1
    or strictly positive, and no id emitted by a call exceeds the value of
    the counter after that call. *)
Theorem link_all_ids_and_counter `{E : Externals} L frames outs L' :
  reachable L → link_all L frames = Ok (outs, L') →
  Sorted Z.le (counter L :: outs.*2)
  ∧ Forall (λ out, Forall (λ i, i = -1 ∨ 0 < i ≤ out.2) out.1) outs.
Proof.
  intros HL%reachable_inv H.
  destruct (link_all_trace _ _ _ _ HL H) as (? & ? & _). done.
Qed.


(** C9. The public attribute [Linker.max_prev_event_id] stays 0 through
    every sequence of [link] calls, and [link] behaves the same whatever
    value it holds; the counter that is read for the offset of the
    first-frame path and incremented when a cluster mints an id is the
    field [max_prev_cluster_id] of the memory. *)
Theorem public_counter_never_written `{E : Externals} L frames outs L' :
  reachable L → link_all L frames = Ok (outs, L') →
  max_prev_event_id L = 0 ∧ max_prev_event_id L' = 0
  ∧ (∀ v x, link (set_max_prev_event_id L v) x
            = (let! L1 := link L x in Ok (set_max_prev_event_id L1 v)))
  ∧ (∀ cl, (_update_id_empty L cl).1
           = (λ l, l + max_prev_cluster_id (_memory L)) <$> cl)
  ∧ (∀ cl cc ids L1, _link_next_cluster L cl cc = Ok (ids, L1) →
       max_prev_event_id L1 = 0
       ∧ (max_prev_cluster_id (_memory L1) = max_prev_cluster_id (_memory L)
          ∨ max_prev_cluster_id (_memory L1) = max_prev_cluster_id (_memory L) + 1
            ∧ ids = replicate (length cl) (max_prev_cluster_id (_memory L) + 1))).
Proof.
  intros HL%reachable_inv H.
  destruct (link_all_trace _ _ _ _ HL H) as (_ & _ & Hpub).
  split; [apply HL|]. split; [done|]. split; [intros; apply link_public|].
  split; [intros; apply _update_id_empty_spec|].
  intros cl cc ids L1 Hnext.
  apply _link_next_cluster_Ok in Hnext as (mem_ids & tree & c' & _ & _ & Hbf & ->).
  split; [apply HL|]. simpl. unfold brute_force_linking in Hbf.
  inv_bind Hbf as nn Hnn. inv_bind Hbf as prev Hprev. inv_bind Hbf as within Hwithin.
  repeat case_bool_decide; inv_Ok Hbf; auto.
Qed.


(** C4. A callable [clusteringMethod] is meant to be accepted, yet the
    constructor raises [ValueError] for every callable, whatever the other
    arguments: [_validate_input] insists on a string before the callable
    branch is reached. A string other than "dbscan" and "hdbscan" is
    rejected. *)
Theorem Linker_init_callable_raises `{E : Externals} :
  (∀ eps epsPrev minClSz minSamples f propagationThreshold nPrev nJobs,
     callable (PyCallable f) = true
     ∧ ∃ msg, Linker_init eps epsPrev minClSz minSamples (PyCallable f)
                propagationThreshold nPrev nJobs = Raise (ValueError msg))
  ∧ (∀ f, Linker_init (PyInt 1) PyNone (PyInt 1) (PyInt 1) (PyCallable f)
            (PyInt 1) (PyInt 1) (PyInt 1)
          = Raise (ValueError "clusteringMethod must be a string"))
  ∧ (∀ eps epsPrev minClSz minSamples s propagationThreshold nPrev nJobs,
       s = "dbscan" ∨ s = "hdbscan"
       ∨ ∃ msg, Linker_init eps epsPrev minClSz minSamples (PyStr s)
                  propagationThreshold nPrev nJobs = Raise (ValueError msg)).
Proof.
  split; [|split].
  - intros eps eps_prev minClSz minSamples f pt nPrev nJobs.
    split; [done|]. unfold Linker_init, _validate_input.
    destruct (negb (isinstance eps _)); [by eexists|].
    destruct (negb (isinstance eps_prev _)); [by eexists|].
    destruct (negb (forallb _ _)); by eexists.
  - done.
  - intros eps eps_prev minClSz minSamples s pt nPrev nJobs.
    destruct (decide (s = "dbscan")) as [|Hd]; [by left|].
    destruct (decide (s = "hdbscan")) as [|Hh]; [by right; left|].
    right. right. unfold Linker_init, _validate_input.
    destruct (negb (isinstance eps _)); [by eexists|].
    destruct (negb (isinstance eps_prev _)); [by eexists|].
    destruct (negb (forallb _ _)) eqn:Hints; [by eexists|].
    simpl. apply negb_false_iff in Hints. simpl in Hints.
    repeat (apply andb_prop in Hints as [? Hints]).
    destruct nPrev, pt, nJobs, minClSz, minSamples; try done. simpl.
    rewrite !bool_decide_eq_false_2 by done. by eexists.
Qed.

(** ** The first-frame path and the draining of the memory *)

Section Drain.
Context `{E : Externals}.

Lemma _clustering_lengths L x cl co nan :
  _clustering L x = Ok (cl, co, nan) →
  length cl = count_true (negb <$> nan)
  ∧ length nan = (if bool_decide (np_size x = 0%nat) then 0%nat else length x)
  ∧ (cl ≠ [] → length cl = length co).
Proof.
  unfold _clustering. intros H. case_bool_decide as Hsz.
  - by inv_Ok H.
  - inv_bind H as clusters Hcl. inv_bind H as kc Hkc. inv_bind H as kx Hkx. inv_Ok H.
    unfold np_mask in *. repeat case_decide; try done. inv_Ok Hkc. inv_Ok Hkx.
    rewrite !length_fmap in *.
    fold (kept clusters). rewrite mask_select_isnan.
    split; [apply omap_length_kept|]. split; [done|]. intros _.
    rewrite omap_length_kept. symmetry. apply mask_select_length.
    unfold kept. by rewrite !length_fmap.
Qed.

(** On the first-frame path the kept rows receive their labels offset by
    the counter, and the counter moves to the largest new id. *)
Lemma link_empty_memory L x L' cl co nan :
  link L x = Ok L' → _clustering L x = Ok (cl, co, nan) →
  memory_ids L = [] ∨ cl = [] →
  let new_ids := (λ l, l + counter L) <$> cl in
  mask_select (event_ids L') (negb <$> nan) = new_ids
  ∧ (cl = [] → counter L' = counter L)
  ∧ (cl ≠ [] → counter L' ∈ new_ids ∧ Forall (λ i, i ≤ counter L') new_ids).
Proof.
  intros Hlink Hcl Hempty new_ids. subst new_ids.
  apply link_inv in Hlink as (cl' & co' & nan' & linked & L1 & m & Hcl' & Hpath & Hm & Hev & HL').
  rewrite Hcl in Hcl'. inv_Ok Hcl'.
  destruct Hpath as [[_ Hpath]|[[Hmem Hne] _]]; [|by destruct Hempty].
  destruct (_update_id_empty_spec L cl') as (Hlinked & c' & HL1 & Hc0 & Hc1).
  rewrite Hpath in Hlinked, HL1. simpl in Hlinked, HL1. subst linked L1.
  apply _clustering_lengths in Hcl as (Hlen & _ & _).
  unfold np_put_mask in Hev. rewrite length_fmap in Hev.
  rewrite decide_True in Hev by done. injection Hev as Hev. rewrite <- Hev.
  split.
  { apply mask_select_fill; [by rewrite length_replicate, length_fmap|].
    by rewrite length_fmap. }
  apply memory_update_Ok in Hm as (cs & ps & -> & _).
  rewrite HL'. unfold counter. simpl. done.
Qed.

Lemma link_empty_frame L :
  Linker_inv L → 0 < n_timepoints (_memory L) →
  ∃ L', link L [] = Ok L'
        ∧ counter L' = counter L ∧ event_ids L' = []
        ∧ n_timepoints (_memory L') = n_timepoints (_memory L)
        ∧ ∀ j, drained_to j (_memory L) → drained_to (S j) (_memory L').
Proof.
  intros HL Hn. unfold link, _clustering. simpl.
  assert (_update_id_empty L [] = ([], L)) as Hempty by done.
  assert ((if bool_decide (length (prev_cluster_ids (_memory L)) = 0%nat)
           then Ok (_update_id_empty L [])
           else Ok (_update_id_empty L [])) = Ok ([], L)) as -> by (by case_bool_decide).
  simpl. unfold memory_update.
  pose proof (inv_frames _ HL) as Hfr. pose proof (inv_bound _ HL) as Hbd.
  destruct (coordinates (_memory L)) as [|c0 cs] eqn:Hcs;
    destruct (prev_cluster_ids (_memory L)) as [|p0 ps] eqn:Hps; try done.
  - simpl. rewrite bool_decide_eq_false_2 by lia. simpl.
    eexists. split; [done|]. unfold counter. simpl. repeat split; try done.
    intros j (pre & k & Hpre & Hk). exists [], 1%nat. split; [done|]. by left.
  - case_bool_decide as Hfull; simpl.
    + eexists. split; [done|]. unfold counter. simpl. repeat split; try done.
      intros j (pre & k & Hpre & Hk). rewrite Hps in Hpre. destruct pre as [|q pre].
      * exists [], k. split; [|by left]. simpl in Hpre.
        destruct k as [|k]; simpl in Hpre; [done|]. injection Hpre as _ ->.
        simpl. by rewrite <- replicate_cons_app.
      * injection Hpre as _ ->. exists pre, (S k). split.
        -- rewrite <- (assoc (++)). f_equal. by rewrite <- replicate_cons_app.
        -- destruct Hk as [|Hk]; [done|]. right. lia.
    + eexists. split; [done|]. unfold counter. simpl. repeat split; try done.
      intros j (pre & k & Hpre & Hk). rewrite Hps in Hpre. exists pre, (S k). split.
      * change (p0 :: ps ++ [[]]) with ((p0 :: ps) ++ [[]]).
        rewrite Hpre, <- (assoc (++)). f_equal. by rewrite <- replicate_cons_app.
      * destruct Hk as [Hk|Hk]; [by left|right; lia].
Qed.

Lemma link_all_empty_frames L N j :
  Linker_inv L → 0 < n_timepoints (_memory L) → drained_to j (_memory L) →
  ∃ outs L', link_all L (replicate N []) = Ok (outs, L')
    ∧ Linker_inv L' ∧ counter L' = counter L
    ∧ n_timepoints (_memory L') = n_timepoints (_memory L)
    ∧ clustering_function L' = clustering_function L
    ∧ drained_to (j + N) (_memory L').
Proof.
  revert L j. induction N as [|N IH]; intros L j HL Hn Hj.
  - exists [], L. rewrite Nat.add_0_r. done.
  - destruct (link_empty_frame L HL Hn) as (L1 & Hlink & Hc & _ & Hn1 & Hdrain).
    pose proof (link_step _ _ _ HL Hlink) as (HL1 & _ & _ & Hcf & _).
    destruct (IH L1 (S j) HL1) as (outs & L' & Hall & HL' & Hc' & Hn' & Hcf' & Hj');
      [lia|by apply Hdrain|].
    exists ((event_ids L1, max_prev_cluster_id (_memory L1)) :: outs), L'.
    simpl. rewrite Hlink. simpl. rewrite Hall. simpl.
    split; [done|]. split; [done|]. split; [congruence|]. split; [congruence|].
    split; [congruence|]. by replace (j + S N)%nat with (S j + N)%nat by lia.
Qed.

Lemma drained_all L :
  Linker_inv L → 0 ≤ n_timepoints (_memory L) →
  drained_to (Z.to_nat (n_timepoints (_memory L))) (_memory L) →
  memory_ids L = [].
Proof.
  intros HL Hn (pre & k & Hpre & Hk). unfold memory_ids.
  pose proof (inv_frames _ HL) as Hfr. pose proof (inv_bound _ HL Hn) as Hbd.
  rewrite Hfr, Hpre, length_app, length_replicate in Hbd.
  assert (pre = []) as ->.
  { destruct Hk as [|Hk]; [done|]. destruct pre; [done|]. simpl in Hbd. lia. }
  rewrite Hpre. simpl. clear. induction k; simpl; done.
Qed.

End Drain.

(** C6. When the memory holds no previous event ids, [link] gives every
    kept row its clusterer label offset by the counter and moves the
    counter to the largest new id when there is one. Consequently, after
    [nPrev] consecutive [link] calls without active points the memory
    retains no event ids while the counter keeps its value, and the next
    call numbers its clusters from that value plus one. *)
Theorem first_frame_path_and_drain `{E : Externals} L :
  reachable L → 0 ≤ n_timepoints (_memory L) →
  (∀ x L' cl co nan,
     memory_ids L = [] → link L x = Ok L' → _clustering L x = Ok (cl, co, nan) →
     let new_ids := (λ l, l + counter L) <$> cl in
     mask_select (event_ids L') (negb <$> nan) = new_ids
     ∧ (cl = [] → counter L' = counter L)
     ∧ (cl ≠ [] → counter L' ∈ new_ids ∧ Forall (λ i, i ≤ counter L') new_ids))
  ∧ ∃ outs L1,
      link_all L (replicate (Z.to_nat (n_timepoints (_memory L))) []) = Ok (outs, L1)
      ∧ memory_ids L1 = [] ∧ counter L1 = counter L
      ∧ ∀ x L2 cl co nan,
          link L1 x = Ok L2 → _clustering L1 x = Ok (cl, co, nan) →
          mask_select (event_ids L2) (negb <$> nan) = (λ l, l + counter L) <$> cl
          ∧ Forall (λ i, counter L + 1 ≤ i) ((λ l, l + counter L) <$> cl)
          ∧ (1 ∈ cl → counter L + 1 ∈ event_ids L2).
Proof.
  intros HL%reachable_inv Hn. split.
  { intros x L' cl co nan Hmem Hlink Hcl. eapply link_empty_memory; eauto. }
  assert (drained_to 0 (_memory L)) as H0.
  { exists (prev_cluster_ids (_memory L)), 0%nat. rewrite app_nil_r. split; [done|].
    right. lia. }
  assert (∃ outs L1,
    link_all L (replicate (Z.to_nat (n_timepoints (_memory L))) []) = Ok (outs, L1)
    ∧ Linker_inv L1 ∧ counter L1 = counter L ∧ memory_ids L1 = [])
    as (outs & L1 & Hall & HL1 & Hc1 & Hmem1).
  { destruct (decide (n_timepoints (_memory L) = 0)) as [Hz|Hnz].
    - rewrite Hz. exists [], L. simpl. split; [done|]. split; [done|]. split; [done|].
      apply drained_all; [done|lia|]. by rewrite Hz.
    - destruct (link_all_empty_frames L (Z.to_nat (n_timepoints (_memory L))) 0 HL)
        as (outs & L1 & Hall & HL1 & Hc1 & Hn1 & _ & Hd); [lia|done|].
      exists outs, L1. split; [done|]. split; [done|]. split; [done|].
      apply drained_all; [done|lia|]. by rewrite Hn1. }
  exists outs, L1. split; [done|]. split; [done|]. split; [done|].
  intros x L2 cl co nan Hlink Hcl. split; [|split].
  - destruct (link_empty_memory L1 x L2 cl co nan) as (Hids & _); auto.
    by rewrite Hids, Hc1.
  - pose proof (_clustering_labels _ _ _ _ _ (inv_labels _ HL1) Hcl) as Hpos.
    apply Forall_fmap. eapply Forall_impl; [exact Hpos|]. simpl. lia.
  - intros Hone. destruct (link_empty_memory L1 x L2 cl co nan) as (Hids & _); auto.
    apply (mask_select_elem_of _ (negb <$> nan)). rewrite Hids, Hc1.
    apply list_elem_of_fmap. exists 1. split; [lia|done].
Qed.

(** ** The ids of the rows of one frame *)

Section Rows.
Context `{E : Externals} `{!ExternalsOk E}.

Lemma np_split_from_nonempty {A} s idx (a : list A) : np_split_from s idx a ≠ [].
Proof. by destruct idx. Qed.

Lemma _update_id_numeric L cl co r :
  _update_id L cl co = Ok r → ∃ e, as_number (epsPrev L) = Some e.
Proof.
  unfold _update_id. intros H. inv_bind H as tree Htree.
  inv_bind H as [[key gcl] gco] Hgroup. inv_bind H as [linked L1] Hlink.
  unfold _group_by_clusterid in Hgroup.
  inv_bind Hgroup as sl Hsl. inv_bind Hgroup as sc Hsc.
  destruct (_group_data sl) as [u g]. injection Hgroup as <- <- <-.
  unfold np_split in Hlink.
  pose proof (np_split_from_nonempty 0 g sl) as Hne1.
  pose proof (np_split_from_nonempty 0 g sc) as Hne2.
  destruct (np_split_from 0 g sl) as [|g1 gs1]; [done|].
  destruct (np_split_from 0 g sc) as [|g2 gs2]; [done|].
  cbn [zip_with link_clusters] in Hlink.
  inv_bind Hlink as [ids L2] Hnext.
  apply _link_next_cluster_Ok in Hnext as (mem_ids & tree' & c' & _ & _ & Hbf & _).
  unfold brute_force_linking in Hbf. inv_bind Hbf as nn Hnn. inv_bind Hbf as prev Hprev.
  inv_bind Hbf as within Hwithin. simpl in Hwithin. unfold np_dist_le in Hwithin.
  destruct (as_number (epsPrev L)) as [e|]; [by exists e|done].
Qed.

(** The ids [link] assigns to the kept rows, whichever path it takes. *)
Lemma link_linked_ids L x L' cl co nan :
  Linker_inv L → link L x = Ok L' → _clustering L x = Ok (cl, co, nan) →
  event_ids L' = mask_fill (replicate (length nan) (-1)) (negb <$> nan) (linked_ids L cl co)
  ∧ length (linked_ids L cl co) = count_true (negb <$> nan)
  ∧ Forall (λ i, 1 ≤ i) (linked_ids L cl co)
  ∧ (memory_ids L ≠ [] → cl ≠ [] →
       counter L' = counter L + Z.of_nat (length (minted_clusters L cl co))).
Proof.
  intros HL Hlink Hcl.
  apply link_inv in Hlink as (cl' & co' & nan' & linked & L1 & m & Hcl' & Hpath & Hm & Hev & HL').
  rewrite Hcl in Hcl'. inv_Ok Hcl'.
  pose proof (_clustering_lengths _ _ _ _ _ Hcl) as (Hlen & _ & Hlenco).
  pose proof (_clustering_labels _ _ _ _ _ (inv_labels _ HL) Hcl) as Hpos.
  assert (linked = linked_ids L cl' co' ∧ Forall (λ i, 1 ≤ i) linked
          ∧ (memory_ids L ≠ [] → cl' ≠ [] →
             counter L1 = counter L + Z.of_nat (length (minted_clusters L cl' co'))))
    as (-> & Hpos' & Hcount).
  { destruct Hpath as [[Hempty Hpath]|[[Hmem Hne] Hpath]].
    - destruct (_update_id_empty_spec L cl') as (Hlinked & _).
      rewrite Hpath in Hlinked. simpl in Hlinked. subst linked.
      split; [|split].
      + unfold linked_ids. case_bool_decide; [done|].
        destruct Hempty as [ | -> ]; done.
      + apply Forall_fmap. eapply Forall_impl; [exact Hpos|]. simpl.
        pose proof (inv_counter _ HL). unfold counter. lia.
      + intros ??. by destruct Hempty.
    - pose proof Hpath as Hnum. apply _update_id_numeric in Hnum as [e He].
      pose proof Hpath as Hids.
      apply _update_id_ids in Hids as (c' & _ & _ & Hids);
        [|apply HL|apply HL].
      eapply (_update_id_spec _ _ _ _ _ (memory_ids L) e) in Hpath as [-> Hc];
        [|by apply Hlenco|done| |done].
      2:{ unfold all_cluster_ids. apply concat_or_first_ne.
          intros Hnil. apply Hmem. unfold memory_ids. by rewrite Hnil. }
      unfold linked_ids, minted_clusters, eps_of, memory_points, counter.
      rewrite bool_decide_eq_false_2 by done. rewrite He. simpl.
      split; [done|]. split; [|intros _ _; exact Hc].
      eapply Forall_impl; [exact Hids|]. simpl. lia. }
  assert (length (linked_ids L cl' co') = length cl') as Hlen'.
  { unfold linked_ids. case_bool_decide; [by rewrite length_fmap|].
    destruct cl' as [|l cl']; [done|]. rewrite length_zip_with.
    rewrite <- Hlenco by done. lia. }
  unfold np_put_mask in Hev. rewrite decide_True in Hev by congruence.
  injection Hev as Hev. split; [done|]. split; [congruence|]. split; [done|].
  intros Hmem Hne. rewrite <- (Hcount Hmem Hne).
  apply memory_update_Ok in Hm as (cs & ps & -> & _).
  rewrite HL'. done.
Qed.

End Rows.

Lemma filter_le_lt (P : Z → Prop) `{∀ v, Decision (P v)} (vs : list Z) v :
  NoDup vs → v ∈ vs → P v →
  length (filter (λ w, w ≤ v ∧ P w) vs) = S (length (filter (λ w, w < v ∧ P w) vs)).
Proof.
  intros Hnd Hv HP.
  assert (∀ us : list Z, v ∉ us →
    filter (λ w, w ≤ v ∧ P w) us = filter (λ w, w < v ∧ P w) us) as Hsame.
  { intros us Hus. induction us as [|w us IHus]; [done|].
    apply not_elem_of_cons in Hus as [Hwv Hus]. specialize (IHus Hus).
    destruct (decide (w < v ∧ P w)) as [Hlt|Hlt].
    - rewrite filter_cons_True by (split; [lia|apply Hlt]).
      rewrite (filter_cons_True _ w) by done. by rewrite IHus.
    - rewrite filter_cons_False by (intros [? ?]; apply Hlt; split; [lia|done]).
      by rewrite (filter_cons_False _ w) by done. }
  induction Hnd as [|w vs Hw Hnd IH]; [by apply not_elem_of_nil in Hv|].
  destruct (decide (w = v)) as [->|Hne].
  - rewrite filter_cons_True by (split; [lia|done]).
    rewrite (filter_cons_False _ v) by (intros [? _]; lia).
    simpl. by rewrite Hsame.
  - apply elem_of_cons in Hv as [->|Hv]; [done|]. specialize (IH Hv).
    destruct (decide (w < v ∧ P w)) as [Hlt|Hlt].
    + rewrite filter_cons_True by (split; [lia|apply Hlt]).
      rewrite (filter_cons_True _ w) by done. simpl. by rewrite IH.
    + rewrite filter_cons_False by (intros [? ?]; apply Hlt; split; [lia|done]).
      by rewrite (filter_cons_False _ w) by done.
Qed.

(** C2. After [link] returns, [event_ids] has one entry per input row,
    carries -1 exactly at the rows the clusterer marked as noise, and its
    other entries are, in the caller's row order, the ids computed for the
    label and the coordinates of each kept row. *)
Theorem link_event_ids_rows `{E : Externals} `{!ExternalsOk E} L x L' :
  reachable L → Forall (λ r : coord, r ≠ []) x → link L x = Ok L' →
  ∃ clusters,
    (x ≠ [] → clustering_function L x = Ok clusters)
    ∧ (x = [] → clusters = [])
    ∧ length clusters = length x
    ∧ length (event_ids L') = length x
    ∧ (∀ i, event_ids L' !! i = Some (-1) ↔ clusters !! i = Some None)
    ∧ mask_select (event_ids L') (kept clusters)
      = linked_ids L (omap id clusters) (mask_select x (kept clusters)).
Proof.
  intros HL%reachable_inv Hx Hlink.
  pose proof Hlink as Hinv.
  apply link_inv in Hinv as (cl & co & nan & _ & _ & _ & Hcl & _).
  pose proof (link_linked_ids _ _ _ _ _ _ HL Hlink Hcl) as (Hev & Hlen & Hpos & _).
  apply _clustering_spec in Hcl as (clusters & Hf & Hnil & Hlenc & -> & -> & ->);
    [|done].
  fold (kept clusters) in *. rewrite length_fmap in Hev.
  set (linked := linked_ids L _ _) in *.
  assert (length (replicate (length clusters) (-1)) = length (kept clusters)) as Hbase.
  { unfold kept. by rewrite length_replicate, !length_fmap. }
  assert (mask_select (event_ids L') (kept clusters) = linked) as Hsel.
  { rewrite Hev. by apply mask_select_fill. }
  exists clusters. split; [done|]. split; [done|]. split; [done|].
  split; [by rewrite Hev, mask_fill_length, length_replicate|].
  split; [|done]. intros i. split.
  - intros Hi. assert (i < length clusters)%nat as Hlt.
    { apply lookup_lt_Some in Hi.
      by rewrite Hev, mask_fill_length, length_replicate in Hi. }
    apply lookup_lt_is_Some_2 in Hlt as [[l|] Hl]; [|done].
    assert (kept clusters !! i = Some true) as Hk.
    { unfold kept. by rewrite !list_lookup_fmap, Hl. }
    pose proof (mask_select_lookup_true _ _ _ _ Hk Hi) as Hin.
    rewrite Hsel in Hin. apply (proj1 (Forall_forall _ _) Hpos) in Hin. lia.
  - intros Hl. assert (kept clusters !! i = Some false) as Hk.
    { unfold kept. by rewrite !list_lookup_fmap, Hl. }
    rewrite Hev, mask_fill_lookup_false by done.
    apply lookup_replicate_2. by apply lookup_lt_Some in Hl.
Qed.

(** C1 (amended). On the normal path of [link] (the memory holds event ids
    and the frame has clusters) every cluster is handled as follows. Let
    [eligible] hold, for each point of the cluster whose nearest memory
    neighbour lies within [epsPrev], the event id of that neighbour. If
    [eligible] has fewer than [propagationThreshold] entries, or has none
    at all, the counter is incremented by one and the fresh id is given to
    every point of the cluster; otherwise every point is given the event
    id of its own nearest memory neighbour. *)
Theorem link_normal_path_clusters `{E : Externals} `{!ExternalsOk E}
    L x L' cl co nan :
  reachable L → link L x = Ok L' → _clustering L x = Ok (cl, co, nan) →
  memory_ids L ≠ [] → cl ≠ [] →
  let ids := memory_ids L in
  let pts := memory_points L in
  let thr := propagation_threshold L in
  let e := eps_of L in
  mask_select (event_ids L') (negb <$> nan)
    = zip_with (row_id ids pts thr e (counter L) cl co) cl co
  ∧ length cl = length co
  ∧ counter L' = counter L + Z.of_nat (length (minted_clusters L cl co))
  ∧ ∀ l, l ∈ cl →
      let eligible_ids := eligible ids pts e (cluster_points cl co l) in
      (Z.of_nat (length eligible_ids) < thr ∨ eligible_ids = [] →
         ∀ p, row_id ids pts thr e (counter L) cl co l p
              = (counter L + Z.of_nat (minted_below L cl co l)) + 1)
      ∧ (¬ Z.of_nat (length eligible_ids) < thr → eligible_ids ≠ [] →
         ∀ p, row_id ids pts thr e (counter L) cl co l p = neighbor_id ids pts p).
Proof.
  intros HL%reachable_inv Hlink Hcl Hmem Hne ids pts thr e.
  pose proof (link_linked_ids _ _ _ _ _ _ HL Hlink Hcl) as (Hev & Hlen & _ & Hc).
  pose proof (_clustering_lengths _ _ _ _ _ Hcl) as (Hlencl & Hlennan & Hlenco).
  unfold linked_ids in *. rewrite bool_decide_eq_false_2 in * by done.
  split.
  { rewrite Hev. apply mask_select_fill; [|done].
    by rewrite length_replicate, length_fmap. }
  split; [by apply Hlenco|]. split; [by apply Hc|].
  intros l Hl. cbv zeta. unfold row_id, mints.
  set (eligible_ids := eligible ids pts e (cluster_points cl co l)).
  split.
  - intros Hmint p.
    assert (bool_decide (Z.of_nat (length eligible_ids) < thr)
            || bool_decide (eligible_ids = []) = true) as Hb.
    { destruct Hmint; [rewrite bool_decide_eq_true_2 by done; done|].
      rewrite (bool_decide_eq_true_2 (eligible_ids = [])) by done.
      apply orb_true_r. }
    rewrite Hb. unfold minted_upto, minted_below. fold ids pts thr e.
    rewrite (filter_le_lt (λ l', mints ids pts thr e (cluster_points cl co l') = true));
      [lia|apply NoDup_remove_dups|by apply elem_of_remove_dups|exact Hb].
  - intros Hthr Hnil p.
    by rewrite !bool_decide_eq_false_2 by done.
Qed.

(** ** The raster tracker *)

Lemma remove_dups_length_le {A} `{EqDecision A} (l : list A) :
  (length (remove_dups l) ≤ length l)%nat.
Proof.
  induction l as [|x l IH]; simpl; [done|]. case_decide; simpl; lia.
Qed.

Lemma remove_dups_length_lt {A} `{EqDecision A} (l : list A) :
  (length (remove_dups l) < length l)%nat ↔ ¬ NoDup l.
Proof.
  induction l as [|x l IH]; simpl.
  - split; [lia|]. intros H. destruct H. constructor.
  - pose proof (remove_dups_length_le l). rewrite NoDup_cons. case_decide; simpl.
    + split; [tauto|lia].
    + split.
      * intros Hlt [_ Hnd]. apply IH; [lia|done].
      * intros Hn. assert (¬ NoDup l) as Hl by tauto. apply IH in Hl. lia.
Qed.

Lemma existsb_not_elem_self {A} `{EqDecision A} (l : list A) :
  existsb (λ i, negb (bool_decide (i ∈ l))) l = false.
Proof.
  apply not_true_is_false. intros (i & Hi & Hneg)%existsb_exists.
  apply list_elem_of_In in Hi. by rewrite bool_decide_eq_true_2 in Hneg.
Qed.

(** What the checks of [ImageTracker.track] amount to. *)
Lemma img_track_check_spec x dims :
  let dims_list := ascii_upper <$> list_ascii_of_string dims in
  img_track_check x dims =
    if bool_decide (¬ NoDup dims_list) then
      Raise (ValueError "Duplicate dimensions in dims.")
    else if bool_decide (length dims_list ≠ ndim x) then
      Raise (ValueError "Length of dims must be equal to number of dimensions in image.")
    else if bool_decide ("T"%char ∈ dims_list) then
      Ok (first_index_of "T"%char dims_list)
    else Raise KeyError.
Proof.
  intros dl. unfold img_track_check. fold dl.
  rewrite existsb_not_elem_self.
  rewrite (bool_decide_ext _ _ (remove_dups_length_lt dl)).
  case_bool_decide; [done|]. case_bool_decide; [done|].
  unfold dict_get, available_dims.
  case_bool_decide as HT.
  - rewrite filter_cons_True by done. done.
  - destruct (list_find _ _) as [[j kv]|] eqn:Hfind; [|done].
    apply list_find_Some in Hfind as (Hj & Hkv & _).
    apply list_elem_of_lookup_2 in Hj.
    apply list_elem_of_fmap in Hj as (i & -> & Hi).
    apply list_elem_of_filter in Hi as [Hi _]. simpl in Hkv. by subst i.
Qed.

(** C5. [track] is meant to raise for a [dims] string with an axis
    character outside T, X, Y, Z, but its first check compares every
    character with the characters of [dims] itself and never fires: what
    the checks reject is a duplicated axis, a length different from the
    rank of the image, and a missing T (by the failed dict lookup). With
    [dims = "TAB"] on a rank-3 image no error is raised and the frames
    along T are tracked. *)
Theorem img_track_accepts_unknown_axis :
  (∀ x dims,
     let dims_list := ascii_upper <$> list_ascii_of_string dims in
     img_track_check x dims =
       if bool_decide (¬ NoDup dims_list) then
         Raise (ValueError "Duplicate dimensions in dims.")
       else if bool_decide (length dims_list ≠ ndim x) then
         Raise (ValueError "Length of dims must be equal to number of dimensions in image.")
       else if bool_decide ("T"%char ∈ dims_list) then
         Ok (first_index_of "T"%char dims_list)
       else Raise KeyError)
  ∧ img_track_check tiny_image "TAB" = Ok 0%nat
  ∧ (let! r := img_track (E := reference_externals) {| img_linker := demo_linker |}
                 tiny_image "TAB" in
     Ok r.1)
    = Ok [ {| shape := [1; 1]%nat; data := [1] |};
           {| shape := [1; 1]%nat; data := [1] |} ].
Proof.
  split; [apply img_track_check_spec|]. split; vm_compute; reflexivity.
Qed.

Lemma to_uint16_range v : 0 ≤ to_uint16 v < 65536.
Proof. unfold to_uint16. apply Z.mod_pos_bound. lia. Qed.

Lemma np_setitem_uint16_Forall (P : Z → Prop) out idx v out' :
  np_setitem_uint16 out idx v = Ok out' →
  Forall P (data out) → P (to_uint16 v) →
  shape out' = shape out ∧ Forall P (data out').
Proof.
  unfold np_setitem_uint16. intros H Hout Hv.
  destruct (ravel _ _) as [j|]; [|done]. inv_Ok H. simpl. split; [done|].
  by apply Forall_insert.
Qed.

Lemma scatter_uint16_Forall (P : Z → Prop) pos : ∀ out vals out',
  scatter_uint16 out pos vals = Ok out' →
  Forall P (data out) → Forall (λ v, P (to_uint16 v)) vals →
  shape out' = shape out ∧ Forall P (data out').
Proof.
  induction pos as [|p pos IH]; intros out vals out' H Hout Hvals.
  { simpl in H. by inv_Ok H. }
  destruct vals as [|v vals]; simpl in H; [by inv_Ok H|].
  inv_bind H as out1 H1. apply Forall_cons in Hvals as [Hv Hvals].
  eapply np_setitem_uint16_Forall in H1 as [Hs1 H1]; [|done..].
  eapply IH in H as [Hs H]; [|done..]. split; [congruence|done].
Qed.

Lemma _coordinates_to_image_spec x pos_data tracked_events out :
  _coordinates_to_image x pos_data tracked_events = Ok out →
  shape out = shape x
  ∧ Forall (λ v, 0 ≤ v < 65536
                 ∧ (v = 0 ∨ ∃ e, e ∈ tracked_events ∧ 0 < e ∧ v = e `mod` 65536))
      (data out).
Proof.
  unfold _coordinates_to_image. intros H.
  assert (Forall (λ v, 0 ≤ v < 65536
                 ∧ (v = 0 ∨ ∃ e, e ∈ tracked_events ∧ 0 < e ∧ v = e `mod` 65536))
            (replicate (length (data x)) 0)) as Hzero.
  { apply Forall_replicate. split; [lia|by left]. }
  case_bool_decide; [by inv_Ok H|].
  inv_bind H as pos Hpos. case_bool_decide; [done|].
  eapply scatter_uint16_Forall in H as [Hs H]; [split; [exact Hs|exact H]|exact Hzero|].
  apply Forall_forall. intros e He. split; [apply to_uint16_range|]. right.
  exists e. assert (e ∈ tracked_events) as Hin by (by eapply mask_select_elem_of).
  split; [done|]. split; [|done].
  clear -He. induction tracked_events as [|e' es IH]; simpl in He.
  { by apply not_elem_of_nil in He. }
  case_bool_decide.
  - apply elem_of_cons in He as [->|He]; [done|by apply IH].
  - by apply IH.
Qed.


(** ** The drift scenarios *)

(** C8. Frame 0 holds the points (0,0) and (0,1), frame 1 the points
    (0.5,0.5) and (0.5,1.5). With [epsPrev = 1] both rows of frame 1
    inherit id 1. With [epsPrev = 0.2] the rows would receive the fresh
    id 2, and the linking rule does give them that id when the radius is
    put in place after construction; but the constructor itself refuses
    the float 0.2 (and any float): [_validate_input] accepts only an int
    or None for [epsPrev]. *)
Theorem drift_scenario_float_radius_rejected :
  (∀ (E : Externals) eps q minClSz minSamples clusteringMethod
     propagationThreshold nPrev nJobs,
     ∃ msg, Linker_init eps (PyFloat q) minClSz minSamples clusteringMethod
              propagationThreshold nPrev nJobs = Raise (ValueError msg))
  ∧ Linker_init (E := reference_externals) (PyInt 1) (PyFloat (1 # 5)) (PyInt 1)
      (PyInt 1) (PyStr "dbscan") (PyInt 1) (PyInt 1) (PyInt 1)
    = Raise (ValueError "epsPrev must be a number or None")
  ∧ (let! L := Linker_init (E := reference_externals) (PyInt 1) (PyInt 1) (PyInt 1)
                 (PyInt 1) (PyStr "dbscan") (PyInt 1) (PyInt 1) (PyInt 1) in
     let! r := link_all (E := reference_externals) L [frame_a; frame_b] in
     Ok r.1)
    = Ok [([1; 1], 1); ([1; 1], 1)]
  ∧ (let! r := link_all (E := reference_externals)
                 (demo_linker_with_radius (PyFloat (1 # 5))) [frame_a; frame_b] in
     Ok r.1)
    = Ok [([1; 1], 1); ([2; 2], 2)].
Proof.
  split; [|split; [|split]]; try (vm_compute; reflexivity).
  intros E eps q minClSz minSamples cm pt nPrev nJobs.
  unfold Linker_init, _validate_input.
  destruct (negb (isinstance eps _)); by eexists.
Qed.

(** ** The tabular tracker *)

Lemma mapE_Forall2 {A B} (f : A → except B) l r :
  mapE f l = Ok r → Forall2 (λ a b, f a = Ok b) l r.
Proof.
  revert r. induction l as [|a l IH]; simpl; intros r H.
  - inv_Ok H. constructor.
  - inv_bind H as b Hb. inv_bind H as bs Hbs. inv_Ok H. constructor; auto.
Qed.

Lemma mapE_length {A B} (f : A → except B) l r :
  mapE f l = Ok r → length r = length l.
Proof. intros H%mapE_Forall2. symmetry. by eapply Forall2_length. Qed.

Lemma mask_select_all_false {A} (a : list A) mask :
  Forall (λ b, b = false) mask → mask_select a mask = [].
Proof.
  intros Hm. revert a. induction Hm as [|b mask -> _ IH]; intros [|v a]; simpl; auto.
Qed.

Lemma py_range_lookup n (k : nat) :
  (k < Z.to_nat n)%nat → py_range n !! k = Some (Z.of_nat k).
Proof.
  intros Hk. unfold py_range. by rewrite list_lookup_fmap, lookup_seq_lt.
Qed.

Lemma mapE_np_take {A B} (f : A → except B) (l : list A) (k : list B) (d : B) idx : ∀ l',
  mapE f l = Ok k → np_take l idx = Ok l' →
  mapE f l' = Ok ((λ i, default d (k !! i)) <$> idx).
Proof.
  induction idx as [|i idx IH]; intros l' Hk Hl; simpl in Hl.
  - by inv_Ok Hl.
  - destruct (l !! i) as [v|] eqn:Hv; [|done].
    inv_bind Hl as vs Hvs. inv_Ok Hl.
    pose proof (mapE_Forall2 _ _ _ Hk) as Hall.
    destruct (Forall2_lookup_l _ _ _ _ _ Hall Hv) as (b & Hb & Hfv).
    cbn [mapE]. rewrite Hfv. cbn [bind]. rewrite (IH vs Hk Hvs). cbn [bind].
    by rewrite fmap_cons, Hb.
Qed.

Lemma keys_leb_head a b k1 k2 :
  keys_leb (CInt a :: k1) (CInt b :: k2) = true → a ≤ b.
Proof.
  cbn [keys_leb cell_num]. unfold Qlt_bool. intros H.
  destruct (Z_le_gt_dec a b) as [|Hgt]; [done|]. exfalso.
  assert (Qle_bool (inject_Z b) (inject_Z a) = true) as Hba.
  { apply Qle_bool_iff. rewrite <- Zle_Qle. lia. }
  assert (Qle_bool (inject_Z a) (inject_Z b) = false) as Hab.
  { apply not_true_is_false. intros Hle%Qle_bool_iff. rewrite <- Zle_Qle in Hle. lia. }
  rewrite Hba, Hab in H. done.
Qed.

Lemma keys_frames_sorted (keys : list (list cell)) (frames : list Z) :
  Forall2 (λ k f, ∃ rest, k = CInt f :: rest) keys frames →
  Sorted (λ k1 k2, keys_leb k1 k2 = true) keys → Sorted Z.le frames.
Proof.
  induction 1 as [|k f keys frames [rest ->] Hall IH]; intros Hs; [constructor|].
  apply Sorted_inv in Hs as [Hs Hhd]. constructor; [by apply IH|].
  destruct Hall as [|k2 f2 keys frames [rest2 ->] _]; constructor.
  apply HdRel_inv in Hhd. by eapply keys_leb_head.
Qed.

Lemma query_frame_Ok x frame_col frames t x_frame :
  query_frame x frame_col frames t = Ok x_frame →
  x_frame = select_rows x ((λ f, bool_decide (f = t)) <$> frames).
Proof.
  unfold query_frame. destruct (negb (is_identifier frame_col)); [done|].
  case_bool_decide; [done|]. by intros [= <-].
Qed.


Section Table.
Context `{E : Externals}.

Lemma df_track_iteration_Ok self x out self' :
  df_track_iteration self x = Ok (out, self') →
  ∃ x_filtered coords L',
    df_filter_active x (bin_meas_column self) = Ok x_filtered
    ∧ _select_necessary_columns x_filtered (coordinates_column self) = Ok coords
    ∧ link (df_linker self) coords = Ok L'
    ∧ self' = df_set_linker self L'
    ∧ out = df_frame_output self x x_filtered (event_ids L').
Proof.
  unfold df_track_iteration. intros H.
  inv_bind H as xf Hxf. inv_bind H as coords Hco. inv_bind H as L' Hlink.
  exists xf, coords, L'. simpl in H. unfold df_frame_output.
  case_bool_decide as Hempty.
  - inv_Ok H. apply length_zero_iff_nil in Hempty.
    by rewrite (bool_decide_eq_true_2 (event_ids L' = [])) by done.
  - case_bool_decide; [|done]. inv_Ok H.
    rewrite (bool_decide_eq_false_2 (event_ids L' = [])); [done|].
    intros Hnil. by rewrite Hnil in Hempty.
Qed.

Lemma df_track_frames_spec self x_sorted frames ts : ∀ outs self',
  df_track_frames self x_sorted frames ts = Ok (outs, self') →
  ∃ inputs louts,
    mapE (df_frame_input self x_sorted frames) ts = Ok inputs
    ∧ link_all (df_linker self) inputs.*2 = Ok (louts, df_linker self')
    ∧ outs = zip_with (λ inp lo, df_frame_output self x_sorted inp.1 lo.1) inputs louts
    ∧ length louts = length inputs
    ∧ df_set_linker self (df_linker self') = self'.
Proof.
  revert self. induction ts as [|t ts IH]; intros self outs self' H; simpl in H.
  - inv_Ok H. exists [], []. by destruct self'.
  - inv_bind H as x_frame Hq.
    inv_bind H as [out self1] Hiter. inv_bind H as [rest self2] Hrest. inv_Ok H.
    apply df_track_iteration_Ok in Hiter as (xf & coords & L1 & Hxf & Hco & Hlink & -> & ->).
    apply IH in Hrest as (inputs & louts & Hin & Hall & -> & Hlen & Hself).
    exists ((xf, coords) :: inputs),
      ((event_ids L1, max_prev_cluster_id (_memory L1)) :: louts).
    split; [|split; [|split; [|split]]].
    + cbn [mapE]. unfold df_frame_input at 1. rewrite Hq. cbn [bind].
      rewrite Hxf. simpl. rewrite Hco. simpl.
      change (mapE (df_frame_input self x_sorted frames) ts)
        with (mapE (df_frame_input (df_set_linker self L1) x_sorted frames) ts).
      by rewrite Hin.
    + rewrite fmap_cons. cbn [link_all snd]. rewrite Hlink. cbn [bind].
      change (df_linker (df_set_linker self L1)) with L1 in Hall. by rewrite Hall.
    + simpl. f_equal. by apply query_frame_Ok in Hq as ->.
    + simpl. by rewrite Hlen.
    + done.
Qed.

Lemma df_frame_input_no_rows self x_sorted frames t inp :
  df_frame_input self x_sorted frames t = Ok inp →
  t ∉ frames → rows inp.1 = [] ∧ inp.2 = [].
Proof.
  unfold df_frame_input. intros H Ht. inv_bind H as x_frame Hframe.
  assert (rows x_frame = []) as Hq.
  { apply query_frame_Ok in Hframe as ->.
    unfold select_rows. simpl. apply mask_select_all_false.
    apply Forall_fmap, Forall_forall. intros f Hf. simpl.
    apply bool_decide_eq_false_2. by intros ->. }
  inv_bind H as xf Hxf. inv_bind H as coords Hco. inv_Ok H. simpl.
  assert (rows xf = []) as Hxf0.
  { unfold df_filter_active in Hxf. destruct (bin_meas_column self); [|by inv_Ok Hxf].
    inv_bind Hxf as col Hcol. inv_Ok Hxf. unfold select_rows at 1. cbn [rows].
    rewrite Hq. by destruct (_ <$> col). }
  split; [done|].
  unfold _select_necessary_columns, get_columns in Hco.
  inv_bind Hco as cells Hcells. inv_bind Hcells as idx Hidx.
  rewrite Hxf0 in Hcells. simpl in Hcells. inv_Ok Hcells. by inv_Ok Hco.
Qed.

Lemma _sort_input_spec `{!ExternalsOk E} x frame_col id_col x_sorted :
  _sort_input x frame_col id_col = Ok x_sorted →
  columns x_sorted = columns x ∧ rows x_sorted ≡ₚ rows x.
Proof.
  unfold _sort_input. intros H. inv_bind H as keys Hkeys. inv_bind H as sorted Hsorted.
  inv_Ok H. simpl. split; [done|].
  apply (np_take_fmap _ _ _ []) in Hsorted. rewrite Hsorted.
  unfold get_columns in Hkeys. inv_bind Hkeys as idx Hidx.
  apply mapE_length in Hkeys.
  by rewrite (sort_values_order_perm keys), Hkeys, fmap_lookup_seq.
Qed.

Lemma _sort_input_sorted `{!ExternalsOk E} x frame_col id_col x_sorted :
  _sort_input x frame_col id_col = Ok x_sorted →
  ∃ keys, get_columns x_sorted (sort_by frame_col id_col) = Ok keys
          ∧ Sorted (λ k1 k2, keys_leb k1 k2 = true) keys.
Proof.
  unfold _sort_input. fold (sort_by frame_col id_col). intros H.
  inv_bind H as keys Hkeys. inv_bind H as sorted Hsorted. inv_Ok H.
  unfold get_columns in Hkeys |- *. inv_bind Hkeys as idx Hidx.
  change (mapE (column_index {| columns := columns x; rows := sorted |}))
    with (mapE (column_index x)).
  rewrite Hidx. cbn [bind rows].
  rewrite (mapE_np_take _ _ _ [] _ _ Hkeys Hsorted).
  eexists. split; [done|]. apply sort_values_order_sorted.
Qed.

Lemma sort_keys_frames x frame_col id_col keys frames :
  get_columns x (sort_by frame_col id_col) = Ok keys →
  get_column x frame_col = Ok (CInt <$> frames) →
  Forall2 (λ k f, ∃ rest, k = CInt f :: rest) keys frames.
Proof.
  unfold get_columns, get_column. intros Hkeys Hcol.
  inv_bind Hkeys as idx Hidx. inv_bind Hcol as i Hi.
  assert (∃ rest, idx = i :: rest) as [rest ->].
  { unfold sort_by in Hidx.
    destruct id_col as [c|]; [case_bool_decide|]; cbn [mapE] in Hidx;
      rewrite Hi in Hidx; cbn [bind] in Hidx.
    - inv_Ok Hidx. by eexists.
    - inv_bind Hidx as j Hj. inv_Ok Hidx. by eexists.
    - inv_Ok Hidx. by eexists. }
  apply mapE_Forall2 in Hkeys, Hcol.
  revert keys frames Hkeys Hcol. induction (rows x) as [|r rs IH]; intros keys frames Hk Hf.
  - apply Forall2_nil_inv_l in Hk as ->. apply Forall2_nil_inv_l in Hf.
    destruct frames; [constructor|done].
  - apply Forall2_cons_inv_l in Hk as (k & keys' & Hk & Hks & ->).
    apply Forall2_cons_inv_l in Hf as (c & cs & Hc & Hcs & Hfr).
    destruct frames as [|f frames]; [done|]. rewrite fmap_cons in Hfr.
    injection Hfr as <- <-. constructor; [|by apply IH].
    cbn [mapE] in Hk. rewrite Hc in Hk. cbn [bind] in Hk.
    inv_bind Hk as others Ho. inv_Ok Hk. by eexists.
Qed.

End Table.

(** C7. [track] rejects an empty table; otherwise it sorts the table once,
    by frame and then by object id when there is one (the sorted table
    holds the rows of the input in non-decreasing order of these keys),
    and runs one iteration for every integer [t] from 0 to [max(frame)],
    each of them calling [link] on the coordinates of the active rows of
    frame [t], an empty array when the frame has no rows, and emitting the
    active rows with the event ids, or with the event-id column set to 0
    when [link] produced no ids. *)
Theorem df_track_every_frame `{E : Externals} `{!ExternalsOk E} self x outs self' :
  df_track self x = Ok (outs, self') →
  df_empty x = false
  ∧ (∀ x0, df_empty x0 = true → df_track self x0 = Raise (ValueError "Input is empty"))
  ∧ ∃ x_sorted frames fmax inputs louts,
      _sort_input x (frame_column self) (id_column self) = Ok x_sorted
      ∧ columns x_sorted = columns x ∧ rows x_sorted ≡ₚ rows x
      ∧ (∃ keys, get_columns x_sorted (sort_by (frame_column self) (id_column self)) = Ok keys
                 ∧ Sorted (λ k1 k2, keys_leb k1 k2 = true) keys)
      ∧ get_column x_sorted (frame_column self) = Ok (CInt <$> frames)
      ∧ Sorted Z.le frames
      ∧ np_nanmax frames = Ok fmax
      ∧ mapE (df_frame_input self x_sorted frames) (py_range (fmax + 1)) = Ok inputs
      ∧ link_all (df_linker self) inputs.*2 = Ok (louts, df_linker self')
      ∧ length outs = Z.to_nat (fmax + 1)
      ∧ length inputs = Z.to_nat (fmax + 1)
      ∧ length louts = Z.to_nat (fmax + 1)
      ∧ outs = zip_with (λ inp lo, df_frame_output self x_sorted inp.1 lo.1) inputs louts
      ∧ (∀ (t : nat) inp, inputs !! t = Some inp → Z.of_nat t ∉ frames →
           rows inp.1 = [] ∧ inp.2 = [])
      ∧ (∀ (t : nat) inp lo, inputs !! t = Some inp → louts !! t = Some lo → lo.1 = [] →
           ∃ df_out,
             df_out = (if bool_decide (collid_column self ∈ columns x_sorted)
                       then drop_column inp.1 (collid_column self) else inp.1)
             ∧ outs !! t = Some (set_column df_out (collid_column self)
                                   (replicate (length (rows df_out)) (CInt 0)))).
Proof.
  intros H. unfold df_track in H.
  destruct (df_empty x) eqn:Hempty; [done|]. split; [done|]. split.
  { intros x0 Hx0. unfold df_track. by rewrite Hx0. }
  inv_bind H as x_sorted Hsort. inv_bind H as fcol Hfcol. inv_bind H as frames Hframes.
  inv_bind H as fmax Hmax.
  apply df_track_frames_spec in H as (inputs & louts & Hin & Hall & Houts & Hlen & _).
  pose proof (_sort_input_spec _ _ _ _ Hsort) as [Hcols Hrows].
  assert (fcol = CInt <$> frames) as ->.
  { apply mapE_Forall2 in Hframes. clear -Hframes.
    induction Hframes as [|c z fcol frames Hc _ IH]; [done|].
    destruct c; simpl in Hc; [|done]. injection Hc as <-. rewrite fmap_cons. by f_equal. }
  pose proof (mapE_length _ _ _ Hin) as Hlenin.
  assert (length (py_range (fmax + 1)) = Z.to_nat (fmax + 1)) as Hlenr.
  { unfold py_range. by rewrite length_fmap, length_seq. }
  destruct (_sort_input_sorted _ _ _ _ Hsort) as (keys & Hkeys & Hsorted).
  pose proof (keys_frames_sorted _ _ (sort_keys_frames _ _ _ _ _ Hkeys Hfcol) Hsorted)
    as Hfsorted.
  exists x_sorted, frames, fmax, inputs, louts.
  split; [done|]. split; [done|]. split; [done|]. split; [by exists keys|].
  split; [done|]. split; [done|]. split; [done|].
  split; [done|]. split; [done|].
  split; [rewrite Houts, length_zip_with; lia|]. split; [lia|]. split; [lia|].
  split; [done|]. split.
  - intros t inp Ht Hnot. apply mapE_Forall2 in Hin.
    assert (t < Z.to_nat (fmax + 1))%nat as Hlt by (apply lookup_lt_Some in Ht; lia).
    eapply Forall2_lookup_r in Hin as (t' & Ht' & Hinp); [|exact Ht].
    rewrite py_range_lookup in Ht' by done. inv_Ok Ht'.
    by eapply df_frame_input_no_rows.
  - intros t inp lo Ht Hlo Hnil. eexists. split; [done|].
    rewrite Houts, lookup_zip_with, Ht, Hlo. simpl.
    unfold df_frame_output. by rewrite Hnil.
Qed.

(** ** Where the ids of a frame come from *)

Section Origin.
Context `{E : Externals}.

Lemma brute_force_linking_origin cl cc mem_ids tree thr eps c nj ids c' :
  brute_force_linking cl cc mem_ids tree thr eps c nj = Ok (ids, c') →
  (c' = c ∨ c' = c + 1) ∧ Forall (λ i, i ∈ mem_ids ∨ c < i ≤ c') ids.
Proof.
  unfold brute_force_linking. intros H.
  inv_bind H as nn Hnn. inv_bind H as prev Hprev. inv_bind H as within Hwithin.
  assert (Forall (λ i, i ∈ mem_ids ∨ c < i ≤ c + 1) (replicate (length cl) (c + 1)))
    as Hrep.
  { apply Forall_replicate. right. lia. }
  case_bool_decide; [injection H as <- <-; split; [by right|done]|].
  case_bool_decide; injection H as <- <-; [split; [by right|done]|].
  split; [by left|]. apply Forall_forall. intros i Hi. left.
  by eapply np_take_elem_of.
Qed.

Lemma link_clusters_origin L groups res L' :
  link_clusters L groups = Ok (res, L') →
  ∃ c', L' = with_counter L c' ∧ counter L ≤ c'
        ∧ Forall (λ i, i ∈ memory_ids L ∨ counter L < i ≤ c') (concat res).
Proof.
  revert L res L'. induction groups as [|[cl cc] groups IH]; intros L res L' H.
  - simpl in H. injection H as <- <-. exists (counter L). unfold counter.
    rewrite with_counter_id. split; [done|]. split; [lia|constructor].
  - cbn [link_clusters] in H.
    inv_bind H as [ids L1] H1. inv_bind H as [rest L2] H2. injection H as <- <-.
    apply _link_next_cluster_Ok in H1 as (mem_ids & tree & c1 & Hids & _ & Hbf & ->).
    apply all_cluster_ids_Ok in Hids as ->.
    apply brute_force_linking_origin in Hbf as [Hc1 Hids1].
    apply IH in H2 as (c' & -> & Hc' & Hrest).
    unfold counter, memory_ids in *. simpl in *.
    exists c'. split; [by rewrite with_counter_twice|]. split; [lia|].
    apply Forall_app. split.
    + eapply Forall_impl; [exact Hids1|]. simpl. intros i [Hi|Hi]; [by left|right; lia].
    + eapply Forall_impl; [exact Hrest|]. simpl. intros i [Hi|Hi]; [by left|right; lia].
Qed.

Lemma _update_id_origin L cl co ids L' :
  _update_id L cl co = Ok (ids, L') →
  counter L ≤ counter L'
  ∧ Forall (λ i, i ∈ memory_ids L ∨ counter L < i ≤ counter L') ids.
Proof.
  unfold _update_id. intros H. inv_bind H as tree Htree.
  inv_bind H as [[key gcl] gco] Hgroup. inv_bind H as [linked L1] Hlink.
  inv_bind H as taken Htaken. injection H as <- <-.
  apply link_clusters_origin in Hlink as (c' & -> & Hc' & Hids).
  unfold counter, memory_ids in *. simpl in *. split; [done|].
  apply Forall_forall. intros i Hi. eapply np_take_elem_of in Hi; [|done].
  by apply (proj1 (Forall_forall _ _) Hids).
Qed.

Lemma link_origin L x L' :
  Linker_inv L → link L x = Ok L' →
  Forall (λ i, i = -1 ∨ i ∈ memory_ids L ∨ counter L < i ≤ counter L') (event_ids L').
Proof.
  intros HL Hlink.
  apply link_inv in Hlink as (cl & co & nan & linked & L1 & m & Hcl & Hpath & Hm & Hev & HL').
  assert (counter L' = counter L1) as Hc.
  { apply memory_update_Ok in Hm as (cs & ps & -> & _). by rewrite HL'. }
  eapply np_put_mask_Forall; [exact Hev|apply Forall_replicate; by left|].
  rewrite Hc. destruct Hpath as [[_ Hpath]|[_ Hpath]].
  - destruct (_update_id_empty_spec L cl) as (Hlinked & c' & HL1 & Hc0 & Hc1).
    rewrite Hpath in Hlinked, HL1. simpl in Hlinked, HL1. subst linked L1.
    pose proof (_clustering_labels _ _ _ _ _ (inv_labels _ HL) Hcl) as Hpos.
    destruct (decide (cl = [])) as [->|Hne]; [constructor|].
    destruct (Hc1 Hne) as [_ Hmax].
    apply Forall_forall. intros i Hi. right. right. unfold counter at 2. simpl.
    pose proof (proj1 (Forall_forall _ _) Hmax i Hi).
    apply list_elem_of_fmap in Hi as (l & -> & Hl).
    apply (proj1 (Forall_forall _ _) Hpos) in Hl. lia.
  - apply _update_id_origin in Hpath as [_ Hids].
    eapply Forall_impl; [exact Hids|]. simpl. tauto.
Qed.

(** The ids held by the memory after a call are ids it held before or
    ids emitted by the call. *)
Lemma link_memory_ids L x L' :
  Linker_inv L → link L x = Ok L' →
  ∀ i, i ∈ memory_ids L' → i ∈ memory_ids L ∨ counter L < i ≤ counter L'.
Proof.
  intros HL Hlink.
  apply link_inv in Hlink as (cl & co & nan & linked & L1 & m & Hcl & Hpath & Hm & Hev & HL').
  assert (_memory L1 = set_max_prev_cluster_id (_memory L) (counter L1)
          ∧ counter L ≤ counter L1
          ∧ Forall (λ i, i ∈ memory_ids L ∨ counter L < i ≤ counter L1) linked)
    as (Hmem & Hle & Hlinked).
  { destruct Hpath as [[_ Hpath]|[_ Hpath]].
    - destruct (_update_id_empty_spec L cl) as (Hlinked & c' & HL1 & Hc0 & Hc1).
      rewrite Hpath in Hlinked, HL1. simpl in Hlinked, HL1. subst linked L1.
      pose proof (_clustering_labels _ _ _ _ _ (inv_labels _ HL) Hcl) as Hpos.
      split; [done|]. unfold counter at 2 4. simpl.
      destruct (decide (cl = [])) as [->|Hne]; [rewrite Hc0 by done; split; [lia|constructor]|].
      destruct (Hc1 Hne) as [Hin Hmax]. split.
      + apply list_elem_of_fmap in Hin as (l & -> & Hl).
        apply (proj1 (Forall_forall _ _) Hpos) in Hl. lia.
      + apply Forall_forall. intros i Hi. right.
        pose proof (proj1 (Forall_forall _ _) Hmax i Hi).
        apply list_elem_of_fmap in Hi as (l & -> & Hl).
        apply (proj1 (Forall_forall _ _) Hpos) in Hl. lia.
    - pose proof Hpath as Hids. apply _update_id_origin in Hids as [Hle Hids].
      apply _update_id_ids in Hpath as (c' & -> & _ & _); [|apply HL..].
      done. }
  intros i Hi. unfold memory_ids in Hi.
  apply memory_update_Ok in Hm as (cs & ps & -> & Hcase).
  rewrite HL' in Hi |- *. unfold counter at 2. simpl in *.
  rewrite concat_app in Hi. simpl in Hi. rewrite app_nil_r in Hi.
  apply elem_of_app in Hi as [Hi|Hi].
  - left. unfold memory_ids. rewrite Hmem in Hcase. simpl in Hcase.
    destruct Hcase as [(_ & _ & [p0 Hp])|(_ & _ & ->)]; [|done].
    rewrite Hp. simpl. apply elem_of_app. by right.
  - by apply (proj1 (Forall_forall _ _) Hlinked).
Qed.

End Origin.

(** X1. Every id a [link] call emits is the noise sentinel, an id the
    memory held when the call began, or a fresh id above the counter. *)
Theorem link_ids_inherited_or_fresh `{E : Externals} L x L' :
  reachable L → link L x = Ok L' →
  Forall (λ i, i = -1 ∨ i ∈ memory_ids L ∨ counter L < i ≤ counter L') (event_ids L').
Proof. intros HL%reachable_inv. by apply link_origin. Qed.

(** X2. Event ids are not reused: an id that was given out before and
    that the memory no longer holds is emitted by no later call. *)
Theorem forgotten_id_never_returns `{E : Externals} L frames outs L' i :
  reachable L → link_all L frames = Ok (outs, L') →
  i ≠ -1 → i ≤ counter L → i ∉ memory_ids L →
  Forall (λ out, i ∉ out.1) outs ∧ i ∉ memory_ids L'.
Proof.
  intros HL%reachable_inv H Hi. revert L outs HL H.
  induction frames as [|x frames IH]; intros L outs HL H Hc Hmem.
  - simpl in H. injection H as <- <-. split; [constructor|done].
  - cbn [link_all] in H. inv_bind H as L1 H1. inv_bind H as [outs1 L2] H2.
    injection H as <- <-.
    pose proof (link_step _ _ _ HL H1) as (HL1 & Hle & _).
    pose proof (link_origin _ _ _ HL H1) as Hev.
    pose proof (link_memory_ids _ _ _ HL H1) as Hmem1.
    unfold counter in *.
    destruct (IH L1 outs1 HL1 H2) as [Houts HL2]; [lia| |].
    { intros Hin. apply Hmem1 in Hin as [Hin|Hin]; [done|lia]. }
    split; [|done]. constructor; [|done]. simpl. intros Hin.
    apply (proj1 (Forall_forall _ _) Hev) in Hin as [Hin|[Hin|Hin]]; [done|done|lia].
Qed.

(** ** The window of the memory *)

Lemma last_frames_all {A} (n : Z) (l : list A) :
  Z.of_nat (length l) ≤ n → last_frames n l = l.
Proof.
  intros Hn. unfold last_frames.
  replace (length l - Z.to_nat n)%nat with 0%nat by lia. apply drop_0.
Qed.

Lemma last_frames_app {A} (n : Z) (l r : list A) :
  last_frames n (last_frames n l ++ r) = last_frames n (l ++ r).
Proof.
  unfold last_frames. rewrite !length_app, !length_drop.
  destruct (decide (length l ≤ Z.to_nat n)%nat) as [Hk|Hk].
  { replace (length l - Z.to_nat n)%nat with 0%nat by lia.
    rewrite drop_0. f_equal. lia. }
  destruct (decide (length r ≤ Z.to_nat n)%nat) as [Hm|Hm].
  - rewrite !drop_app_le by (rewrite ?length_drop; lia).
    rewrite drop_drop. f_equal. f_equal. lia.
  - rewrite !drop_app_ge by (rewrite ?length_drop; lia).
    rewrite length_drop. f_equal. lia.
Qed.

Section Window.
Context `{E : Externals} `{!ExternalsOk E}.

Lemma _update_id_length L cl co ids L' :
  _update_id L cl co = Ok (ids, L') → length ids = length cl.
Proof.
  unfold _update_id. intros H. inv_bind H as tree Htree.
  inv_bind H as [[key gcl] gco] Hgroup. inv_bind H as [linked L1] Hlink.
  inv_bind H as taken Htaken. injection H as <- <-.
  apply np_take_length in Htaken. rewrite Htaken.
  rewrite (np_argsort_perm (Z.of_nat <$> key)), length_seq, length_fmap.
  unfold _group_by_clusterid in Hgroup.
  inv_bind Hgroup as sl Hsl. inv_bind Hgroup as sc Hsc.
  destruct (_group_data sl) as [u g]. injection Hgroup as <- _ _.
  by rewrite (np_argsort_perm cl), length_seq.
Qed.

Lemma _clustering_same L L1 x :
  clustering_function L1 = clustering_function L → _clustering L1 x = _clustering L x.
Proof. unfold _clustering. by intros ->. Qed.

(** What one call does to the memory: the oldest frame leaves when the
    window is full, and the kept rows enter with the ids they were
    given. *)
Lemma link_memory_step L x L' :
  Linker_inv L → link L x = Ok L' →
  ∃ cs ps,
    coordinates (_memory L') = cs ++ [kept_rows L x]
    ∧ prev_cluster_ids (_memory L') = ps ++ [kept_ids L x (event_ids L')]
    ∧ (Z.of_nat (length (coordinates (_memory L))) = n_timepoints (_memory L)
       ∧ (∃ c0, coordinates (_memory L) = c0 :: cs)
       ∧ (∃ p0, prev_cluster_ids (_memory L) = p0 :: ps)
       ∨ Z.of_nat (length (coordinates (_memory L))) ≠ n_timepoints (_memory L)
         ∧ cs = coordinates (_memory L) ∧ ps = prev_cluster_ids (_memory L)).
Proof.
  intros HL Hlink.
  apply link_inv in Hlink as (cl & co & nan & linked & L1 & m & Hcl & Hpath & Hm & Hev & HL').
  assert (∃ c', _memory L1 = set_max_prev_cluster_id (_memory L) c') as [c' Hmem].
  { destruct Hpath as [[_ Hpath]|[_ Hpath]].
    - destruct (_update_id_empty_spec L cl) as (_ & c' & HL1 & _).
      rewrite Hpath in HL1. simpl in HL1. subst L1. by exists c'.
    - apply _update_id_ids in Hpath as (c' & -> & _ & _); [|apply HL..].
      by exists c'. }
  assert (length linked = length cl) as Hlen.
  { destruct Hpath as [[_ Hpath]|[_ Hpath]].
    - destruct (_update_id_empty_spec L cl) as (Hlinked & _).
      rewrite Hpath in Hlinked. simpl in Hlinked. subst linked. by rewrite length_fmap.
    - by eapply _update_id_length. }
  pose proof (_clustering_lengths _ _ _ _ _ Hcl) as (Hcount & _ & _).
  unfold np_put_mask in Hev. rewrite decide_True in Hev by congruence.
  injection Hev as Hev.
  apply memory_update_Ok in Hm as (cs & ps & -> & Hcase).
  rewrite Hmem in Hcase. simpl in Hcase.
  exists cs, ps. rewrite HL'. simpl. unfold kept_rows, kept_ids, kept_mask. rewrite Hcl.
  split; [done|]. split; [|done]. f_equal. f_equal.
  rewrite <- Hev. symmetry. apply mask_select_fill; [|congruence].
  by rewrite length_replicate, length_fmap.
Qed.

Lemma link_kept_same L x L1 y :
  link L x = Ok L1 → Linker_inv L →
  kept_rows L1 y = kept_rows L y ∧ kept_mask L1 y = kept_mask L y.
Proof.
  intros Hlink HL. pose proof (link_step _ _ _ HL Hlink) as (_ & _ & _ & Hcf & _).
  unfold kept_rows, kept_mask. by rewrite (_clustering_same L L1 y Hcf).
Qed.

Lemma kept_rows_after L x L1 (frames : list (list coord)) :
  link L x = Ok L1 → Linker_inv L → kept_rows L1 <$> frames = kept_rows L <$> frames.
Proof.
  intros Hlink HL. apply list_fmap_ext. intros _ y _.
  by apply (link_kept_same L x L1 y).
Qed.

Lemma kept_ids_after L x L1 (frames : list (list coord)) (ids : list (list Z)) :
  link L x = Ok L1 → Linker_inv L →
  zip_with (kept_ids L1) frames ids = zip_with (kept_ids L) frames ids.
Proof.
  intros Hlink HL. apply zip_with_ext_elem. intros y i _. unfold kept_ids.
  by destruct (link_kept_same L x L1 y Hlink HL) as [_ ->].
Qed.

End Window.

(** X3. The memory is a sliding window: after any sequence of [link] calls
    on a Linker with [nPrev >= 1] it holds the kept rows of the last
    [nPrev] frames, oldest first, each with the event ids its rows were
    given. *)
Theorem link_all_memory_window `{E : Externals} `{!ExternalsOk E} L frames outs L' :
  reachable L → 1 ≤ n_timepoints (_memory L) →
  link_all L frames = Ok (outs, L') →
  let n := n_timepoints (_memory L) in
  coordinates (_memory L')
    = last_frames n (coordinates (_memory L) ++ (kept_rows L <$> frames))
  ∧ prev_cluster_ids (_memory L')
    = last_frames n (prev_cluster_ids (_memory L)
                     ++ zip_with (kept_ids L) frames outs.*1).
Proof.
  intros HL%reachable_inv Hn H n. subst n. revert L outs HL Hn H.
  induction frames as [|x frames IH]; intros L outs HL Hn H.
  - simpl in H. injection H as <- <-. simpl. rewrite !app_nil_r.
    pose proof (inv_bound _ HL) as Hbd. pose proof (inv_frames _ HL) as Hfr.
    rewrite !last_frames_all; [done|rewrite <- Hfr|]; apply Hbd; lia.
  - cbn [link_all] in H. inv_bind H as L1 H1. inv_bind H as [outs1 L2] H2.
    injection H as <- <-.
    pose proof (link_step _ _ _ HL H1) as (HL1 & _ & _ & _ & _ & _ & Hnt).
    destruct (IH L1 outs1 HL1) as [Hco Hids]; [lia|done|].
    destruct (link_memory_step _ _ _ HL H1) as (cs & ps & Hcs & Hps & Hcase).
    pose proof (inv_bound _ HL) as Hbd. pose proof (inv_frames _ HL) as Hfr.
    assert (coordinates (_memory L1)
            = last_frames (n_timepoints (_memory L)) (coordinates (_memory L) ++ [kept_rows L x])
            ∧ prev_cluster_ids (_memory L1)
              = last_frames (n_timepoints (_memory L))
                  (prev_cluster_ids (_memory L) ++ [kept_ids L x (event_ids L1)]))
      as [Hco1 Hids1].
    { rewrite Hcs, Hps.
      destruct Hcase as [(Hfull & [c0 Hc0] & [p0 Hp0])|(Hnot & -> & ->)].
      - rewrite Hc0, Hp0 in *. unfold last_frames. simpl in Hfull, Hfr.
        rewrite !length_app. simpl.
        replace (S (length cs + 1) - Z.to_nat (n_timepoints (_memory L)))%nat
          with 1%nat by lia.
        replace (S (length ps + 1) - Z.to_nat (n_timepoints (_memory L)))%nat
          with 1%nat by lia.
        done.
      - rewrite !last_frames_all; [done|rewrite length_app; simpl..].
        + rewrite <- Hfr. lia.
        + lia. }
    rewrite Hnt in Hco, Hids. rewrite Hco, Hids, Hco1, Hids1, !last_frames_app.
    rewrite <- !(assoc (++)). rewrite !fmap_cons. cbn [zip_with fst].
    rewrite (kept_rows_after L x L1 frames H1 HL).
    by rewrite (kept_ids_after L x L1 frames outs1.*1 H1 HL).
Qed.

(** X4. A negative [nPrev] passes the constructor and makes the memory
    unbounded: no frame ever leaves it. *)
Theorem link_all_negative_window `{E : Externals} `{!ExternalsOk E} L frames outs L' :
  reachable L → n_timepoints (_memory L) < 0 →
  link_all L frames = Ok (outs, L') →
  coordinates (_memory L') = coordinates (_memory L) ++ (kept_rows L <$> frames)
  ∧ prev_cluster_ids (_memory L')
    = prev_cluster_ids (_memory L) ++ zip_with (kept_ids L) frames outs.*1.
Proof.
  intros HL%reachable_inv Hn H. revert L outs HL Hn H.
  induction frames as [|x frames IH]; intros L outs HL Hn H.
  - simpl in H. injection H as <- <-. simpl. by rewrite !app_nil_r.
  - cbn [link_all] in H. inv_bind H as L1 H1. inv_bind H as [outs1 L2] H2.
    injection H as <- <-.
    pose proof (link_step _ _ _ HL H1) as (HL1 & _ & _ & _ & _ & _ & Hnt).
    destruct (IH L1 outs1 HL1) as [Hco Hids]; [lia|done|].
    destruct (link_memory_step _ _ _ HL H1) as (cs & ps & Hcs & Hps & Hcase).
    destruct Hcase as [(Hfull & _)|(_ & -> & ->)]; [lia|].
    rewrite Hco, Hids, Hcs, Hps, <- !(assoc (++)), !fmap_cons. cbn [zip_with fst].
    rewrite (kept_rows_after L x L1 frames H1 HL).
    by rewrite (kept_ids_after L x L1 frames outs1.*1 H1 HL).
Qed.

(** X5. With [nPrev = 0] no [link] call returns: once the clusterer has
    run, [memory.update] pops from an empty list and raises
    [IndexError]. *)
Theorem link_zero_window_raises `{E : Externals} L x :
  reachable L → n_timepoints (_memory L) = 0 →
  link L x = match _clustering L x with
             | Ok _ => Raise IndexError
             | Raise e => Raise e
             end.
Proof.
  intros HL%reachable_inv Hn.
  pose proof (inv_bound _ HL) as Hbd. pose proof (inv_frames _ HL) as Hfr.
  assert (coordinates (_memory L) = []) as Hco.
  { apply length_zero_iff_nil. lia. }
  assert (prev_cluster_ids (_memory L) = []) as Hps.
  { apply length_zero_iff_nil. rewrite <- Hfr, Hco. done. }
  unfold link. destruct (_clustering L x) as [[[cl co] nan]|e]; [|done].
  cbn [bind]. rewrite Hps. cbn [length]. rewrite bool_decide_eq_true_2 by done.
  cbn [bind]. destruct (_update_id_empty_spec L cl) as (_ & c' & HL1 & _).
  destruct (_update_id_empty L cl) as [linked L1]. simpl in HL1. subst L1.
  unfold memory_update. simpl. rewrite Hco. simpl.
  rewrite bool_decide_eq_true_2 by lia. done.
Qed.

(** ** [link] does not raise *)

Lemma np_split_from_lengths {A B} idx : ∀ s (a : list A) (b : list B),
  length a = length b →
  Forall2 (λ x y, length x = length y) (np_split_from s idx a) (np_split_from s idx b).
Proof.
  induction idx as [|i idx IH]; intros s a b Hlen; simpl.
  - constructor; [|constructor]. rewrite !length_drop. lia.
  - constructor; [|by apply IH]. rewrite !length_take, !length_drop. lia.
Qed.

Lemma concat_length_Forall2 {A B} (l : list (list A)) (k : list (list B)) :
  Forall2 (λ x y, length x = length y) l k → length (concat l) = length (concat k).
Proof. induction 1; simpl; [done|]. rewrite !length_app. lia. Qed.

Lemma np_split_from_Forall {A} (P : A → Prop) idx : ∀ s (a : list A),
  Forall P a → Forall (Forall P) (np_split_from s idx a).
Proof.
  induction idx as [|i idx IH]; intros s a Ha; simpl.
  - constructor; [|constructor]. by apply Forall_drop.
  - constructor; [|by apply IH]. by apply Forall_take, Forall_drop.
Qed.

Lemma np_take_Forall {A} (P : A → Prop) (a : list A) idx r :
  np_take a idx = Ok r → Forall P a → Forall P r.
Proof.
  intros H Ha. apply Forall_forall. intros v Hv.
  eapply np_take_elem_of in Hv; [|done]. by apply (proj1 (Forall_forall _ _) Ha).
Qed.

Section Total.
Context `{E : Externals} `{!ExternalsOk E}.

Lemma link_n_jobs L x L' : Linker_inv L → link L x = Ok L' → n_jobs L' = n_jobs L.
Proof.
  intros HL Hlink.
  apply link_inv in Hlink as (cl & co & nan & linked & L1 & m & _ & Hpath & _ & _ & ->).
  simpl. destruct Hpath as [[_ Hpath]|[_ Hpath]].
  - destruct (_update_id_empty_spec L cl) as (_ & c' & HL1 & _).
    rewrite Hpath in HL1. simpl in HL1. by subst L1.
  - apply _update_id_ids in Hpath as (c' & -> & _ & _); [done|apply HL..].
Qed.

Lemma _clustering_total L x d :
  well_shaped d x → (0 < d)%nat → clusters_rows L x →
  ∃ cl co nan, _clustering L x = Ok (cl, co, nan)
    ∧ length cl = length co ∧ count_true (negb <$> nan) = length cl
    ∧ well_shaped d co.
Proof.
  intros Hx Hd Hcl. unfold _clustering. case_bool_decide as Hsz.
  - assert (x = []) as ->.
    { apply np_size_zero_iff; [|done]. eapply Forall_impl; [exact Hx|].
      simpl. intros r Hr ->. simpl in Hr. lia. }
    by exists [], [], [].
  - destruct Hcl as (ls & Hls & Hlen); [by intros ->|].
    rewrite Hls. cbn [bind]. unfold np_mask.
    rewrite !length_fmap. rewrite !decide_True by done. cbn [bind].
    eexists _, _, _. split; [done|]. fold (kept ls).
    rewrite mask_select_isnan, omap_length_kept.
    split; [|split; [done|]].
    + symmetry. apply mask_select_length. unfold kept. by rewrite !length_fmap.
    + apply Forall_forall. intros r Hr. apply mask_select_elem_of in Hr.
      by apply (proj1 (Forall_forall _ _) Hx).
Qed.

Lemma brute_force_linking_total cl cc mem_ids tree thr epsv e c nj d :
  tree ≠ [] → (length tree ≤ length mem_ids)%nat → as_number epsv = Some e →
  length cl = length cc →
  nj = -1 ∨ 1 ≤ nj → well_shaped d tree → well_shaped d cc →
  ∃ ids c', brute_force_linking cl cc mem_ids tree thr epsv c nj = Ok (ids, c')
            ∧ length ids = length cl.
Proof.
  intros Htree Hlen He Hcc Hnj Hdt Hdc. unfold brute_force_linking.
  rewrite (kdtree_query_same d) by done. cbn [bind].
  destruct (np_take_in_range mem_ids ((KDTree_query tree <$> cc).*2)) as [prev Hprev].
  { apply Forall_fmap, Forall_fmap, Forall_forall. intros p _. simpl.
    destruct (KDTree_query_nearest tree p Htree) as (q & Hq & _).
    apply lookup_lt_Some in Hq. lia. }
  rewrite Hprev. cbn [bind]. unfold np_dist_le. rewrite He. cbn [bind].
  apply np_take_length in Hprev. rewrite !length_fmap in Hprev.
  case_bool_decide; [eexists _, _; split; [done|]; by rewrite length_replicate|].
  case_bool_decide; eexists _, _; (split; [done|]);
    [by rewrite length_replicate|congruence].
Qed.

Lemma link_clusters_total L groups mem_ids tree e d :
  all_cluster_ids (_memory L) = Ok mem_ids → _nn_tree L = Some tree →
  tree ≠ [] → (length tree ≤ length mem_ids)%nat →
  as_number (epsPrev L) = Some e →
  n_jobs L = -1 ∨ 1 ≤ n_jobs L → well_shaped d tree →
  Forall (λ g, length g.1 = length g.2 ∧ well_shaped d g.2) groups →
  ∃ res L', link_clusters L groups = Ok (res, L')
            ∧ length (concat res) = length (concat groups.*1).
Proof.
  intros Hmem Htree Hne Hlen He Hnj Hdt. revert L Hmem Htree He Hnj.
  induction groups as [|[cl cc] groups IH]; intros L Hmem Htree He Hnj Hgroups.
  - by exists [], L.
  - apply Forall_cons in Hgroups as [[Hg Hdg] Hgroups]. simpl in Hg, Hdg.
    cbn [link_clusters]. unfold _link_next_cluster.
    rewrite Hmem, Htree. cbn [bind from_option].
    destruct (brute_force_linking_total cl cc mem_ids tree (propagation_threshold L)
                (epsPrev L) e (max_prev_cluster_id (_memory L)) (n_jobs L) d)
      as (ids & c' & -> & Hids); [done..|].
    cbn [bind].
    destruct (IH (set_memory L (set_max_prev_cluster_id (_memory L) c')))
      as (res & L' & -> & Hres); [done..|].
    cbn [bind]. eexists _, _. split; [done|].
    rewrite fmap_cons. simpl. rewrite !length_app. lia.
Qed.

Lemma _update_id_total L cl co e d :
  aligned L → memory_ids L ≠ [] → cl ≠ [] → length cl = length co →
  as_number (epsPrev L) = Some e →
  n_jobs L = -1 ∨ 1 ≤ n_jobs L →
  Forall (well_shaped d) (coordinates (_memory L)) → well_shaped d co →
  ∃ ids L', _update_id L cl co = Ok (ids, L').
Proof.
  intros Hal Hmem Hne Hlen He Hnj Hdm Hdc.
  assert (prev_cluster_ids (_memory L) ≠ []) as Hps.
  { intros Hnil. apply Hmem. unfold memory_ids. by rewrite Hnil. }
  assert (coordinates (_memory L) ≠ []) as Hcs.
  { intros Hnil. unfold aligned in Hal. rewrite Hnil in Hal.
    apply Forall2_nil_inv_l in Hal. done. }
  pose proof (concat_length_Forall2 _ _ Hal) as Hlenm.
  fold (memory_ids L) in Hlenm.
  unfold _update_id. rewrite (all_coordinates_same d) by done. cbn [bind].
  destruct (_group_by_clusterid cl co) as [[[key gcl] gco]|err] eqn:Hgroup.
  2:{ exfalso. unfold _group_by_clusterid in Hgroup.
      pose proof (np_argsort_perm cl) as Hperm.
      destruct (np_take_in_range cl (np_argsort cl)) as [sl Hsl].
      { apply Forall_forall. intros i Hi. rewrite Hperm in Hi.
        by apply elem_of_seq in Hi as [_ Hi]. }
      destruct (np_take_in_range co (np_argsort cl)) as [sc Hsc].
      { apply Forall_forall. intros i Hi. rewrite Hperm in Hi.
        apply elem_of_seq in Hi as [_ Hi]. lia. }
      rewrite Hsl, Hsc in Hgroup. cbn [bind] in Hgroup.
      by destruct (_group_data sl). }
  cbn [bind].
  pose proof Hgroup as Hspec. apply _group_by_clusterid_spec in Hspec as (Hkey & Hgcl & _);
    [|done].
  assert (Forall2 (λ a b, length a = length b) gcl gco ∧ Forall (well_shaped d) gco)
    as [Hpieces Hdg].
  { unfold _group_by_clusterid in Hgroup.
    inv_bind Hgroup as sl Hsl. inv_bind Hgroup as sc Hsc.
    destruct (_group_data sl) as [u g]. injection Hgroup as _ <- <-. split.
    - apply np_split_from_lengths.
      apply np_take_length in Hsl, Hsc. congruence.
    - apply np_split_from_Forall. by eapply np_take_Forall. }
  edestruct (link_clusters_total
               (_update_tree L (concat (coordinates (_memory L))))
               (zip gcl gco) (memory_ids L) (concat (coordinates (_memory L))) e d)
    as (res & L1 & Hlink & Hres).
  - unfold all_cluster_ids. simpl. by apply concat_or_first_ne.
  - done.
  - intros Hnil. apply Hmem. apply length_zero_iff_nil. rewrite <- Hlenm, Hnil. done.
  - lia.
  - exact He.
  - exact Hnj.
  - by apply Forall_concat.
  - apply Forall_forall. intros [a b] Hab. simpl.
    apply elem_of_lookup_zip_with in Hab as (i & a' & b' & [= <- <-] & Ha & Hb).
    split; [by eapply Forall2_lookup_lr in Hpieces|].
    by eapply (Forall_lookup_1 _ _ _ _ Hdg).
  - rewrite Hlink. cbn [bind].
    rewrite fst_zip in Hres by (by rewrite (Forall2_length _ _ _ Hpieces)).
    destruct (np_take_in_range (concat res) (np_argsort (Z.of_nat <$> key))) as [ids Hids].
    { apply Forall_forall. intros i Hi.
      rewrite (np_argsort_perm (Z.of_nat <$> key)) in Hi.
      apply elem_of_seq in Hi as [_ Hi]. rewrite length_fmap in Hi.
      rewrite Hres, Hgcl. rewrite rle_concat, length_fmap. lia. }
    rewrite Hids. cbn [bind]. by eexists _, _.
Qed.

(** A call on a well-shaped frame returns, and keeps the memory
    aligned. *)
Lemma link_total L x d e :
  Linker_inv L → aligned L → 1 ≤ n_timepoints (_memory L) →
  as_number (epsPrev L) = Some e →
  n_jobs L = -1 ∨ 1 ≤ n_jobs L →
  Forall (well_shaped d) (coordinates (_memory L)) →
  well_shaped d x → (0 < d)%nat → clusters_rows L x →
  ∃ L', link L x = Ok L' ∧ aligned L' ∧ Forall (well_shaped d) (coordinates (_memory L')).
Proof.
  intros HL Hal Hn He Hnj Hdm Hx Hd Hcl.
  destruct (_clustering_total L x d Hx Hd Hcl) as (cl & co & nan & Hclu & Hlen & Hcount & Hdco).
  pose proof (inv_frames _ HL) as Hfr. pose proof (inv_bound _ HL) as Hbd.
  assert (∃ linked L1, (if bool_decide (length (prev_cluster_ids (_memory L)) = 0%nat)
             then Ok (_update_id_empty L cl)
             else if bool_decide (length cl = 0%nat) then Ok (_update_id_empty L cl)
             else let! memory_ids := all_cluster_ids (_memory L) in
                  if bool_decide (length memory_ids = 0%nat)
                  then Ok (_update_id_empty L cl)
                  else _update_id L cl co) = Ok (linked, L1)
           ∧ length linked = length cl
           ∧ ∃ c', _memory L1 = set_max_prev_cluster_id (_memory L) c')
    as (linked & L1 & Hpath & Hlinked & c' & Hmem).
  { assert (∃ linked L1, _update_id_empty L cl = (linked, L1)
              ∧ length linked = length cl
              ∧ ∃ c', _memory L1 = set_max_prev_cluster_id (_memory L) c')
      as (linked0 & L0 & Hempty & Hlen0 & Hmem0).
    { destruct (_update_id_empty_spec L cl) as (Hids & c' & HL1 & _).
      destruct (_update_id_empty L cl) as [linked0 L0]. simpl in *. subst.
      eexists _, _. split; [done|]. split; [by rewrite length_fmap|]. by exists c'. }
    case_bool_decide as Hprev; [rewrite Hempty; by exists linked0, L0|].
    case_bool_decide as Hcl0; [rewrite Hempty; by exists linked0, L0|].
    unfold all_cluster_ids.
    rewrite concat_or_first_ne by (intros Hnil; by rewrite Hnil in Hprev). cbn [bind].
    case_bool_decide as Hids0; [rewrite Hempty; by exists linked0, L0|].
    destruct (_update_id_total L cl co e d) as (ids & L1 & Hup); try done.
    { intros Hnil. unfold memory_ids in Hnil. by rewrite Hnil in Hids0. }
    { by intros ->. }
    rewrite Hup. exists ids, L1. split; [done|].
    split; [by eapply _update_id_length|].
    apply _update_id_ids in Hup as (c' & -> & _ & _); [|apply HL..]. by exists c'. }
  unfold link. rewrite Hclu. cbn [bind]. rewrite Hpath. cbn [bind].
  unfold memory_update. rewrite Hmem. simpl.
  assert (∃ cs ps,
    (if bool_decide (Z.of_nat (length (coordinates (_memory L))) = n_timepoints (_memory L))
     then let! cs := pop0 (coordinates (_memory L)) in
          let! ps := pop0 (prev_cluster_ids (_memory L)) in Ok (cs, ps)
     else Ok (coordinates (_memory L), prev_cluster_ids (_memory L))) = Ok (cs, ps)
    ∧ Forall2 (λ (c : list coord) (p : list Z), length c = length p) cs ps
    ∧ Forall (well_shaped d) cs)
    as (cs & ps & -> & Hal' & Hdcs).
  { destruct (bool_decide (Z.of_nat (length (coordinates (_memory L)))
                           = n_timepoints (_memory L))) eqn:Hfull.
    2:{ exists (coordinates (_memory L)), (prev_cluster_ids (_memory L)).
        split; [done|]. split; [exact Hal|exact Hdm]. }
    apply bool_decide_eq_true in Hfull.
    unfold aligned in Hal.
    destruct Hal as [|c0 p0 cs ps _ Hal]; [simpl in Hfull; lia|].
    exists cs, ps. split; [done|]. split; [exact Hal|].
    by apply Forall_cons in Hdm as [_ Hdm]. }
  cbn [bind]. unfold np_put_mask. rewrite decide_True by congruence. cbn [bind].
  eexists. split; [done|]. unfold aligned. simpl. split.
  - apply Forall2_app; [done|]. constructor; [|constructor]. congruence.
  - apply Forall_app. split; [done|]. by constructor.
Qed.

Lemma link_all_total L frames d e :
  Linker_inv L → aligned L → 1 ≤ n_timepoints (_memory L) →
  as_number (epsPrev L) = Some e → (0 < d)%nat →
  n_jobs L = -1 ∨ 1 ≤ n_jobs L →
  Forall (well_shaped d) (coordinates (_memory L)) →
  Forall (λ x, well_shaped d x ∧ clusters_rows L x) frames →
  ∃ outs L', link_all L frames = Ok (outs, L').
Proof.
  intros HL Hal Hn He Hd Hnj Hdm Hframes. revert L HL Hal Hn He Hnj Hdm Hframes.
  induction frames as [|x frames IH]; intros L HL Hal Hn He Hnj Hdm Hframes.
  - by exists [], L.
  - apply Forall_cons in Hframes as [[Hx Hcl] Hframes].
    destruct (link_total L x d e) as (L1 & Hlink & Hal1 & Hdm1); try done.
    pose proof (link_step _ _ _ HL Hlink) as (HL1 & _ & _ & Hcf & _ & Hep & Hnt).
    pose proof (link_n_jobs _ _ _ HL Hlink) as Hnj1.
    destruct (IH L1) as (outs & L' & Hall); try done; try congruence.
    { eapply Forall_impl; [exact Hframes|]. intros y [Hy Hcy]. split; [done|].
      unfold clusters_rows. by rewrite Hcf. }
    cbn [link_all]. rewrite Hlink. cbn [bind]. rewrite Hall. cbn [bind].
    by eexists _, _.
Qed.

End Total.

(** X6. [link] does not raise on well-formed input: on a Linker fresh from
    the constructor with [nPrev >= 1], a number of workers scipy accepts
    (-1 or positive) and a numeric linking radius, every sequence of
    non-empty frames whose points all have the same dimension [d >= 1],
    and for which the clusterer returns one label per row, is processed
    to the end (no index or shape error arises in the grouping, the
    neighbour lookup, the memory or the reassembly). *)
Theorem link_all_never_raises `{E : Externals} `{!ExternalsOk E}
    eps eps_prev minClSz minSamples clusteringMethod propagationThreshold nPrev nJobs
    L frames d :
  Linker_init eps eps_prev minClSz minSamples clusteringMethod
    propagationThreshold nPrev nJobs = Ok L →
  1 ≤ n_timepoints (_memory L) →
  n_jobs L = -1 ∨ 1 ≤ n_jobs L →
  is_Some (as_number (epsPrev L)) → (0 < d)%nat →
  Forall (λ x, x ≠ [] ∧ well_shaped d x ∧ clusters_rows L x) frames →
  ∃ outs L', link_all L frames = Ok (outs, L') ∧ length outs = length frames.
Proof.
  intros Hinit Hn Hnj [e He] Hd Hframes.
  pose proof (reachable_inv L (reachable_init _ _ _ _ _ _ _ _ _ Hinit)) as HL.
  assert (aligned L ∧ coordinates (_memory L) = []) as [Hal Hnil].
  { unfold Linker_init in Hinit. do 7 inv_bind Hinit. injection Hinit as <-.
    unfold aligned. simpl. split; [constructor|done]. }
  destruct (link_all_total L frames d e) as (outs & L' & Hall); try done.
  { rewrite Hnil. constructor. }
  { eapply Forall_impl; [exact Hframes|]. simpl. tauto. }
  exists outs, L'. split; [done|].
  clear -Hall. revert L outs Hall. induction frames as [|x frames IH]; intros L outs H.
  - simpl in H. by injection H as <- _.
  - cbn [link_all] in H. inv_bind H as L1 H1. inv_bind H as [outs1 L2] H2.
    injection H as <- <-. simpl. f_equal. by eapply IH.
Qed.

(** ** The number of workers *)

Lemma np_concatenate_rows_errors l e :
  np_concatenate_rows l = Raise e → ∃ msg, e = ValueError msg.
Proof.
  unfold np_concatenate_rows. destruct (concat l) as [|r rs]; [done|].
  destruct (forallb _ rs); [done|]. intros [= <-]. by eexists.
Qed.

(** X22. The constructor takes every integer as [nJobs], but scipy does
    not: on a Linker whose number of workers is 0 or below -1, every call
    that reaches the neighbour lookup (the memory holds ids and the frame
    has clustered points) raises [ValueError]. *)
Theorem link_invalid_workers_raises `{E : Externals} `{!ExternalsOk E} L x cl co nan :
  reachable L → n_jobs L = 0 ∨ n_jobs L < -1 →
  _clustering L x = Ok (cl, co, nan) → cl ≠ [] → memory_ids L ≠ [] →
  ∃ msg, link L x = Raise (ValueError msg).
Proof.
  intros HL%reachable_inv Hnj Hcl Hne Hmem.
  pose proof (_clustering_lengths _ _ _ _ _ Hcl) as (_ & _ & Hlen).
  specialize (Hlen Hne).
  assert (prev_cluster_ids (_memory L) ≠ []) as Hps.
  { intros Hnil. apply Hmem. unfold memory_ids. by rewrite Hnil. }
  unfold link. rewrite Hcl. cbn [bind].
  rewrite bool_decide_eq_false_2 by (by intros ?%length_zero_iff_nil).
  rewrite bool_decide_eq_false_2 by (by intros ?%length_zero_iff_nil).
  unfold all_cluster_ids at 1. rewrite concat_or_first_ne by done. cbn [bind].
  rewrite bool_decide_eq_false_2 by (by intros ?%length_zero_iff_nil).
  unfold _update_id.
  destruct (all_coordinates (_memory L)) as [tree|e] eqn:Htree.
  2:{ cbn [bind]. unfold all_coordinates in Htree.
      case_bool_decide; [apply np_concatenate_rows_errors in Htree as [msg ->]; by eexists|].
      pose proof (inv_frames _ HL) as Hfr.
      destruct (coordinates (_memory L)); [|done].
      destruct (prev_cluster_ids (_memory L)); done. }
  cbn [bind].
  destruct (_group_by_clusterid cl co) as [[[key gcl] gco]|err] eqn:Hgroup.
  2:{ exfalso. unfold _group_by_clusterid in Hgroup.
      pose proof (np_argsort_perm cl) as Hperm.
      destruct (np_take_in_range cl (np_argsort cl)) as [sl Hsl].
      { apply Forall_forall. intros i Hi. rewrite Hperm in Hi.
        by apply elem_of_seq in Hi as [_ Hi]. }
      destruct (np_take_in_range co (np_argsort cl)) as [sc Hsc].
      { apply Forall_forall. intros i Hi. rewrite Hperm in Hi.
        apply elem_of_seq in Hi as [_ Hi]. lia. }
      rewrite Hsl, Hsc in Hgroup. cbn [bind] in Hgroup.
      by destruct (_group_data sl). }
  cbn [bind].
  unfold _group_by_clusterid in Hgroup.
  inv_bind Hgroup as sl Hsl. inv_bind Hgroup as sc Hsc.
  destruct (_group_data sl) as [u g]. injection Hgroup as _ <- <-.
  unfold np_split.
  pose proof (np_split_from_nonempty 0 g sl) as Hne1.
  pose proof (np_split_from_nonempty 0 g sc) as Hne2.
  destruct (np_split_from 0 g sl) as [|g1 gs1]; [done|].
  destruct (np_split_from 0 g sc) as [|g2 gs2]; [done|].
  cbn [zip_with link_clusters]. unfold _link_next_cluster.
  cbn [_update_tree _memory _nn_tree n_jobs].
  unfold all_cluster_ids. rewrite concat_or_first_ne by done. cbn [bind from_option].
  unfold brute_force_linking, kdtree_query.
  rewrite bool_decide_eq_true_2 by lia. cbn [bind]. by eexists.
Qed.

(** ** Construction and grouping *)

(** X7. The constructor succeeds exactly when [eps] is an int, a float or
    a string, [epsPrev] an int or None, the five size parameters ints and
    [clusteringMethod] one of the strings "dbscan" and "hdbscan". No range
    is checked. The Linker it returns has an empty memory of [nPrev]
    frames, counter 0, the radius [epsPrev] (or [eps] when it is None),
    and a clusterer that runs with one job whatever [nJobs] is. *)
Theorem Linker_init_succeeds_iff `{E : Externals}
    eps eps_prev minClSz minSamples clusteringMethod propagationThreshold nPrev nJobs L :
  Linker_init eps eps_prev minClSz minSamples clusteringMethod
    propagationThreshold nPrev nJobs = Ok L
  ↔ ∃ m ms thr n j name,
      isinstance eps [py_int; py_float; py_str] = true
      ∧ isinstance eps_prev [py_int; py_NoneType] = true
      ∧ minClSz = PyInt m ∧ minSamples = PyInt ms ∧ propagationThreshold = PyInt thr
      ∧ nPrev = PyInt n ∧ nJobs = PyInt j
      ∧ clusteringMethod = PyStr name ∧ (name = "dbscan" ∨ name = "hdbscan")
      ∧ L = {| _memory := {| n_timepoints := n; coordinates := [];
                             prev_cluster_ids := []; max_prev_cluster_id := 0 |};
               _nn_tree := None; propagation_threshold := thr;
               epsPrev := match eps_prev with PyNone => eps | _ => eps_prev end;
               n_jobs := j; event_ids := []; max_prev_event_id := 0;
               clustering_function :=
                 if bool_decide (name = "dbscan") then λ x, _dbscan x eps m 1
                 else λ x, _hdbscan x eps m ms "leaf" 1 |}.
Proof.
  split.
  - unfold Linker_init, _validate_input. intros H.
    destruct (isinstance eps _) eqn:Heps; [|done].
    destruct (isinstance eps_prev _) eqn:Hprev; [|done].
    destruct minClSz as [|m| | |]; try done.
    destruct minSamples as [|ms| | |]; try done.
    destruct propagationThreshold as [|thr| | |]; try done.
    destruct nPrev as [|n| | |]; try done.
    destruct nJobs as [|j| | |]; try done.
    destruct clusteringMethod as [| | |name|]; try done.
    simpl in H. exists m, ms, thr, n, j, name.
    do 8 (split; [done|]).
    destruct (decide (name = "dbscan")) as [->|Hdb].
    { injection H as <-. split; [by left|done]. }
    rewrite (bool_decide_eq_false_2 (name = "dbscan")) in H |- * by done.
    destruct (decide (name = "hdbscan")) as [->|Hhdb].
    { injection H as <-. split; [by right|done]. }
    by rewrite (bool_decide_eq_false_2 (name = "hdbscan")) in H by done.
  - intros (m & ms & thr & n & j & name & Heps & Hprev & -> & -> & -> & -> & -> & -> & Hname & ->).
    unfold Linker_init, _validate_input. rewrite Heps, Hprev. simpl.
    destruct Hname as [->| ->]; done.
Qed.

(** X8. [_group_by_clusterid] splits the rows of a frame into one group
    per cluster label: the groups are not empty, each holds a single
    label, the labels increase from group to group, the groups of
    coordinates have the sizes of the groups of labels, and every row
    is in the group of its label, with its own coordinates. *)
Theorem group_by_clusterid_partition `{E : Externals} `{!ExternalsOk E}
    cl co key gcl gco :
  _group_by_clusterid cl co = Ok (key, gcl, gco) →
  cl ≠ [] → length cl = length co →
  key ≡ₚ seq 0 (length cl)
  ∧ (∃ runs, gcl = (λ vn : Z * nat, replicate vn.2 vn.1) <$> runs
             ∧ Forall (λ vn, (0 < vn.2)%nat) runs
             ∧ Sorted Z.lt runs.*1)
  ∧ Forall2 (λ (g : list Z) (c : list coord), length g = length c) gcl gco
  ∧ concat gcl = (λ i, default 0 (cl !! i)) <$> key
  ∧ concat gco = (λ i, default [] (co !! i)) <$> key
  ∧ zip (concat gcl) (concat gco) ≡ₚ zip cl co.
Proof.
  intros H Hne Hlen.
  pose proof H as Hspec. apply _group_by_clusterid_spec in Hspec as (Hkey & Hgcl & Hgco);
    [|done].
  set (sl := (λ i, default 0 (cl !! i)) <$> key) in *.
  set (sc := (λ i, default [] (co !! i)) <$> key) in *.
  pose proof (np_argsort_perm cl) as Hperm. rewrite <- Hkey in Hperm.
  assert (Sorted Z.le sl) as Hsorted by (unfold sl; rewrite Hkey; apply np_argsort_sorted).
  assert (length sl = length sc) as Hlen' by (unfold sl, sc; by rewrite !length_fmap).
  assert (sl ≠ []) as Hsl.
  { intros Hnil. apply (f_equal length) in Hnil. unfold sl in Hnil.
    rewrite length_fmap, Hperm, length_seq in Hnil. by destruct cl. }
  assert ((rle sl).*2 ≠ []) as Hruns.
  { intros Hnil%fmap_nil_inv. by apply rle_nil_iff in Hnil. }
  split; [done|]. split.
  { exists (rle sl). split; [done|]. split; [apply rle_positive|by apply rle_increasing]. }
  assert (concat gcl = sl) as Hcl by (by rewrite Hgcl, rle_concat).
  assert (concat gco = sc) as Hco by (rewrite Hgco; by apply chunks_concat).
  split.
  { rewrite Hgcl, Hgco.
    pose proof (chunks_lengths (rle sl).*2 sc) as Hch.
    rewrite rle_sum in Hch. specialize (Hch Hlen').
    apply Forall2_fmap_l. apply Forall2_fmap_l in Hch.
    eapply Forall2_impl; [exact Hch|].
    intros [v n] c. simpl. intros <-. by rewrite length_replicate. }
  split; [done|]. split; [done|].
  rewrite Hcl, Hco. unfold sl, sc.
  rewrite zip_with_diag, Hperm, <- zip_with_diag.
  by rewrite Hlen at 2; rewrite !fmap_lookup_seq.
Qed.

(** ** One frame of a table *)

Lemma mask_select_all_true {A} (a : list A) mask :
  Forall (λ b, b = true) mask → (length a ≤ length mask)%nat → mask_select a mask = a.
Proof.
  intros Hm. revert a. induction Hm as [|b mask -> _ IH]; intros [|v a] Hlen; simpl in *;
    try done; [lia|]. f_equal. apply IH. lia.
Qed.

Lemma without_column_absent {A} cols name (r : list A) :
  name ∉ cols → (length r ≤ length cols)%nat → without_column cols name r = r.
Proof.
  intros Hname Hlen. unfold without_column. apply mask_select_all_true.
  - apply Forall_fmap, Forall_forall. intros c Hc. simpl.
    apply bool_decide_eq_true_2. by intros ->.
  - by rewrite length_fmap.
Qed.

Lemma without_column_columns cols name :
  without_column cols name cols = filter (λ c, c ≠ name) cols.
Proof.
  unfold without_column. induction cols as [|c cols IH]; [done|].
  rewrite fmap_cons. cbn [mask_select]. case_bool_decide.
  - rewrite filter_cons_True by done. by f_equal.
  - by rewrite filter_cons_False by (by intros ?).
Qed.

Lemma list_find_without cols name :
  list_find (λ c, c = name) (without_column cols name cols) = None.
Proof.
  rewrite without_column_columns. apply list_find_None, Forall_forall.
  intros c Hc%list_elem_of_filter. tauto.
Qed.

Lemma df_filter_active_columns x bin active :
  df_filter_active x bin = Ok active →
  columns active = columns x ∧ ∃ mask, rows active = mask_select (rows x) mask.
Proof.
  unfold df_filter_active. destruct bin as [c|].
  - intros H. inv_bind H as col Hcol. injection H as <-. simpl. split; [done|]. by eexists.
  - intros [= <-]. split; [done|]. exists (replicate (length (rows x)) true).
    symmetry. apply mask_select_all_true; [by apply Forall_replicate|].
    by rewrite length_replicate.
Qed.

Lemma _select_necessary_columns_length data pos coords :
  _select_necessary_columns data pos = Ok coords → length coords = length (rows data).
Proof.
  unfold _select_necessary_columns, get_columns. intros H.
  inv_bind H as cells Hcells. inv_bind Hcells as idx Hidx. injection H as <-.
  rewrite length_fmap. by eapply mapE_length.
Qed.

Section Iteration.
Context `{E : Externals}.

Lemma link_event_ids_length L x L' :
  link L x = Ok L' → event_ids L' = [] ∨ length (event_ids L') = length x.
Proof.
  intros Hlink.
  apply link_inv in Hlink as (cl & co & nan & linked & L1 & m & Hcl & _ & _ & Hev & _).
  apply np_put_mask_length in Hev. rewrite length_replicate in Hev.
  apply _clustering_lengths in Hcl as (_ & Hnan & _).
  case_bool_decide; [left; apply length_zero_iff_nil|right]; congruence.
Qed.

End Iteration.

(** The rows and columns of the table emitted for a frame. *)
Lemma df_frame_output_rows self x active ids :
  columns active = columns x →
  Forall (λ r : list cell, length r = length (columns x)) (rows active) →
  let name := collid_column self in
  let ids1 := if bool_decide (ids = []) then replicate (length (rows active)) 0 else ids in
  columns (df_frame_output self x active ids)
    = filter (λ c, c ≠ name) (columns x) ++ [name]
  ∧ rows (df_frame_output self x active ids)
    = zip_with (λ r i, without_column (columns x) name r ++ [CInt i]) (rows active) ids1.
Proof.
  intros Hcols Hwfa name ids1.
  set (df_out := if bool_decide (name ∈ columns x) then drop_column active name else active).
  assert (columns df_out = filter (λ c, c ≠ name) (columns x)
          ∧ rows df_out = without_column (columns x) name <$> rows active) as [Hc Hr].
  { unfold df_out. case_bool_decide as Hin.
    - unfold drop_column. simpl. rewrite Hcols.
      split; [apply without_column_columns|done].
    - split.
      + rewrite Hcols. symmetry. rewrite <- without_column_columns.
        by apply without_column_absent.
      + symmetry. erewrite <- (list_fmap_id (rows active)) at 2.
        apply Forall_fmap_ext_1. eapply Forall_impl; [exact Hwfa|].
        simpl. intros r Hr. apply without_column_absent; [done|lia]. }
  assert (df_frame_output self x active ids = set_column df_out name (CInt <$> ids1)) as ->.
  { unfold df_frame_output. fold name. fold df_out. f_equal. unfold ids1.
    case_bool_decide; [|done]. rewrite Hr, length_fmap.
    by rewrite fmap_replicate. }
  unfold set_column. rewrite Hc, <- without_column_columns, list_find_without. simpl.
  rewrite without_column_columns. split; [done|].
  by rewrite Hr, zip_with_fmap_l, zip_with_fmap_r.
Qed.

(** X9. [track_iteration] never fails on the assignment of the ids: when
    the active rows can be selected, their coordinates read and [link]
    returns, the frame is emitted. *)
Theorem df_track_iteration_succeeds `{E : Externals} self x active coords L' :
  df_filter_active x (bin_meas_column self) = Ok active →
  _select_necessary_columns active (coordinates_column self) = Ok coords →
  link (df_linker self) coords = Ok L' →
  ∃ out, df_track_iteration self x = Ok (out, df_set_linker self L').
Proof.
  intros Hact Hco Hlink. unfold df_track_iteration.
  rewrite Hact. cbn [bind]. rewrite Hco. cbn [bind]. rewrite Hlink. cbn [bind].
  cbv zeta.
  destruct (bool_decide (length (event_ids L') = 0%nat)) eqn:Hnone; [by eexists|].
  apply bool_decide_eq_false in Hnone.
  destruct (link_event_ids_length _ _ _ Hlink) as [Hnil|Hlen].
  { by rewrite Hnil in Hnone. }
  apply _select_necessary_columns_length in Hco.
  rewrite bool_decide_eq_true_2; [by eexists|].
  rewrite Hlen, Hco. simpl. case_bool_decide; [|done].
  unfold drop_column. simpl. by rewrite length_fmap.
Qed.

(** X10. The table [track_iteration] emits has the columns of its input
    without the event-id column, followed by the event-id column; its
    rows are the active rows of the input, in their order, each without
    its previous event id and followed by the id [link] gave it, or by 0
    when [link] gave no ids. *)
Theorem df_track_iteration_table `{E : Externals} self x out self' :
  df_wf x → df_track_iteration self x = Ok (out, self') →
  ∃ active ids,
    df_filter_active x (bin_meas_column self) = Ok active
    ∧ ids = (if bool_decide (event_ids (df_linker self') = [])
             then replicate (length (rows active)) 0
             else event_ids (df_linker self'))
    ∧ length ids = length (rows active)
    ∧ columns out = filter (λ c, c ≠ collid_column self) (columns x) ++ [collid_column self]
    ∧ rows out = zip_with (λ r i, without_column (columns x) (collid_column self) r ++ [CInt i])
                   (rows active) ids
    ∧ df_wf out.
Proof.
  intros Hwf H.
  apply df_track_iteration_Ok in H as (active & coords & L' & Hact & Hco & Hlink & -> & ->).
  pose proof (df_filter_active_columns _ _ _ Hact) as [Hcols [mask Hrows]].
  assert (Forall (λ r : list cell, length r = length (columns x)) (rows active)) as Hwfa.
  { rewrite Hrows. apply Forall_forall. intros r Hr%mask_select_elem_of.
    by apply (proj1 (Forall_forall _ _) Hwf). }
  set (ids := if bool_decide (event_ids L' = []) then replicate (length (rows active)) 0
              else event_ids L').
  assert (length ids = length (rows active)) as Hlen.
  { unfold ids. case_bool_decide as Hnil; [by rewrite length_replicate|].
    destruct (link_event_ids_length _ _ _ Hlink) as [?|Hlen]; [done|].
    apply _select_necessary_columns_length in Hco. congruence. }
  exists active, ids. split; [done|]. split; [done|]. split; [done|].
  destruct (df_frame_output_rows self x active (event_ids L') Hcols Hwfa) as [Hc Hr].
  fold ids in Hr. split; [done|]. split; [done|].
  unfold df_wf. rewrite Hc, Hr. apply Forall_forall. intros r Hr'.
  apply elem_of_lookup_zip_with in Hr' as (i & r0 & v & -> & Hr0 & _).
  rewrite !length_app. simpl. f_equal.
  apply list_elem_of_lookup_2 in Hr0.
  apply (proj1 (Forall_forall _ _) Hwfa) in Hr0.
  rewrite <- without_column_columns. unfold without_column.
  clear -Hr0. revert r0 Hr0. induction (columns x) as [|c cols IH]; intros [|v r] Hlen;
    try done. rewrite fmap_cons. simpl in *. case_bool_decide; simpl; auto.
Qed.

(** ** Index tuples and flat positions *)

Lemma np_indices_length shape : length (np_indices shape) = foldr Nat.mul 1%nat shape.
Proof.
  induction shape as [|n shape IH]; [done|]. cbn [np_indices foldr].
  rewrite <- IH. generalize (np_indices shape). intros R.
  generalize 0%nat. induction n as [|n IHn]; intros a; [done|].
  cbn [seq]. rewrite bind_cons, length_app, length_fmap, IHn. lia.
Qed.

Lemma np_indices_block (R : list (list nat)) n : ∀ a k idx,
  (i ← seq a n; (λ idx, i :: idx) <$> R) !! k = Some idx →
  ∃ i idx', idx = i :: idx' ∧ (a ≤ i < a + n)%nat
            ∧ ((i - a) * length R ≤ k)%nat
            ∧ R !! (k - (i - a) * length R)%nat = Some idx'.
Proof.
  induction n as [|n IH]; intros a k idx; [done|].
  cbn [seq]. rewrite bind_cons. intros Hk.
  apply lookup_app_Some in Hk as [Hk|[Hge Hk]].
  - apply list_lookup_fmap_Some in Hk as (idx' & -> & Hk).
    exists a, idx'. split; [done|]. split; [lia|].
    replace (a - a)%nat with 0%nat by lia. simpl. split; [lia|].
    by rewrite Nat.sub_0_r.
  - rewrite length_fmap in Hge, Hk.
    apply IH in Hk as (i & idx' & -> & Hi & Hle & Hk).
    exists i, idx'. split; [done|]. split; [lia|].
    replace (i - a)%nat with (S (i - S a)) by lia. simpl. split; [lia|].
    rewrite <- Hk. f_equal. lia.
Qed.

Lemma np_indices_ravel shape : ∀ k idx,
  np_indices shape !! k = Some idx → ravel shape idx = Some k.
Proof.
  induction shape as [|n shape IH]; intros k idx Hk.
  - destruct k; [|done]. by injection Hk as <-.
  - cbn [np_indices] in Hk.
    pose proof (lookup_lt_Some _ _ _ Hk) as Hlt.
    apply np_indices_block in Hk as (i & idx' & -> & Hi & Hle & Hk).
    cbn [ravel]. rewrite bool_decide_eq_true_2 by lia.
    rewrite (IH _ _ Hk). simpl. f_equal.
    rewrite <- np_indices_length. lia.
Qed.

Lemma ravel_bounds shape : ∀ idx j,
  ravel shape idx = Some j → Forall2 (λ i n, (i < n)%nat) idx shape.
Proof.
  induction shape as [|n shape IH]; intros [|i idx] j H; try done.
  cbn [ravel] in H. case_bool_decide; [|done].
  destruct (ravel shape idx) as [j'|] eqn:Hj; [|done]. constructor; eauto.
Qed.

Lemma uint16_index idx shape :
  Forall2 (λ i n, (i < n)%nat) idx shape → Forall (λ n, Z.of_nat n ≤ 65536) shape →
  Z.to_nat <$> (to_uint16 <$> (Z.of_nat <$> idx)) = idx.
Proof.
  intros H Hs. induction H as [|i n idx shape Hi _ IH]; [done|].
  apply Forall_cons in Hs as [Hn Hs]. rewrite !fmap_cons, IH by done. f_equal.
  unfold to_uint16. rewrite Z.mod_small by lia. lia.
Qed.

(** ** Writing the ids into the image *)

Lemma mask_fill_nil base mask : mask_fill base mask [] = base.
Proof.
  revert mask. induction base as [|v base IH]; intros [|b mask]; simpl; try done.
  destruct b; by rewrite IH.
Qed.

Lemma count_true_cons b mask :
  count_true (b :: mask) = ((if b then 1 else 0) + count_true mask)%nat.
Proof.
  unfold count_true. destruct b.
  - by rewrite filter_cons_True.
  - by rewrite filter_cons_False.
Qed.

Lemma scatter_uint16_mask shp act : ∀ (cs : list (list nat)) pre ev,
  Forall2 (λ idx j, ravel shp (Z.to_nat <$> (to_uint16 <$> (Z.of_nat <$> idx))) = Some j)
    cs (seq (length pre) (length act)) →
  length ev = count_true act →
  let evmask := (λ e, bool_decide (0 < e)) <$> ev in
  scatter_uint16 {| shape := shp; data := pre ++ replicate (length act) 0 |}
    ((λ p : list Z, to_uint16 <$> p)
       <$> mask_select (mask_select ((λ idx : list nat, Z.of_nat <$> idx) <$> cs) act) evmask)
    (mask_select ev evmask)
  = Ok {| shape := shp;
          data := pre ++ mask_fill (replicate (length act) 0) act (clamp_id <$> ev) |}.
Proof.
  induction act as [|b act IH]; intros cs pre ev Hcs Hev evmask; subst evmask.
  - apply Forall2_nil_inv_r in Hcs as ->. by destruct ev.
  - cbn [length seq] in Hcs. apply Forall2_cons_inv_r in Hcs as (idx & cs' & Hidx & Hcs & ->).
    rewrite count_true_cons in Hev.
    assert (∀ v (l : list Z), pre ++ v :: l = (pre ++ [v]) ++ l) as Hpre.
    { intros v l. by rewrite <- (assoc (++)). }
    assert (S (length pre) = length (pre ++ [0])) as Hlen0.
    { rewrite length_app. simpl. lia. }
    destruct b.
    + destruct ev as [|e ev]; [done|]. simpl in Hev.
      rewrite !fmap_cons. unfold clamp_id at 1.
      destruct (decide (0 < e)) as [He|He].
      * rewrite !(bool_decide_eq_true_2 (0 < e)) by done.
        cbn [mask_select length replicate mask_fill].
        rewrite fmap_cons. cbn [scatter_uint16]. unfold np_setitem_uint16.
        cbn [shape data]. rewrite Hidx. cbn [bind].
        rewrite insert_app_r_alt by lia. rewrite Nat.sub_diag. cbn [insert list_insert].
        rewrite (Hpre _ (replicate (length act) 0)), (Hpre _ (mask_fill _ _ _)). apply IH; [|lia].
        rewrite length_app. simpl. by rewrite Nat.add_1_r.
      * rewrite !(bool_decide_eq_false_2 (0 < e)) by done.
        cbn [mask_select length replicate mask_fill].
        rewrite (Hpre _ (replicate (length act) 0)), (Hpre _ (mask_fill _ _ _)). apply IH; [|lia]. by rewrite <- Hlen0.
    + rewrite !fmap_cons. cbn [mask_select length replicate mask_fill].
      rewrite (Hpre _ (replicate (length act) 0)), (Hpre _ (mask_fill _ _ _)). apply IH; [|lia]. by rewrite <- Hlen0.
Qed.

(** ** The raster tracker, voxel by voxel *)

Section Raster.
Context `{E : Externals}.

Lemma link_event_ids_count L x L' :
  link L x = Ok L' →
  length (event_ids L') = if bool_decide (np_size x = 0%nat) then 0%nat else length x.
Proof.
  intros Hlink.
  apply link_inv in Hlink as (cl & co & nan & linked & L1 & m & Hcl & _ & _ & Hev & _).
  apply np_put_mask_length in Hev. rewrite length_replicate in Hev.
  apply _clustering_lengths in Hcl as (_ & Hnan & _). congruence.
Qed.

Lemma img_track_iteration_Ok self x out self' :
  img_track_iteration self x = Ok (out, self') →
  let coords := (λ idx : list nat, Z.of_nat <$> idx) <$> np_indices (shape x) in
  let active := (λ v, bool_decide (0 < to_uint16 v)) <$> data x in
  let pos := mask_select coords active in
  shape x ≠ []
  ∧ link (img_linker self) ((λ p : list Z, inject_Z <$> p) <$> pos) = Ok (img_linker self')
  ∧ _coordinates_to_image x pos (event_ids (img_linker self')) = Ok out.
Proof.
  intros H coords active pos. unfold img_track_iteration, _image_to_coordinates in H.
  case_bool_decide as Hshape; [done|]. cbn [bind] in H.
  inv_bind H as linker Hlink. inv_bind H as out' Hout. injection H as <- <-.
  unfold img_filter_active in Hlink, Hout. rewrite <- list_fmap_compose in Hlink, Hout.
  done.
Qed.

Lemma img_track_iteration_shape self x out self' :
  img_track_iteration self x = Ok (out, self') → shape out = shape x.
Proof.
  intros (_ & _ & Hout)%img_track_iteration_Ok.
  by apply _coordinates_to_image_spec in Hout as [? _].
Qed.

Lemma img_track_frames_shapes self x t ks : ∀ outs self',
  img_track_frames self x t ks = Ok (outs, self') →
  length outs = length ks ∧ Forall (λ o, shape o = delete t (shape x)) outs.
Proof.
  revert self. induction ks as [|k ks IH]; intros self outs self' H.
  - simpl in H. injection H as <- <-. split; [done|constructor].
  - cbn [img_track_frames] in H.
    inv_bind H as x_frame Hframe. inv_bind H as [x_tracked self1] Hiter.
    inv_bind H as [rest self2] Hrest. injection H as <- <-.
    apply IH in Hrest as [Hlen Hshapes]. split; [simpl; by rewrite Hlen|].
    constructor; [|done]. apply img_track_iteration_shape in Hiter.
    unfold frame_along in Hframe. inv_bind Hframe as d Hd. injection Hframe as <-.
    done.
Qed.

End Raster.

(** X11. [_image_to_coordinates] lists the voxels of an image in C order:
    row [k] of the coordinates is the index tuple of the [k]-th voxel and
    entry [k] of the measurements is that voxel's intensity as a uint16. *)
Theorem image_to_coordinates_voxels image :
  shape image ≠ [] → nd_wf image →
  ∃ coords meas,
    _image_to_coordinates image = Ok (coords, meas)
    ∧ length coords = length (data image)
    ∧ meas = to_uint16 <$> data image
    ∧ ∀ k p, coords !! k = Some p →
        Forall2 (λ i n, 0 ≤ i < Z.of_nat n) p (shape image)
        ∧ ravel (shape image) (Z.to_nat <$> p) = Some k.
Proof.
  intros Hshape Hwf. unfold _image_to_coordinates.
  rewrite bool_decide_eq_false_2 by done. eexists _, _. split; [done|].
  split; [by rewrite length_fmap, np_indices_length|]. split; [done|].
  intros k p Hk. apply list_lookup_fmap_Some in Hk as (idx & -> & Hk).
  apply np_indices_ravel in Hk.
  assert (Z.to_nat <$> (Z.of_nat <$> idx) = idx) as Hid.
  { rewrite <- list_fmap_compose. rewrite <- (list_fmap_id idx) at 2.
    apply list_fmap_ext. intros _ i _. simpl. lia. }
  rewrite Hid. split; [|done].
  apply ravel_bounds in Hk. apply Forall2_fmap_l.
  eapply Forall2_impl; [exact Hk|]. simpl. lia.
Qed.

(** X12. One frame of an image: the output has the shape of the frame;
    [link] is given the active voxels (those whose intensity is positive
    as a uint16) in C order and returns one id for each; every active
    voxel holds its own id as a uint16 when the id is positive, and every
    other voxel holds 0. No axis may be longer than 65536. *)
Theorem img_track_iteration_voxels `{E : Externals} self x out self' :
  img_track_iteration self x = Ok (out, self') →
  nd_wf x → Forall (λ n, Z.of_nat n ≤ 65536) (shape x) →
  let active := (λ v, bool_decide (0 < to_uint16 v)) <$> data x in
  let ids := event_ids (img_linker self') in
  let voxels := mask_select ((λ idx : list nat, Z.of_nat <$> idx) <$> np_indices (shape x))
                  active in
  shape out = shape x
  ∧ (∀ k idx, np_indices (shape x) !! k = Some idx → ravel (shape x) idx = Some k)
  ∧ link (img_linker self) ((λ p : list Z, inject_Z <$> p) <$> voxels)
    = Ok (img_linker self')
  ∧ length ids = count_true active
  ∧ data out = mask_fill (replicate (length (data x)) 0) active (clamp_id <$> ids).
Proof.
  intros H Hwf Hsmall active ids voxels.
  pose proof (img_track_iteration_shape _ _ _ _ H) as Hsh.
  apply img_track_iteration_Ok in H as (Hshape & Hlink & Hout).
  split; [done|]. split; [intros k idx; apply np_indices_ravel|]. split; [exact Hlink|].
  clear voxels.
  fold active in Hlink, Hout. fold ids in Hout.
  set (idxs := np_indices (shape x)) in *.
  set (coords := (λ idx : list nat, Z.of_nat <$> idx) <$> idxs) in *.
  set (pos := mask_select coords active) in *.
  assert (length idxs = length active) as Hlen.
  { unfold idxs, active. by rewrite np_indices_length, length_fmap. }
  assert (Forall2 (λ idx j, ravel (shape x)
                     (Z.to_nat <$> (to_uint16 <$> (Z.of_nat <$> idx))) = Some j)
            idxs (seq 0 (length active))) as Hravel.
  { apply Forall2_same_length_lookup_2; [by rewrite length_seq|].
    intros k idx j Hk Hj. apply lookup_seq in Hj as [-> _]. simpl.
    apply np_indices_ravel in Hk. pose proof (ravel_bounds _ _ _ Hk) as Hb.
    by rewrite (uint16_index idx (shape x)). }
  assert (length pos = count_true active) as Hpos.
  { unfold pos. apply mask_select_length. unfold coords. by rewrite length_fmap. }
  assert (length ids = count_true active) as Hids.
  { unfold ids. rewrite (link_event_ids_count _ _ _ Hlink), length_fmap, Hpos.
    case_bool_decide as Hsz; [|done]. rewrite <- Hpos.
    destruct pos as [|p pos'] eqn:Hp; [done|]. exfalso.
    assert (p ∈ coords) as Hin.
    { apply (mask_select_elem_of coords active). fold pos. rewrite Hp. left. }
    apply list_elem_of_fmap in Hin as (idx & -> & Hidx).
    apply list_elem_of_lookup in Hidx as [k Hk].
    apply np_indices_ravel, ravel_bounds, Forall2_length in Hk.
    rewrite fmap_cons in Hsz. unfold np_size in Hsz. rewrite fmap_cons in Hsz.
    simpl in Hsz. rewrite !length_fmap in Hsz.
    destruct (shape x); [done|]. destruct idx; [done|]. simpl in Hsz. lia. }
  split; [done|].
  unfold _coordinates_to_image in Hout.
  destruct (bool_decide (length ids = 0%nat)) eqn:Hnone.
  { apply bool_decide_eq_true, length_zero_iff_nil in Hnone.
    injection Hout as <-. simpl. by rewrite Hnone, mask_fill_nil. }
  unfold np_mask in Hout. rewrite length_fmap in Hout.
  rewrite decide_True in Hout by congruence. cbn [bind] in Hout.
  rewrite bool_decide_eq_false_2 in Hout.
  2:{ destruct (head _) as [p|] eqn:Hp; simpl; [|unfold ndim; by destruct (shape x)].
      apply head_Some_elem_of, list_elem_of_fmap in Hp as (q & -> & Hq).
      apply mask_select_elem_of, mask_select_elem_of in Hq.
      apply list_elem_of_fmap in Hq as (idx & -> & Hidx).
      apply list_elem_of_lookup in Hidx as [k Hk].
      apply np_indices_ravel, ravel_bounds, Forall2_length in Hk.
      rewrite !length_fmap, Hk. by destruct (shape x). }
  pose proof (scatter_uint16_mask (shape x) active idxs [] ids Hravel Hids) as Hsc.
  simpl in Hsc. fold coords in Hsc. fold pos in Hsc.
  assert (length (data x) = length active) as Hd by (unfold active; by rewrite length_fmap).
  rewrite Hd in Hout |- *. rewrite Hsc in Hout. by injection Hout as <-.
Qed.

Lemma img_track_Ok `{E : Externals} self x dims outs self' :
  img_track self x dims = Ok (outs, self') →
  ∃ t n, img_track_check x dims = Ok t ∧ shape x !! t = Some n
         ∧ img_track_frames self x t (seq 0 n) = Ok (outs, self').
Proof.
  unfold img_track. intros H. inv_bind H as t Ht.
  pose proof (img_track_check_spec x dims) as Hspec. cbv zeta in Hspec.
  rewrite Ht in Hspec.
  set (dl := ascii_upper <$> list_ascii_of_string dims) in *.
  case_bool_decide as Hdup; [done|]. case_bool_decide as Hlen; [done|].
  case_bool_decide as HT; [|done]. injection Hspec as Hspec.
  assert (t < length (shape x))%nat as Hlt.
  { fold (ndim x). rewrite <- Hlen, Hspec. unfold first_index_of.
    destruct (list_find _ dl) as [[j c]|] eqn:Hfind.
    - apply list_find_Some in Hfind as (Hj & _). by apply lookup_lt_Some in Hj.
    - apply list_find_None in Hfind. exfalso.
      by apply (proj1 (Forall_forall _ _) Hfind) in HT. }
  apply lookup_lt_is_Some_2 in Hlt as [n Hn].
  rewrite Hn in H. simpl in H. by exists t, n.
Qed.

(** X13. [track] on an image yields one frame for every index along the T
    axis, each with the shape of the image without that axis. *)
Theorem img_track_frames_and_shapes `{E : Externals} self x dims outs self' :
  img_track self x dims = Ok (outs, self') →
  ∃ t n, img_track_check x dims = Ok t ∧ shape x !! t = Some n
         ∧ length outs = n
         ∧ Forall (λ o, shape o = delete t (shape x)) outs.
Proof.
  intros (t & n & Ht & Hn & H)%img_track_Ok.
  apply img_track_frames_shapes in H as [Hlen Hshapes].
  exists t, n. rewrite length_seq in Hlen. done.
Qed.

(** X14. An image with the single axis T cannot be tracked: its frames
    have no axes left, and [_image_to_coordinates] fails on the first of
    them. *)
Theorem img_track_one_axis_raises `{E : Externals} self n v vs :
  img_track self {| shape := [S n]; data := v :: vs |} "T"
  = Raise (ValueError "cannot reshape array of size 0 into shape (0)").
Proof. done. Qed.

(** ** Column names *)

Lemma mapE_str_value (vs : list pyval) :
  forallb (λ col, isinstance col [py_str]) vs = true →
  ∃ ss, vs = PyStr <$> ss ∧ mapE str_value vs = Ok ss.
Proof.
  induction vs as [|v vs IH]; intros H; [by exists []|].
  simpl in H. apply andb_true_iff in H as [Hv Hvs].
  destruct (IH Hvs) as (ss & -> & Hss). destruct v as [| | |s|]; try done.
  exists (s :: ss). split; [done|]. cbn [mapE str_value bind]. by rewrite Hss.
Qed.

Lemma mapE_str_value_PyStr (ss : list string) : mapE str_value (PyStr <$> ss) = Ok ss.
Proof.
  induction ss as [|s ss IH]; [done|]. rewrite fmap_cons. cbn [mapE str_value bind].
  by rewrite IH.
Qed.

Lemma forallb_PyStr (ss : list string) :
  forallb (λ col, isinstance col [py_str]) (PyStr <$> ss) = true.
Proof. induction ss as [|s ss IH]; [done|]. rewrite fmap_cons. simpl. exact IH. Qed.


Lemma column_index_missing x name : name ∉ columns x → column_index x name = Raise KeyError.
Proof.
  intros Hname. unfold column_index.
  destruct (list_find _ _) as [[i c]|] eqn:Hfind; [|done].
  apply list_find_Some in Hfind as (Hi & -> & _).
  by apply list_elem_of_lookup_2 in Hi.
Qed.



Lemma mapE_total {A B} (f : A → except B) (l : list A) :
  Forall (λ a, is_Ok (f a)) l → is_Ok (mapE f l).
Proof.
  induction 1 as [|a l [b Hb] _ [bs IH]]; [by eexists|].
  cbn [mapE]. rewrite Hb. cbn [bind]. rewrite IH. by eexists.
Qed.


(** X15. A DataFrameTracker is constructed exactly when the frame column,
    the event-id column and every coordinate column are named by strings
    and the object-id and measurement columns by strings or None; any
    other argument raises [TypeError]. *)
Theorem DataFrameTracker_init_succeeds_iff linker coordinates frame id bin_meas collid T :
  (DataFrameTracker_init linker coordinates frame id bin_meas collid = Ok T
   ↔ ∃ cs f c,
       coordinates = PyStr <$> cs ∧ frame = PyStr f ∧ collid = PyStr c
       ∧ optional_str_value id = Ok (id_column T)
       ∧ optional_str_value bin_meas = Ok (bin_meas_column T)
       ∧ T = {| df_linker := linker; coordinates_column := cs; frame_column := f;
                id_column := id_column T; bin_meas_column := bin_meas_column T;
                collid_column := c |})
  ∧ (∀ e, DataFrameTracker_init linker coordinates frame id bin_meas collid = Raise e →
          ∃ msg, e = TypeError msg).
Proof.
  split; [split|].
  - unfold DataFrameTracker_init, df_validate_input. intros H.
    destruct (forallb _ _) eqn:Hnec; [|done]. cbn [negb] in H.
    cbn [app forallb] in Hnec.
    apply andb_true_iff in Hnec as [Hf Hnec]. apply andb_true_iff in Hnec as [Hc Hcs].
    destruct (mapE_str_value _ Hcs) as (cs & -> & Hcs').
    destruct frame as [| | |f|]; try done. destruct collid as [| | |c|]; try done.
    destruct (forallb _ [id; bin_meas]) eqn:Hopt; [|done]. cbn [negb bind] in H.
    rewrite Hcs' in H. cbn [bind str_value] in H.
    destruct (optional_str_value id) as [i|] eqn:Hi; [|done].
    destruct (optional_str_value bin_meas) as [b|] eqn:Hb; [|done].
    cbn [bind] in H. injection H as <-. by exists cs, f, c.
  - intros (cs & f & c & -> & -> & -> & Hi & Hb & HT).
    assert (forallb (λ col, isinstance col [py_str])
              ([PyStr f; PyStr c] ++ (PyStr <$> cs)) = true) as Hnec.
    { cbn [app forallb]. by rewrite forallb_PyStr. }
    assert (forallb (λ col, isinstance col [py_str; py_NoneType]) [id; bin_meas] = true)
      as Hopt.
    { destruct id; try done; destruct bin_meas; done. }
    unfold DataFrameTracker_init, df_validate_input. cbv zeta. rewrite Hnec, Hopt.
    cbn [negb bind]. rewrite mapE_str_value_PyStr. cbn [bind str_value].
    rewrite Hi, Hb. cbn [bind]. by rewrite HT at 3.
  - intros e. unfold DataFrameTracker_init, df_validate_input.
    destruct (forallb _ _) eqn:Hnec; [|intros [= <-]; by eexists]. cbn [negb].
    cbn [app forallb] in Hnec.
    apply andb_true_iff in Hnec as [Hf Hnec]. apply andb_true_iff in Hnec as [Hc Hcs].
    destruct (mapE_str_value _ Hcs) as (cs & -> & Hcs').
    destruct (forallb _ [id; bin_meas]) eqn:Hopt; [|intros [= <-]; by eexists].
    cbn [negb bind]. rewrite Hcs'. cbn [bind].
    destruct frame; try done. destruct collid; try done.
    destruct id; try done; destruct bin_meas; done.
Qed.


(** ** Stacking the tracked frames *)

Lemma insert_axis_delete (l : list nat) t n :
  l !! t = Some n → insert_axis t n (delete t l) = l.
Proof.
  intros Ht. unfold insert_axis. revert t Ht.
  induction l as [|a l IH]; intros [|t] Ht; try done; simpl in *.
  - by injection Ht as ->.
  - f_equal. by apply IH.
Qed.

Lemma delete_insert_axis (l : list nat) t n :
  (t ≤ length l)%nat → delete t (insert_axis t n l) = l.
Proof.
  unfold insert_axis. revert t. induction l as [|a l IH]; intros [|t] Ht; simpl in *;
    try done; try lia. f_equal. apply IH. lia.
Qed.

Lemma insert_axis_lookup (l : list nat) t n :
  (t ≤ length l)%nat → insert_axis t n l !! t = Some n.
Proof.
  unfold insert_axis. revert t. induction l as [|a l IH]; intros [|t] Ht; simpl in *;
    try done; try lia. apply IH. lia.
Qed.

Lemma insert_axis_Forall2 (P : nat → nat → Prop) l k t a b :
  Forall2 P l k → P a b → Forall2 P (insert_axis t a l) (insert_axis t b k).
Proof.
  intros H Hab. unfold insert_axis. apply Forall2_app; [by apply Forall2_take|].
  constructor; [done|by apply Forall2_drop].
Qed.

Lemma ravel_lt shp : ∀ idx j,
  ravel shp idx = Some j → (j < foldr Nat.mul 1 shp)%nat.
Proof.
  induction shp as [|n shp IH]; intros [|i idx] j H; try done.
  - simpl in H. injection H as <-. simpl. lia.
  - cbn [ravel] in H. case_bool_decide; [|done].
    destruct (ravel shp idx) as [j'|] eqn:Hj; [|done]. simpl in H. injection H as <-.
    apply IH in Hj. cbn [foldr]. nia.
Qed.

Lemma ravel_total shp : ∀ idx,
  Forall2 (λ i n, (i < n)%nat) idx shp → ∃ j, ravel shp idx = Some j.
Proof.
  induction shp as [|n shp IH]; intros idx H.
  - apply Forall2_nil_inv_r in H as ->. by eexists.
  - apply Forall2_cons_inv_r in H as (i & idx' & Hi & H & ->).
    destruct (IH _ H) as [j Hj]. cbn [ravel].
    rewrite bool_decide_eq_true_2 by done. rewrite Hj. by eexists.
Qed.

Lemma np_indices_block_lookup (R : list (list nat)) n : ∀ a i j,
  (a ≤ i < a + n)%nat → (j < length R)%nat →
  (i ← seq a n; (λ idx, i :: idx) <$> R) !! ((i - a) * length R + j)%nat
  = (λ idx, i :: idx) <$> R !! j.
Proof.
  induction n as [|n IH]; intros a i j Hi Hj; [lia|].
  cbn [seq]. rewrite bind_cons.
  destruct (decide (i = a)) as [->|Hne].
  - replace (a - a)%nat with 0%nat by lia. simpl.
    rewrite lookup_app_l by (by rewrite length_fmap). by rewrite list_lookup_fmap.
  - replace (i - a)%nat with (S (i - S a)) by lia. cbn [Nat.mul].
    rewrite <- (IH (S a) i j) by lia. generalize ((i - S a) * length R)%nat. intros m.
    rewrite lookup_app_r by (rewrite length_fmap; lia). rewrite length_fmap.
    f_equal. lia.
Qed.

Lemma ravel_np_indices shp : ∀ idx j,
  ravel shp idx = Some j → np_indices shp !! j = Some idx.
Proof.
  induction shp as [|n shp IH]; intros [|i idx] j H; try done.
  - simpl in H. by injection H as <-.
  - cbn [ravel] in H. case_bool_decide as Hi; [|done].
    destruct (ravel shp idx) as [j'|] eqn:Hj; [|done]. simpl in H. injection H as <-.
    cbn [np_indices]. pose proof (ravel_lt _ _ _ Hj) as Hlt.
    rewrite <- np_indices_length in Hlt |- *.
    pose proof (np_indices_block_lookup (np_indices shp) n 0 i j') as Hb.
    rewrite Nat.sub_0_r in Hb. rewrite Hb by (done || lia).
    by rewrite (IH _ _ Hj).
Qed.

Lemma mapE_lookup {A B} (f : A → except B) l r i a :
  mapE f l = Ok r → l !! i = Some a → ∃ b, f a = Ok b ∧ r !! i = Some b.
Proof.
  intros H%mapE_Forall2 Ha.
  destruct (Forall2_lookup_l _ _ _ _ _ H Ha) as (b & Hb & Hfb). by exists b.
Qed.

Lemma mapE_ext_Ok {A B} (f : A → except B) (g : A → B) l :
  Forall (λ a, f a = Ok (g a)) l → mapE f l = Ok (g <$> l).
Proof.
  induction 1 as [|a l Ha _ IH]; [done|]. cbn [mapE]. rewrite Ha. cbn [bind].
  by rewrite IH.
Qed.

(** Slicing a stack along its axis gives back the stacked arrays. *)
Lemma frame_along_np_stack arrays t out k b :
  np_stack arrays t = Ok out → Forall nd_wf arrays → arrays !! k = Some b →
  frame_along out t k = Ok b.
Proof.
  unfold np_stack. intros H Hwf Hk.
  destruct arrays as [|a arrays'] eqn:Harr; [done|].
  rewrite <- Harr in H, Hwf, Hk. clear Harr arrays'.
  destruct (forallb _ arrays) eqn:Hshapes; [|done]. cbn [negb] in H.
  case_bool_decide as Haxis; [done|].
  inv_bind H as d Hd. injection H as <-.
  assert (t ≤ length (shape a))%nat as Ht by (unfold ndim in Haxis; lia).
  assert (shape b = shape a) as Hb.
  { apply list_elem_of_lookup_2 in Hk.
    rewrite forallb_forall in Hshapes. apply list_elem_of_In, Hshapes in Hk.
    by apply bool_decide_eq_true in Hk. }
  assert (nd_wf b) as Hwfb.
  { apply (proj1 (Forall_forall _ _) Hwf). by eapply list_elem_of_lookup_2. }
  unfold frame_along. cbn [shape]. rewrite delete_insert_axis by done.
  rewrite (mapE_ext_Ok _ (λ idx, default 0
             (data b !! default 0%nat (ravel (shape a) idx)))).
  - cbn [bind]. destruct b as [sb db]. simpl in *. subst sb. f_equal. f_equal.
    unfold nd_wf in Hwfb. simpl in Hwfb. rewrite <- np_indices_length in Hwfb.
    apply list_eq. intros j. rewrite list_lookup_fmap.
    destruct (np_indices (shape a) !! j) as [idx|] eqn:Hidx; simpl.
    + rewrite (np_indices_ravel _ _ _ Hidx). simpl.
      apply lookup_lt_Some in Hidx. rewrite <- Hwfb in Hidx.
      apply lookup_lt_is_Some_2 in Hidx as [v Hv]. by rewrite Hv.
    + apply lookup_ge_None in Hidx. symmetry. apply lookup_ge_None. lia.
  - apply Forall_forall. intros idx Hidx%list_elem_of_lookup. destruct Hidx as [j Hj].
    pose proof (np_indices_ravel _ _ _ Hj) as Hrav.
    pose proof (ravel_bounds _ _ _ Hrav) as Hbounds.
    pose proof (lookup_lt_Some _ _ _ Hk) as Hklt.
    assert (Forall2 (λ i n, (i < n)%nat) (insert_axis t k idx)
              (insert_axis t (length arrays) (shape a))) as Hb2
      by (by apply insert_axis_Forall2).
    destruct (ravel_total _ _ Hb2) as [j2 Hj2].
    unfold np_getitem at 1. cbn [shape data]. rewrite Hj2.
    apply ravel_np_indices in Hj2.
    destruct (mapE_lookup _ _ _ _ _ Hd Hj2) as (v & Hv & Hdv). rewrite Hdv. simpl.
    rewrite <- Hv.
    rewrite insert_axis_lookup by (apply Forall2_length in Hbounds; lia).
    rewrite Hk, delete_insert_axis by (apply Forall2_length in Hbounds; lia).
    unfold np_getitem. rewrite Hb, Hrav. simpl.
    unfold nd_wf in Hwfb. rewrite Hb, <- np_indices_length in Hwfb.
    apply lookup_lt_Some in Hj. rewrite <- Hwfb in Hj.
    apply lookup_lt_is_Some_2 in Hj as [w Hw]. by rewrite Hw.
Qed.

Lemma scatter_uint16_length pos : ∀ out vals out',
  scatter_uint16 out pos vals = Ok out' → length (data out') = length (data out).
Proof.
  induction pos as [|p pos IH]; intros out vals out' H.
  { simpl in H. by injection H as <-. }
  destruct vals as [|v vals]; simpl in H; [by injection H as <-|].
  inv_bind H as out1 H1. apply IH in H. rewrite H.
  unfold np_setitem_uint16 in H1. destruct (ravel _ _); [|done].
  injection H1 as <-. simpl. by rewrite length_insert.
Qed.

Lemma _coordinates_to_image_length x pos_data tracked_events out :
  _coordinates_to_image x pos_data tracked_events = Ok out →
  length (data out) = length (data x).
Proof.
  unfold _coordinates_to_image. intros H.
  case_bool_decide; [injection H as <-; simpl; by rewrite length_replicate|].
  inv_bind H as pos Hpos. case_bool_decide; [done|].
  apply scatter_uint16_length in H. rewrite H. simpl. by rewrite length_replicate.
Qed.

Section Stack.
Context `{E : Externals}.

Lemma img_track_frames_wf self x t ks : ∀ outs self',
  img_track_frames self x t ks = Ok (outs, self') → Forall nd_wf outs.
Proof.
  revert self. induction ks as [|k ks IH]; intros self outs self' H.
  - simpl in H. injection H as <- <-. constructor.
  - cbn [img_track_frames] in H.
    inv_bind H as x_frame Hframe. inv_bind H as [x_tracked self1] Hiter.
    inv_bind H as [rest self2] Hrest. injection H as <- <-.
    constructor; [|by eapply IH].
    pose proof (img_track_iteration_shape _ _ _ _ Hiter) as Hshape.
    apply img_track_iteration_Ok in Hiter as (_ & _ & Hout).
    apply _coordinates_to_image_length in Hout.
    unfold frame_along in Hframe. inv_bind Hframe as d Hd. injection Hframe as <-.
    apply mapE_length in Hd. unfold nd_wf. simpl in *.
    by rewrite Hshape, Hout, Hd, np_indices_length.
Qed.

Lemma str_index_first_index c l t :
  str_index c l = Ok t → c ∈ l ∧ first_index_of c l = t.
Proof.
  unfold str_index, first_index_of.
  destruct (list_find _ l) as [[i d]|] eqn:Hfind; [|done]. intros [= <-].
  apply list_find_Some in Hfind as (Hi & -> & _). split; [|done].
  by eapply list_elem_of_lookup_2.
Qed.

End Stack.

(** X17. When [track_events_image] returns, the result has the shape of
    the input, and its slice at position [k] of the T axis is the [k]-th
    frame [ImageTracker.track] yielded. *)
Theorem track_events_image_stacks_frames `{E : Externals}
    X eps eps_prev minClSz minSamples clusteringMethod propagationThreshold nPrev
    dims nJobs out :
  track_events_image X eps eps_prev minClSz minSamples clusteringMethod
    propagationThreshold nPrev dims nJobs = Ok out →
  ∃ L t frames tracker,
    Linker_init eps eps_prev minClSz minSamples clusteringMethod
      propagationThreshold nPrev nJobs = Ok L
    ∧ img_track_check X dims = Ok t
    ∧ img_track {| img_linker := L |} X dims = Ok (frames, tracker)
    ∧ frames ≠ []
    ∧ shape out = shape X
    ∧ ∀ k frame, frames !! k = Some frame → frame_along out t k = Ok frame.
Proof.
  unfold track_events_image. intros H.
  inv_bind H as L HL. inv_bind H as t Ht. inv_bind H as total Htotal.
  inv_bind H as [frames tracker] Htrack.
  destruct (shape X !! t) as [n|] eqn:Hn; [|done]. simpl in Htotal. injection Htotal as ->.
  apply str_index_first_index in Ht as [HT Ht].
  apply img_track_Ok in Htrack as (t' & n' & Hcheck & Hn' & Hframes0).
  pose proof (img_track_frames_wf _ _ _ _ _ _ Hframes0) as Hwf.
  pose proof (img_track_frames_shapes _ _ _ _ _ _ Hframes0) as [Hlen Hshapes].
  rewrite length_seq in Hlen.
  assert (t' = t) as ->.
  { pose proof (img_track_check_spec X dims) as Hspec. cbv zeta in Hspec.
    rewrite Hcheck in Hspec. repeat case_bool_decide; try done. congruence. }
  rewrite Hn in Hn'. injection Hn' as <-.
  exists L, t, frames, tracker. split; [done|]. split; [done|].
  split.
  { unfold img_track. rewrite Hcheck. cbn [bind]. by rewrite Hn. }
  pose proof H as Hstack. unfold np_stack in H.
  destruct frames as [|a frames'] eqn:Hframes; [done|]. rewrite <- Hframes in *.
  split; [by rewrite Hframes|].
  destruct (forallb _ frames); [|done]. cbn [negb] in H.
  case_bool_decide; [done|]. inv_bind H as d Hd. injection H as <-. cbn [shape].
  split.
  - assert (shape a = delete t (shape X)) as ->.
    { apply (proj1 (Forall_forall _ _) Hshapes). rewrite Hframes. left. }
    rewrite Hlen. by apply insert_axis_delete.
  - intros k frame Hk. by eapply frame_along_np_stack.
Qed.

(** X18. The errors of [track_events_image] once the Linker is
    constructed: a [dims] without T raises [ValueError] (from [str.index],
    not the [KeyError] of [track]); a T beyond the rank of the image raises
    [IndexError] before any check of [track]; and an image of length 0
    along T raises [ValueError], there being no frame to stack. *)
Theorem track_events_image_errors `{E : Externals}
    X eps eps_prev minClSz minSamples clusteringMethod propagationThreshold nPrev
    dims nJobs L :
  Linker_init eps eps_prev minClSz minSamples clusteringMethod
    propagationThreshold nPrev nJobs = Ok L →
  let dims_list := ascii_upper <$> list_ascii_of_string dims in
  let result := track_events_image X eps eps_prev minClSz minSamples clusteringMethod
                  propagationThreshold nPrev dims nJobs in
  ("T"%char ∉ dims_list → result = Raise (ValueError "substring not found"))
  ∧ (∀ t, dims_list !! t = Some "T"%char → "T"%char ∉ take t dims_list →
          (shape X !! t = None → result = Raise IndexError)
          ∧ (shape X !! t = Some 0%nat → NoDup dims_list → length dims_list = ndim X →
             result = Raise (ValueError "need at least one array to stack"))).
Proof.
  intros HL dims_list result. subst result. unfold track_events_image.
  rewrite HL. cbn [bind]. fold dims_list. split.
  - intros HT. unfold str_index.
    destruct (list_find _ dims_list) as [[i d]|] eqn:Hfind; [|done].
    apply list_find_Some in Hfind as (Hi & -> & _).
    by apply list_elem_of_lookup_2 in Hi.
  - intros t Ht Hfirst.
    assert (list_find (λ d, d = "T"%char) dims_list = Some (t, "T"%char)) as Hfind.
    { apply list_find_Some. split; [done|]. split; [done|].
      intros j d Hj Hlt ->. apply Hfirst.
      apply (list_elem_of_lookup_2 _ j). rewrite lookup_take_lt by done. done. }
    unfold str_index. rewrite Hfind. cbn [bind]. split.
    + by intros ->.
    + intros Hzero Hnodup Hlen. rewrite Hzero. cbn [from_option bind].
      unfold img_track.
      pose proof (img_track_check_spec X dims) as Hspec. cbv zeta in Hspec.
      fold dims_list in Hspec.
      rewrite bool_decide_eq_false_2 in Hspec by (by intros Hn; apply Hn).
      rewrite bool_decide_eq_false_2 in Hspec by (by intros Hn; apply Hn).
      rewrite bool_decide_eq_true_2 in Hspec by (by eapply list_elem_of_lookup_2).
      rewrite Hspec. cbn [bind]. unfold first_index_of. rewrite Hfind.
      rewrite Hzero. done.
Qed.

(** ** The rows of a tracked table *)

Lemma mask_select_filter {A} (g : A → bool) (l : list A) :
  mask_select l (g <$> l) = filter (λ x, g x = true) l.
Proof.
  induction l as [|a l IH]; [done|]. rewrite fmap_cons. cbn [mask_select].
  destruct (g a) eqn:Hg.
  - rewrite filter_cons_True by done. by f_equal.
  - rewrite filter_cons_False by (by rewrite Hg). done.
Qed.

Lemma get_column_row_cell x c col :
  get_column x c = Ok col → col = row_cell x c <$> rows x.
Proof.
  unfold get_column, column_index, row_cell.
  destruct (list_find _ _) as [[i d]|]; [|done]. cbn [bind]. intros H%mapE_Forall2.
  induction H as [|r v rs col Hr _ IH]; [done|]. rewrite fmap_cons. f_equal; [|done].
  unfold cell_at in Hr. destruct (r !! i); simpl in *; [by injection Hr|done].
Qed.

Lemma without_last_snoc {A} (l : list A) a : without_last (l ++ [a]) = l.
Proof.
  unfold without_last. rewrite length_app. simpl.
  replace (length l + 1 - 1)%nat with (length l) by lia. by rewrite take_app_length.
Qed.

Lemma filter_ext_in {A} (P Q : A → Prop) `{∀ x, Decision (P x), ∀ x, Decision (Q x)}
    (l : list A) :
  (∀ x, x ∈ l → P x ↔ Q x) → filter P l = filter Q l.
Proof.
  induction l as [|a l IH]; intros HPQ; [done|].
  assert (filter P l = filter Q l) as Hl.
  { apply IH. intros x Hx. apply HPQ. by right. }
  destruct (decide (P a)) as [Ha|Ha].
  - rewrite !filter_cons_True; [by f_equal| |done]. apply HPQ; [left|done].
  - rewrite !filter_cons_False; [done| |done]. intros HQ. apply Ha, HPQ; [left|done].
Qed.

Lemma filter_disjoint_app {A} (P Q : A → Prop)
    `{∀ x, Decision (P x), ∀ x, Decision (Q x)} (l : list A) :
  (∀ x, P x → Q x → False) →
  filter P l ++ filter Q l ≡ₚ filter (λ x, P x ∨ Q x) l.
Proof.
  intros Hd. induction l as [|a l IH]; [done|].
  destruct (decide (P a)) as [HP|HP]; destruct (decide (Q a)) as [HQ|HQ].
  - exfalso. eauto.
  - rewrite (filter_cons_True P), (filter_cons_False Q),
      (filter_cons_True (λ x, P x ∨ Q x)) by tauto.
    simpl. by rewrite IH.
  - rewrite (filter_cons_False P), (filter_cons_True Q),
      (filter_cons_True (λ x, P x ∨ Q x)) by tauto.
    rewrite <- Permutation_middle. by rewrite IH.
  - rewrite (filter_cons_False P), (filter_cons_False Q),
      (filter_cons_False (λ x, P x ∨ Q x)) by tauto.
    done.
Qed.

(** Cutting a list by frame number, frame after frame, loses and
    duplicates nothing. *)
Lemma frames_concat {A} (fr : A → Z) (l : list A) (n : nat) :
  concat ((λ t, filter (λ r, fr r = t) l) <$> (Z.of_nat <$> seq 0 n))
  ≡ₚ filter (λ r, 0 ≤ fr r < Z.of_nat n) l.
Proof.
  induction n as [|n IH].
  - simpl. rewrite (filter_ext_in _ (λ _, False)) by (intros; lia).
    clear. induction l as [|a l IH]; [done|]. by rewrite filter_cons_False by tauto.
  - rewrite seq_S, !fmap_app, concat_app. simpl. rewrite app_nil_r, IH.
    rewrite filter_disjoint_app by (intros; lia).
    erewrite list_filter_iff; [done|]. intros r. simpl. lia.
Qed.

Lemma fmap_concat_Forall2 {A B C D} (F : C → D) (g : B → list C) (h : A → list D)
    (ts : list A) (outs : list B) :
  Forall2 (λ t out, F <$> g out = h t) ts outs →
  F <$> concat (g <$> outs) = concat (h <$> ts).
Proof.
  induction 1 as [|t out ts outs Hto _ IH]; [done|].
  rewrite !fmap_cons. simpl. by rewrite fmap_app, Hto, IH.
Qed.

Lemma zip_with_snoc_rows {A B C} (g : A → list C) (h : B → C) (l : list A) (k : list B) :
  length k = length l →
  without_last <$> zip_with (λ r i, g r ++ [h i]) l k = g <$> l
  ∧ Forall (λ r, ∃ i, last r = Some (h i)) (zip_with (λ r i, g r ++ [h i]) l k).
Proof.
  revert k. induction l as [|a l IH]; intros [|b k] Hlen; try done.
  simpl in Hlen. destruct (IH k) as [IH1 IH2]; [lia|]. cbn [zip_with]. split.
  - rewrite !fmap_cons, without_last_snoc. by f_equal.
  - constructor; [|done]. exists b. by rewrite last_snoc.
Qed.

Section TableRows.
Context `{E : Externals}.

(** What one iteration of [track] emits, in terms of the rows of the
    sorted table. *)
Lemma df_track_iteration_rows self xs frames t qf out self' :
  df_wf xs → frames = row_frame xs (frame_column self) <$> rows xs →
  query_frame xs (frame_column self) frames t = Ok qf →
  df_track_iteration self qf = Ok (out, self') →
  without_last <$> rows out
    = without_column (columns xs) (collid_column self)
        <$> filter (λ r, row_active xs (bin_meas_column self) r = true)
              (filter (λ r, row_frame xs (frame_column self) r = t) (rows xs))
  ∧ Forall (λ r, ∃ i, last r = Some (CInt i)) (rows out)
  ∧ self' = df_set_linker self (df_linker self')
  ∧ columns out = filter (λ c, c ≠ collid_column self) (columns xs) ++ [collid_column self].
Proof.
  intros Hwf Hframes Hquery H.
  apply df_track_iteration_Ok in H as (active & coords & L' & Hact & Hco & Hlink & -> & ->).
  apply query_frame_Ok in Hquery as ->.
  set (qf := select_rows xs ((λ f, bool_decide (f = t)) <$> frames)) in *.
  assert (rows qf = filter (λ r, row_frame xs (frame_column self) r = t) (rows xs)) as Hqf.
  { unfold qf, select_rows. simpl. rewrite Hframes, <- list_fmap_compose.
    rewrite mask_select_filter. apply list_filter_iff. intros r. simpl.
    split; [apply bool_decide_eq_true_1|apply bool_decide_eq_true_2]. }
  assert (rows active = filter (λ r, row_active xs (bin_meas_column self) r = true) (rows qf))
    as Hrows.
  { unfold df_filter_active in Hact. unfold row_active.
    destruct (bin_meas_column self) as [c|].
    - inv_bind Hact as col Hcol. injection Hact as <-.
      apply get_column_row_cell in Hcol. unfold select_rows. simpl.
      by rewrite Hcol, <- list_fmap_compose, mask_select_filter.
    - injection Hact as <-. symmetry.
      rewrite (filter_ext_in _ (λ _, True)) by done.
      clear. induction (rows qf) as [|a l IH]; [done|].
      rewrite filter_cons_True by done. by f_equal. }
  pose proof (df_filter_active_columns _ _ _ Hact) as [Hcols _].
  assert (Forall (λ r : list cell, length r = length (columns xs)) (rows active)) as Hwfa.
  { rewrite Hrows, Hqf. apply Forall_forall.
    intros r [_ [_ Hr]%list_elem_of_filter]%list_elem_of_filter.
    by apply (proj1 (Forall_forall _ _) Hwf). }
  destruct (df_frame_output_rows self qf active (event_ids L') Hcols Hwfa) as [Hc Hr].
  change (columns qf) with (columns xs) in Hr, Hc.
  destruct (zip_with_snoc_rows
              (without_column (columns xs) (collid_column self)) CInt (rows active)
              (if bool_decide (event_ids L' = [])
               then replicate (length (rows active)) 0 else event_ids L'))
    as [H1 H2].
  { case_bool_decide as Hnil; [by rewrite length_replicate|].
    destruct (link_event_ids_length _ _ _ Hlink) as [?|Hlen]; [done|].
    apply _select_necessary_columns_length in Hco. congruence. }
  rewrite Hr. split; [by rewrite H1, Hrows, Hqf|]. split; [done|].
  split; [by destruct self|done].
Qed.

Lemma df_track_frames_rows self xs frames ts : ∀ outs self',
  df_wf xs → frames = row_frame xs (frame_column self) <$> rows xs →
  df_track_frames self xs frames ts = Ok (outs, self') →
  Forall2 (λ t out,
      without_last <$> rows out
      = without_column (columns xs) (collid_column self)
          <$> filter (λ r, row_active xs (bin_meas_column self) r = true)
                (filter (λ r, row_frame xs (frame_column self) r = t) (rows xs)))
    ts outs
  ∧ Forall (λ out, Forall (λ r, ∃ i, last r = Some (CInt i)) (rows out)) outs
  ∧ Forall (λ out, columns out
                   = filter (λ c, c ≠ collid_column self) (columns xs) ++ [collid_column self])
      outs.
Proof.
  revert self. induction ts as [|t ts IH]; intros self outs self' Hwf Hframes H.
  - simpl in H. injection H as <- <-. repeat split; constructor.
  - cbn [df_track_frames] in H. inv_bind H as qf Hquery.
    inv_bind H as [out self1] Hiter.
    inv_bind H as [rest self2] Hrest. injection H as <- <-.
    eapply df_track_iteration_rows in Hiter as (Hout & Hlast & Hself & Hcols); [|done..].
    rewrite Hself in Hrest. apply IH in Hrest as (Hrest & Hlasts & Hcolss); [|done..].
    repeat split; constructor; done.
Qed.

End TableRows.

(** [track] up to its loop over the frames. *)
Lemma df_track_Ok `{E : Externals} `{!ExternalsOk E} self x outs self' :
  df_track self x = Ok (outs, self') → df_wf x →
  ∃ xs frames fmax,
    df_empty x = false
    ∧ columns xs = columns x ∧ rows xs ≡ₚ rows x ∧ df_wf xs
    ∧ frames = row_frame xs (frame_column self) <$> rows xs
    ∧ np_nanmax frames = Ok fmax
    ∧ df_track_frames self xs frames (py_range (fmax + 1)) = Ok (outs, self').
Proof.
  intros H Hwf. unfold df_track in H.
  destruct (df_empty x); [done|].
  inv_bind H as xs Hsort. inv_bind H as fcol Hfcol. inv_bind H as frames Hframes.
  inv_bind H as fmax Hmax.
  pose proof (_sort_input_spec _ _ _ _ Hsort) as [Hcols Hrows].
  exists xs, frames, fmax. split; [done|]. split; [done|]. split; [done|].
  split; [unfold df_wf; rewrite Hcols, Hrows; exact Hwf|]. split; [|done].
  apply get_column_row_cell in Hfcol. subst fcol. apply mapE_Forall2 in Hframes.
  rewrite Forall2_fmap_l in Hframes. clear -Hframes.
  induction Hframes as [|r z rs frames Hr _ IH]; [done|].
  rewrite fmap_cons. f_equal; [|done]. unfold row_frame. simpl in Hr.
  destruct (row_cell xs (frame_column self) r); simpl in Hr; [by injection Hr|done].
Qed.

(** What [track] yields, all tables taken together. *)
Lemma df_track_spec `{E : Externals} `{!ExternalsOk E} self x outs self' :
  df_track self x = Ok (outs, self') → df_wf x →
  without_last <$> concat (rows <$> outs)
    ≡ₚ without_column (columns x) (collid_column self)
         <$> filter (λ r, row_active x (bin_meas_column self) r = true
                          ∧ 0 ≤ row_frame x (frame_column self) r) (rows x)
  ∧ Forall (λ r, ∃ i, last r = Some (CInt i)) (concat (rows <$> outs))
  ∧ Forall (λ out, columns out
                   = filter (λ c, c ≠ collid_column self) (columns x) ++ [collid_column self])
      outs.
Proof.
  intros H Hwf.
  apply df_track_Ok in H as (xs & frames & fmax & _ & Hcols & Hrows & Hwfs & Hfr & Hmax & H);
    [|done].
  apply df_track_frames_rows in H as (Houts & Hlast & Hcs); [|done..].
  rewrite Hcols in Hcs. split; [|split; [|exact Hcs]].
  2:{ apply Forall_concat, Forall_fmap. exact Hlast. }
  clear Hcs.
  rewrite (fmap_concat_Forall2 _ _ _ _ _ Houts).
  set (W := without_column (columns xs) (collid_column self)).
  set (act := λ r, row_active xs (bin_meas_column self) r = true).
  set (fr := row_frame xs (frame_column self)).
  assert (∀ ts : list Z,
            concat ((λ t, W <$> filter act (filter (λ r, fr r = t) (rows xs))) <$> ts)
            = W <$> concat ((λ t, filter (λ r, fr r = t) (filter act (rows xs))) <$> ts))
    as Heq.
  { intros ts. induction ts as [|t ts IH]; [done|]. rewrite !fmap_cons. simpl.
    rewrite fmap_app, <- IH. f_equal. f_equal.
    rewrite !list_filter_filter. apply list_filter_iff. intros r. tauto. }
  rewrite Heq.
  unfold py_range. rewrite frames_concat, list_filter_filter.
  assert (Forall (λ f, f ≤ fmax) frames) as Hle.
  { apply np_nanmax_Ok in Hmax as [_ Hle]. exact Hle. }
  rewrite (filter_ext_in _ (λ r, act r ∧ 0 ≤ fr r)).
  2:{ intros r Hr. split; [tauto|]. intros [Ha Hf]. split; [|done]. split; [done|].
      assert (fr r ≤ fmax).
      { apply (proj1 (Forall_forall _ _) Hle). rewrite Hfr.
        by apply (list_elem_of_fmap_2 fr). }
      lia. }
  unfold W, act, fr, row_active, row_frame, row_cell.
  clear -Hcols Hrows. destruct xs as [cs rs], x as [cx rx].
  cbn [columns rows] in *. subst cs. by rewrite Hrows.
Qed.

(** X19. [DataFrameTracker.track] loses and duplicates no row: taken
    together, the tables it yields hold exactly the active rows of the
    input whose frame number is not negative, each without its previous
    event id and with an integer event id as its last cell. Rows with a
    negative frame number are dropped. *)
Theorem df_track_rows `{E : Externals} `{!ExternalsOk E} self x outs self' :
  df_track self x = Ok (outs, self') → df_wf x →
  without_last <$> concat (rows <$> outs)
    ≡ₚ without_column (columns x) (collid_column self)
         <$> filter (λ r, row_active x (bin_meas_column self) r = true
                          ∧ 0 ≤ row_frame x (frame_column self) r) (rows x)
  ∧ Forall (λ r, ∃ i, last r = Some (CInt i)) (concat (rows <$> outs)).
Proof.
  intros H Hwf. apply df_track_spec in H as (Hrows & Hlast & _); done.
Qed.

(** ** The entry point for tables *)

Lemma DataFrameTracker_init_frame linker coordinates frame id bin_meas collid T :
  DataFrameTracker_init linker coordinates frame id bin_meas collid = Ok T →
  str_value frame = Ok (frame_column T).
Proof.
  unfold DataFrameTracker_init. intros H.
  inv_bind H as u Hu. inv_bind H as cs Hcs. inv_bind H as f Hf.
  inv_bind H as i Hi. inv_bind H as b Hb. inv_bind H as c Hc.
  by injection H as <-.
Qed.

Lemma get_column_missing x name : name ∉ columns x → get_column x name = Raise KeyError.
Proof. intros H. unfold get_column. by rewrite column_index_missing. Qed.

Lemma df_track_frames_nil `{E : Externals} self xs frames :
  df_track_frames self xs frames [] = Ok ([], self).
Proof. done. Qed.

(** X20. The table returned by [track_events_dataframe] has the columns
    of the input other than the event id column, followed by the event id
    column; its rows are, up to their order, the active rows of the input
    whose frame number is not negative, each without its previous event id
    and with an integer event id as its last cell. *)
Theorem track_events_dataframe_table `{E : Externals} `{!ExternalsOk E}
    X coordinates frame id bin_meas collid
    eps eps_prev minClSz minSamples method threshold nPrev nJobs out :
  track_events_dataframe X coordinates frame id bin_meas collid
    eps eps_prev minClSz minSamples method threshold nPrev nJobs = Ok out →
  df_wf X →
  ∃ L T,
    Linker_init eps eps_prev minClSz minSamples method threshold nPrev nJobs = Ok L
    ∧ DataFrameTracker_init L coordinates frame id bin_meas collid = Ok T
    ∧ columns out = filter (λ c, c ≠ collid_column T) (columns X) ++ [collid_column T]
    ∧ without_last <$> rows out
        ≡ₚ without_column (columns X) (collid_column T)
             <$> filter (λ r, row_active X (bin_meas_column T) r = true
                              ∧ 0 ≤ row_frame X (frame_column T) r) (rows X)
    ∧ Forall (λ r, ∃ i, last r = Some (CInt i)) (rows out).
Proof.
  intros H Hwf. unfold track_events_dataframe in H.
  inv_bind H as L HL. inv_bind H as T HT. inv_bind H as fr Hfr.
  inv_bind H as total Htotal. inv_bind H as [outs T'] Htrack.
  apply df_track_spec in Htrack as (Hrows & Hlast & Hcols); [|done].
  unfold pd_concat in H. destruct outs as [|o outs]; [done|]. injection H as <-.
  cbn [columns rows]. exists L, T. split; [done|]. split; [done|].
  split; [by inversion Hcols|]. done.
Qed.

(** X21. The ways [track_events_dataframe] fails once both constructors
    have accepted their arguments: a missing frame column is a KeyError,
    raised before anything is tracked and also for an empty table; an empty
    table that has the frame column is rejected with "Input is empty"; and
    a table all of whose frame numbers are negative yields no frame, so that
    the concatenation fails. *)
Theorem track_events_dataframe_errors `{E : Externals} `{!ExternalsOk E}
    X coordinates frame id bin_meas collid
    eps eps_prev minClSz minSamples method threshold nPrev nJobs L T :
  Linker_init eps eps_prev minClSz minSamples method threshold nPrev nJobs = Ok L →
  DataFrameTracker_init L coordinates frame id bin_meas collid = Ok T →
  let result := track_events_dataframe X coordinates frame id bin_meas collid
                  eps eps_prev minClSz minSamples method threshold nPrev nJobs in
  (frame_column T ∉ columns X → result = Raise KeyError)
  ∧ (frame_column T ∈ columns X → df_empty X = true →
     result = Raise (ValueError "Input is empty"))
  ∧ (∀ outs T', df_track T X = Ok (outs, T') → df_wf X →
     Forall (λ r, row_frame X (frame_column T) r < 0) (rows X) →
     result = Raise (ValueError "No objects to concatenate")).
Proof.
  intros HL HT result. unfold result, track_events_dataframe.
  rewrite HL. cbn [bind]. rewrite HT. cbn [bind].
  rewrite (DataFrameTracker_init_frame _ _ _ _ _ _ _ HT). cbn [bind].
  split; [|split].
  - intros Hmiss. by rewrite get_column_missing.
  - intros Hin Hempty.
    assert (rows X = []) as Hrows.
    { unfold df_empty in Hempty. apply orb_true_iff in Hempty as [Hc|Hr].
      - apply bool_decide_eq_true in Hc. rewrite Hc in Hin. by apply elem_of_nil in Hin.
      - by apply bool_decide_eq_true in Hr. }
    unfold get_column, column_index.
    destruct (list_find_elem_of (λ c, c = frame_column T) (columns X) (frame_column T))
      as [[i c] Hfind]; [done..|].
    rewrite Hfind. cbn [bind]. rewrite Hrows. cbn [mapE bind].
    unfold df_track. by rewrite Hempty.
  - intros outs T' Htrack Hwf Hneg.
    destruct (get_column X (frame_column T)) as [col|e] eqn:Hcol.
    2:{ exfalso. unfold df_track in Htrack. destruct (df_empty X); [done|].
        inv_bind Htrack as xs Hsort. inv_bind Htrack as fcol Hfcol.
        pose proof (_sort_input_spec _ _ _ _ Hsort) as [Hcols Hrows].
        unfold get_column in Hcol, Hfcol. unfold column_index in Hcol, Hfcol.
        rewrite Hcols in Hfcol.
        destruct (list_find _ (columns X)) as [[i c]|]; [|done].
        cbn [bind] in Hcol, Hfcol.
        destruct (mapE_total (λ r, cell_at r i) (rows X)) as [res Hres]; [|congruence].
        apply mapE_Forall2 in Hfcol. apply Forall_forall. intros r Hr.
        rewrite <- Hrows in Hr. apply list_elem_of_lookup in Hr as [k Hk].
        destruct (Forall2_lookup_l _ _ _ _ _ Hfcol Hk) as (c' & _ & Hc'). by eexists. }
    cbn [bind].
    pose proof Htrack as Htrack2.
    apply df_track_Ok in Htrack2 as (xs & frames & fmax & Hne & Hcols & Hrows & Hwfs & Hfr & Hmax & H);
      [|done].
    assert (fmax < 0) as Hlt.
    { apply np_nanmax_Ok in Hmax as [Hin _]. rewrite Hfr in Hin.
      apply list_elem_of_fmap in Hin as (r & -> & Hr). rewrite Hrows in Hr.
      apply (proj1 (Forall_forall _ _) Hneg) in Hr.
      unfold row_frame, row_cell in *. by rewrite Hcols. }
    unfold py_range in H. replace (Z.to_nat (fmax + 1)) with 0%nat in H by lia.
    simpl in H. injection H as <- <-. rewrite Htrack. done.
Qed.

Section Witnesses.
#[local] Existing Instance reference_externals.

Lemma demo_linker_init :
  Linker_init (PyInt 1) PyNone (PyInt 1) (PyInt 1)
    (PyStr "dbscan") (PyInt 1) (PyInt 1) (PyInt 1) = Ok demo_linker.
Proof. reflexivity. Qed.

Lemma demo_linker_reachable : reachable demo_linker.
Proof. eapply reachable_init, demo_linker_init. Qed.


Lemma link_all_ids_and_counter_witness :
  let outs := [([1; 1], 1); ([], 1); ([2; 2], 2); ([2; 2], 2)] in
  Sorted Z.le (counter demo_linker :: outs.*2)
  ∧ Forall (λ out, Forall (λ i, i = -1 ∨ 0 < i ≤ out.2) out.1) outs.
Proof.
  eapply (link_all_ids_and_counter demo_linker
            [frame_a; []; frame_a; frame_b]).
  - exact demo_linker_reachable.
  - vm_compute. reflexivity.
Defined.

Lemma public_counter_never_written_witness :
  let L := demo_linker in
  max_prev_event_id L = 0
  ∧ (∀ v x, link (set_max_prev_event_id L v) x
            = (let! L1 := link L x in Ok (set_max_prev_event_id L1 v))).
Proof.
  intros L.
  destruct (public_counter_never_written demo_linker
              [frame_a; frame_b] [([1; 1], 1); ([1; 1], 1)]
              (default demo_linker
                 (match link_all demo_linker [frame_a; frame_b] with
                  | Ok r => Some r.2 | Raise _ => None end)))
    as (H1 & _ & H2 & _).
  - exact demo_linker_reachable.
  - vm_compute. reflexivity.
  - split; [exact H1|exact H2].
Defined.

Lemma demo_linker_after_a :
  link demo_linker frame_a = Ok (linker_after demo_linker frame_a).
Proof. vm_compute. reflexivity. Qed.

Lemma demo_linker_after_a_reachable : reachable (linker_after demo_linker frame_a).
Proof. eapply reachable_link; [exact demo_linker_reachable|exact demo_linker_after_a]. Qed.

Lemma first_frame_path_and_drain_witness :
  let L := linker_after demo_linker frame_a in
  0 ≤ n_timepoints (_memory L)
  ∧ ∃ outs L1,
      link_all L (replicate (Z.to_nat (n_timepoints (_memory L))) []) = Ok (outs, L1)
      ∧ memory_ids L1 = [] ∧ counter L1 = counter L.
Proof.
  intros L. split; [vm_compute; discriminate|].
  destruct (first_frame_path_and_drain L demo_linker_after_a_reachable)
    as (_ & outs & L1 & H1 & H2 & H3 & _); [vm_compute; discriminate|].
  by exists outs, L1.
Defined.

Lemma link_event_ids_rows_witness :
  let L := linker_after demo_linker frame_a in
  let L' := linker_after L frame_b in
  ∃ clusters,
    length (event_ids L') = length frame_b
    ∧ (∀ i, event_ids L' !! i = Some (-1) ↔ clusters !! i = Some None)
    ∧ mask_select (event_ids L') (kept clusters)
      = linked_ids L (omap id clusters) (mask_select frame_b (kept clusters)).
Proof.
  intros L L'.
  destruct (link_event_ids_rows (ExternalsOk0 := reference_externals_ok) L frame_b L')
    as (clusters & _ & _ & _ & H1 & H2 & H3).
  - exact demo_linker_after_a_reachable.
  - repeat constructor; done.
  - vm_compute. reflexivity.
  - by exists clusters.
Defined.

Lemma link_normal_path_clusters_witness :
  let L := linker_after demo_linker frame_a in
  let L' := linker_after L frame_b in
  mask_select (event_ids L') [true; true]
    = zip_with (row_id (memory_ids L) (memory_points L) (propagation_threshold L)
                  (eps_of L) (counter L) [1; 1] frame_b) [1; 1] frame_b
  ∧ counter L' = counter L + Z.of_nat (length (minted_clusters L [1; 1] frame_b)).
Proof.
  intros L L'.
  destruct (link_normal_path_clusters (ExternalsOk0 := reference_externals_ok)
              L frame_b L' [1; 1] frame_b [false; false])
    as (H1 & _ & H3 & _).
  - exact demo_linker_after_a_reachable.
  - vm_compute. reflexivity.
  - vm_compute. reflexivity.
  - vm_compute. discriminate.
  - discriminate.
  - split; [exact H1|exact H3].
Defined.

(** With [propagationThreshold = 0] and no memory point within [epsPrev],
    the number of eligible neighbours (0) is not below the threshold, yet
    the cluster does not inherit the id 1 of its nearest memory neighbour:
    it receives the fresh id 2. *)
Lemma link_zero_threshold_counterexample :
  let L := zero_threshold_linker in
  let x : list coord := [[5; 5]]%Q in
  ∃ L',
    link L x = Ok L'
    ∧ _clustering L x = Ok ([1], x, [false])
    ∧ memory_ids L = [1]
    ∧ eligible (memory_ids L) (memory_points L) (eps_of L) (cluster_points [1] x 1) = []
    ∧ ¬ (Z.of_nat (length (eligible (memory_ids L) (memory_points L) (eps_of L)
                             (cluster_points [1] x 1)))
         < propagation_threshold L)
    ∧ neighbor_id (memory_ids L) (memory_points L) [5; 5]%Q = 1
    ∧ event_ids L' = [2]
    ∧ event_ids L' ≠ neighbor_id (memory_ids L) (memory_points L) <$> x.
Proof.
  intros L x. exists (linker_after L x).
  repeat split; try (vm_compute; reflexivity); vm_compute; discriminate.
Qed.



Lemma df_track_every_frame_witness :
  let self' := default demo_tracker
                 (match df_track demo_tracker demo_table with
                  | Ok r => Some r.2 | Raise _ => None end) in
  df_track demo_tracker demo_table = Ok (demo_tracked, self')
  ∧ df_empty demo_table = false
  ∧ ∃ x_sorted frames fmax inputs louts,
      _sort_input demo_table "t" None = Ok x_sorted
      ∧ get_column x_sorted "t" = Ok (CInt <$> frames)
      ∧ Sorted Z.le frames
      ∧ np_nanmax frames = Ok fmax
      ∧ mapE (df_frame_input demo_tracker x_sorted frames) (py_range (fmax + 1)) = Ok inputs
      ∧ link_all demo_linker inputs.*2 = Ok (louts, df_linker self')
      ∧ length demo_tracked = Z.to_nat (fmax + 1)
      ∧ demo_tracked
        = zip_with (λ inp lo, df_frame_output demo_tracker x_sorted inp.1 lo.1) inputs louts.
Proof.
  intros self'.
  assert (df_track demo_tracker demo_table = Ok (demo_tracked, self')) as H
    by (vm_compute; reflexivity).
  destruct (df_track_every_frame (ExternalsOk0 := reference_externals_ok)
              demo_tracker demo_table demo_tracked self' H)
    as (H1 & _ & xs & frames & fmax & inputs & louts
        & H2 & _ & _ & _ & H3 & Hs & H4 & H5 & H6 & H7 & _ & _ & H8 & _).
  split; [exact H|]. split; [exact H1|].
  exists xs, frames, fmax, inputs, louts.
  split; [exact H2|]. split; [exact H3|]. split; [exact Hs|].
  split; [exact H4|]. split; [exact H5|].
  split; [exact H6|]. split; [exact H7|exact H8].
Defined.

End Witnesses.

Section MoreWitnesses.
#[local] Existing Instance reference_externals.

Lemma demo_linker_drained_reachable :
  reachable (linker_after (linker_after demo_linker frame_a) []).
Proof.
  apply (reachable_link (linker_after demo_linker frame_a) []);
    [exact demo_linker_after_a_reachable|].
  vm_compute. reflexivity.
Qed.

Lemma demo_linker_window_init n :
  Linker_init (PyInt 1) PyNone (PyInt 1) (PyInt 1)
    (PyStr "dbscan") (PyInt 1) (PyInt n) (PyInt 1) = Ok (demo_linker_window n).
Proof. reflexivity. Qed.

Lemma link_ids_inherited_or_fresh_witness :
  let L := linker_after demo_linker frame_a in
  let L' := linker_after L frame_b in
  Forall (λ i, i = -1 ∨ i ∈ memory_ids L ∨ counter L < i ≤ counter L') (event_ids L').
Proof.
  intros L L'. apply (link_ids_inherited_or_fresh L frame_b L').
  - exact demo_linker_after_a_reachable.
  - vm_compute. reflexivity.
Defined.

Lemma forgotten_id_never_returns_witness :
  let L := linker_after (linker_after demo_linker frame_a) [] in
  let outs := [([2; 2], 2); ([2; 2], 2)] in
  let L' := linker_after_all L [frame_a; frame_b] in
  Forall (λ out : list Z * Z, 1 ∉ out.1) outs ∧ 1 ∉ memory_ids L'.
Proof.
  intros L outs L'.
  apply (forgotten_id_never_returns L [frame_a; frame_b] outs L' 1).
  - exact demo_linker_drained_reachable.
  - vm_compute. reflexivity.
  - discriminate.
  - vm_compute. discriminate.
  - apply (bool_decide_unpack _). vm_compute. exact I.
Defined.

Lemma link_all_memory_window_witness :
  let L := demo_linker in
  let frames := [frame_a; frame_b] in
  let outs := [([1; 1], 1); ([1; 1], 1)] in
  let L' := linker_after_all L frames in
  coordinates (_memory L')
    = last_frames 1 (coordinates (_memory L) ++ (kept_rows L <$> frames))
  ∧ prev_cluster_ids (_memory L')
    = last_frames 1 (prev_cluster_ids (_memory L) ++ zip_with (kept_ids L) frames outs.*1).
Proof.
  intros L frames outs L'.
  apply (link_all_memory_window (ExternalsOk0 := reference_externals_ok) L frames outs L').
  - exact demo_linker_reachable.
  - vm_compute. discriminate.
  - vm_compute. reflexivity.
Defined.

Lemma link_all_negative_window_witness :
  let L := demo_linker_window (-1) in
  let frames := [frame_a; frame_b] in
  let outs := [([1; 1], 1); ([1; 1], 1)] in
  let L' := linker_after_all L frames in
  coordinates (_memory L') = coordinates (_memory L) ++ (kept_rows L <$> frames)
  ∧ prev_cluster_ids (_memory L')
    = prev_cluster_ids (_memory L) ++ zip_with (kept_ids L) frames outs.*1.
Proof.
  intros L frames outs L'.
  apply (link_all_negative_window (ExternalsOk0 := reference_externals_ok) L frames outs L').
  - eapply reachable_init, (demo_linker_window_init (-1)).
  - vm_compute. reflexivity.
  - vm_compute. reflexivity.
Defined.

Lemma link_zero_window_raises_witness :
  link (demo_linker_window 0) frame_a = Raise IndexError.
Proof.
  rewrite (link_zero_window_raises (demo_linker_window 0) frame_a).
  - vm_compute. reflexivity.
  - eapply reachable_init, (demo_linker_window_init 0).
  - vm_compute. reflexivity.
Defined.

Lemma link_all_never_raises_witness :
  ∃ outs L', link_all demo_linker [frame_a; frame_b] = Ok (outs, L')
             ∧ length outs = length [frame_a; frame_b].
Proof.
  apply (link_all_never_raises (ExternalsOk0 := reference_externals_ok)
           (PyInt 1) PyNone (PyInt 1) (PyInt 1) (PyStr "dbscan") (PyInt 1) (PyInt 1)
           (PyInt 1) demo_linker [frame_a; frame_b] 2).
  - exact demo_linker_init.
  - vm_compute. discriminate.
  - right. vm_compute. discriminate.
  - eexists. vm_compute. reflexivity.
  - lia.
  - repeat constructor; try discriminate; intros _; eexists; split; vm_compute; reflexivity.
Defined.

Lemma Linker_init_succeeds_iff_witness :
  ∃ m ms thr n j name,
    isinstance (PyInt 1) [py_int; py_float; py_str] = true
    ∧ isinstance PyNone [py_int; py_NoneType] = true
    ∧ PyInt 1 = PyInt m ∧ PyInt 1 = PyInt ms ∧ PyInt 1 = PyInt thr
    ∧ PyInt 1 = PyInt n ∧ PyInt 1 = PyInt j
    ∧ PyStr "dbscan" = PyStr name ∧ (name = "dbscan" ∨ name = "hdbscan")
    ∧ demo_linker
      = {| _memory := {| n_timepoints := n; coordinates := [];
                         prev_cluster_ids := []; max_prev_cluster_id := 0 |};
           _nn_tree := None; propagation_threshold := thr;
           epsPrev := PyInt 1;
           n_jobs := j; event_ids := []; max_prev_event_id := 0;
           clustering_function :=
             if bool_decide (name = "dbscan") then λ x, _dbscan x (PyInt 1) m 1
             else λ x, _hdbscan x (PyInt 1) m ms "leaf" 1 |}.
Proof.
  apply (proj1 (Linker_init_succeeds_iff (PyInt 1) PyNone (PyInt 1) (PyInt 1)
                  (PyStr "dbscan") (PyInt 1) (PyInt 1) (PyInt 1) demo_linker)).
  reflexivity.
Defined.

Lemma group_by_clusterid_partition_witness :
  let cl := [2; 1; 2] in
  let co : list coord := [[0; 0]; [5; 5]; [0; 1]]%Q in
  let key := [1; 0; 2]%nat in
  let gcl := [[1]; [2; 2]] in
  let gco : list (list coord) := [[[5; 5]]; [[0; 0]; [0; 1]]]%Q in
  _group_by_clusterid cl co = Ok (key, gcl, gco)
  ∧ key ≡ₚ seq 0 (length cl)
  ∧ Forall2 (λ (g : list Z) (c : list coord), length g = length c) gcl gco
  ∧ concat gcl = (λ i, default 0 (cl !! i)) <$> key
  ∧ concat gco = (λ i, default [] (co !! i)) <$> key
  ∧ zip (concat gcl) (concat gco) ≡ₚ zip cl co.
Proof.
  intros cl co key gcl gco.
  assert (_group_by_clusterid cl co = Ok (key, gcl, gco)) as H
    by (vm_compute; reflexivity).
  destruct (group_by_clusterid_partition (ExternalsOk0 := reference_externals_ok)
              cl co key gcl gco H) as (H1 & _ & H3 & H4 & H5 & H6).
  - discriminate.
  - reflexivity.
  - split; [exact H|]. split; [exact H1|]. split; [exact H3|]. split; [exact H4|].
    split; [exact H5|exact H6].
Defined.

Lemma df_track_iteration_succeeds_witness :
  let active := {| columns := ["t"; "x"; "y"; "m"];
                   rows := [ [CInt 2; CInt 0; CInt 0; CInt 1];
                             [CInt 0; CInt 0; CInt 0; CInt 1];
                             [CInt 0; CInt 0; CInt 1; CInt 1] ] |} in
  let coords : list coord := [[0; 0]; [0; 0]; [0; 1]]%Q in
  ∃ out, df_track_iteration demo_tracker demo_table
         = Ok (out, df_set_linker demo_tracker (linker_after demo_linker coords)).
Proof.
  intros active coords.
  apply (df_track_iteration_succeeds demo_tracker demo_table active coords
           (linker_after demo_linker coords)).
  - vm_compute. reflexivity.
  - vm_compute. reflexivity.
  - vm_compute. reflexivity.
Defined.

Lemma df_track_iteration_table_witness :
  let out := {| columns := ["t"; "x"; "y"; "m"; "clTrackID"];
                rows := [ [CInt 2; CInt 0; CInt 0; CInt 1; CInt 1];
                          [CInt 0; CInt 0; CInt 0; CInt 1; CInt 1];
                          [CInt 0; CInt 0; CInt 1; CInt 1; CInt 1] ] |} in
  let self' := tracker_after demo_tracker demo_table in
  df_track_iteration demo_tracker demo_table = Ok (out, self')
  ∧ ∃ active ids,
      df_filter_active demo_table (Some "m") = Ok active
      ∧ length ids = length (rows active)
      ∧ columns out = filter (λ c, c ≠ "clTrackID") (columns demo_table) ++ ["clTrackID"]
      ∧ rows out = zip_with (λ r i, without_column (columns demo_table) "clTrackID" r
                                     ++ [CInt i]) (rows active) ids
      ∧ df_wf out.
Proof.
  intros out self'.
  assert (df_track_iteration demo_tracker demo_table = Ok (out, self')) as H
    by (vm_compute; reflexivity).
  split; [exact H|].
  destruct (df_track_iteration_table demo_tracker demo_table out self')
    as (active & ids & H1 & _ & H3 & H4 & H5 & H6).
  - repeat constructor.
  - exact H.
  - exists active, ids. split; [exact H1|]. split; [exact H3|]. split; [exact H4|].
    split; [exact H5|exact H6].
Defined.

Lemma image_to_coordinates_voxels_witness :
  ∃ coords meas,
    _image_to_coordinates wrap_frame = Ok (coords, meas)
    ∧ length coords = length (data wrap_frame)
    ∧ meas = to_uint16 <$> data wrap_frame
    ∧ ∀ k p, coords !! k = Some p →
        Forall2 (λ i n, 0 ≤ i < Z.of_nat n) p (shape wrap_frame)
        ∧ ravel (shape wrap_frame) (Z.to_nat <$> p) = Some k.
Proof.
  apply (image_to_coordinates_voxels wrap_frame).
  - discriminate.
  - reflexivity.
Defined.

Lemma img_track_iteration_voxels_witness :
  let self := {| img_linker := demo_linker |} in
  let out := {| shape := [2; 2]%nat; data := [1; 0; 1; 1] |} in
  let self' := image_tracker_after self wrap_frame in
  let active := (λ v, bool_decide (0 < to_uint16 v)) <$> data wrap_frame in
  let ids := event_ids (img_linker self') in
  img_track_iteration self wrap_frame = Ok (out, self')
  ∧ shape out = shape wrap_frame
  ∧ link (img_linker self) [[0; 0]; [1; 0]; [1; 1]]%Q = Ok (img_linker self')
  ∧ length ids = count_true active
  ∧ data out = mask_fill (replicate (length (data wrap_frame)) 0) active (clamp_id <$> ids).
Proof.
  intros self out self' active ids.
  assert (img_track_iteration self wrap_frame = Ok (out, self')) as H
    by (vm_compute; reflexivity).
  split; [exact H|].
  destruct (img_track_iteration_voxels self wrap_frame out self' H)
    as (H1 & _ & H2 & H3 & H4).
  - reflexivity.
  - repeat constructor; vm_compute; discriminate.
  - split; [exact H1|]. split; [exact H2|]. split; [exact H3|exact H4].
Defined.

Lemma img_track_frames_and_shapes_witness :
  let self := {| img_linker := demo_linker |} in
  let outs := [ {| shape := [1; 1]%nat; data := [1] |};
                {| shape := [1; 1]%nat; data := [1] |} ] in
  ∃ t n, img_track_check tiny_image "TXY" = Ok t ∧ shape tiny_image !! t = Some n
         ∧ length outs = n
         ∧ Forall (λ o, shape o = delete t (shape tiny_image)) outs.
Proof.
  intros self outs.
  apply (img_track_frames_and_shapes self tiny_image "TXY" outs
           (image_tracker_after (image_tracker_after self
              {| shape := [1; 1]%nat; data := [1] |})
              {| shape := [1; 1]%nat; data := [1] |})).
  vm_compute. reflexivity.
Defined.

End MoreWitnesses.

Section EntryWitnesses.
#[local] Existing Instance reference_externals.

Lemma demo_tracker_init :
  DataFrameTracker_init demo_linker [PyStr "x"; PyStr "y"] (PyStr "t") PyNone (PyStr "m")
    (PyStr "clTrackID") = Ok demo_tracker.
Proof. reflexivity. Qed.

Lemma DataFrameTracker_init_succeeds_iff_witness :
  ∃ cs f c,
    [PyStr "x"; PyStr "y"] = PyStr <$> cs ∧ PyStr "t" = PyStr f
    ∧ PyStr "clTrackID" = PyStr c
    ∧ optional_str_value PyNone = Ok (id_column demo_tracker)
    ∧ optional_str_value (PyStr "m") = Ok (bin_meas_column demo_tracker)
    ∧ demo_tracker
      = {| df_linker := demo_linker; coordinates_column := cs; frame_column := f;
           id_column := id_column demo_tracker;
           bin_meas_column := bin_meas_column demo_tracker; collid_column := c |}.
Proof.
  apply (proj1 (proj1 (DataFrameTracker_init_succeeds_iff demo_linker
                         [PyStr "x"; PyStr "y"] (PyStr "t") PyNone (PyStr "m")
                         (PyStr "clTrackID") demo_tracker))).
  reflexivity.
Defined.


Lemma track_events_image_stacks_frames_witness :
  let out := {| shape := [2; 1; 1]%nat; data := [1; 1] |} in
  ∃ L t frames tracker,
    Linker_init (PyInt 1) PyNone (PyInt 1) (PyInt 1) (PyStr "dbscan") (PyInt 1) (PyInt 1)
      (PyInt 1) = Ok L
    ∧ img_track_check tiny_image "TXY" = Ok t
    ∧ img_track {| img_linker := L |} tiny_image "TXY" = Ok (frames, tracker)
    ∧ frames ≠ []
    ∧ shape out = shape tiny_image
    ∧ ∀ k frame, frames !! k = Some frame → frame_along out t k = Ok frame.
Proof.
  intros out.
  apply (track_events_image_stacks_frames tiny_image (PyInt 1) PyNone (PyInt 1) (PyInt 1)
           (PyStr "dbscan") (PyInt 1) (PyInt 1) "TXY" (PyInt 1) out).
  vm_compute. reflexivity.
Defined.

Lemma track_events_image_errors_witness :
  let run X dims := track_events_image X (PyInt 1) PyNone (PyInt 1) (PyInt 1)
                      (PyStr "dbscan") (PyInt 1) (PyInt 1) dims (PyInt 1) in
  run tiny_image "XYZ" = Raise (ValueError "substring not found")
  ∧ run tiny_image "xyzt" = Raise IndexError
  ∧ run {| shape := [0; 1; 1]%nat; data := [] |} "TXY"
    = Raise (ValueError "need at least one array to stack").
Proof.
  intros run. split; [|split].
  - apply (proj1 (track_events_image_errors tiny_image (PyInt 1) PyNone (PyInt 1) (PyInt 1)
                    (PyStr "dbscan") (PyInt 1) (PyInt 1) "XYZ" (PyInt 1) demo_linker
                    demo_linker_init)).
    apply (bool_decide_unpack _). vm_compute. exact I.
  - apply (proj2 (track_events_image_errors tiny_image (PyInt 1) PyNone (PyInt 1) (PyInt 1)
                    (PyStr "dbscan") (PyInt 1) (PyInt 1) "xyzt" (PyInt 1) demo_linker
                    demo_linker_init) 3%nat).
    + reflexivity.
    + apply (bool_decide_unpack _). vm_compute. exact I.
    + reflexivity.
  - apply (proj2 (track_events_image_errors {| shape := [0; 1; 1]%nat; data := [] |}
                    (PyInt 1) PyNone (PyInt 1) (PyInt 1)
                    (PyStr "dbscan") (PyInt 1) (PyInt 1) "TXY" (PyInt 1) demo_linker
                    demo_linker_init) 0%nat).
    + reflexivity.
    + apply (bool_decide_unpack _). vm_compute. exact I.
    + reflexivity.
    + apply (bool_decide_unpack _). vm_compute. exact I.
    + reflexivity.
Defined.

Lemma df_track_rows_witness :
  without_last <$> concat (rows <$> demo_tracked)
    ≡ₚ without_column (columns demo_table) "clTrackID"
         <$> filter (λ r, row_active demo_table (Some "m") r = true
                          ∧ 0 ≤ row_frame demo_table "t" r) (rows demo_table)
  ∧ Forall (λ r, ∃ i, last r = Some (CInt i)) (concat (rows <$> demo_tracked)).
Proof.
  assert (∃ self', df_track demo_tracker demo_table = Ok (demo_tracked, self')) as [self' H]
    by (eexists; vm_compute; reflexivity).
  apply (df_track_rows (ExternalsOk0 := reference_externals_ok)
           demo_tracker demo_table demo_tracked self' H).
  repeat constructor.
Defined.

Lemma track_events_dataframe_table_witness :
  let out := {| columns := ["t"; "x"; "y"; "m"; "clTrackID"];
                rows := [ [CInt 0; CInt 0; CInt 0; CInt 1; CInt 1];
                          [CInt 0; CInt 0; CInt 1; CInt 1; CInt 1];
                          [CInt 2; CInt 0; CInt 0; CInt 1; CInt 2] ] |} in
  ∃ L T,
    Linker_init (PyInt 1) PyNone (PyInt 1) (PyInt 1) (PyStr "dbscan") (PyInt 1) (PyInt 1)
      (PyInt 1) = Ok L
    ∧ DataFrameTracker_init L [PyStr "x"; PyStr "y"] (PyStr "t") PyNone (PyStr "m")
        (PyStr "clTrackID") = Ok T
    ∧ columns out = filter (λ c, c ≠ collid_column T) (columns demo_table) ++ [collid_column T]
    ∧ without_last <$> rows out
        ≡ₚ without_column (columns demo_table) (collid_column T)
             <$> filter (λ r, row_active demo_table (bin_meas_column T) r = true
                              ∧ 0 ≤ row_frame demo_table (frame_column T) r) (rows demo_table)
    ∧ Forall (λ r, ∃ i, last r = Some (CInt i)) (rows out).
Proof.
  intros out.
  apply (track_events_dataframe_table (ExternalsOk0 := reference_externals_ok)
           demo_table [PyStr "x"; PyStr "y"] (PyStr "t") PyNone (PyStr "m")
           (PyStr "clTrackID") (PyInt 1) PyNone (PyInt 1) (PyInt 1) (PyStr "dbscan")
           (PyInt 1) (PyInt 1) (PyInt 1) out).
  - vm_compute. reflexivity.
  - repeat constructor.
Defined.

Lemma track_events_dataframe_errors_witness :
  let run X frame := track_events_dataframe X [PyStr "x"; PyStr "y"] (PyStr frame) PyNone
                       (PyStr "m") (PyStr "clTrackID") (PyInt 1) PyNone (PyInt 1) (PyInt 1)
                       (PyStr "dbscan") (PyInt 1) (PyInt 1) (PyInt 1) in
  run demo_table "frame" = Raise KeyError
  ∧ run {| columns := ["t"]; rows := [] |} "t" = Raise (ValueError "Input is empty")
  ∧ run negative_table "t" = Raise (ValueError "No objects to concatenate").
Proof.
  intros run. split; [|split].
  - apply (proj1 (track_events_dataframe_errors (ExternalsOk0 := reference_externals_ok)
                    demo_table [PyStr "x"; PyStr "y"] (PyStr "frame") PyNone
                    (PyStr "m") (PyStr "clTrackID") (PyInt 1) PyNone (PyInt 1) (PyInt 1)
                    (PyStr "dbscan") (PyInt 1) (PyInt 1) (PyInt 1) demo_linker
                    (demo_tracker_with "frame" "m") demo_linker_init eq_refl)).
    apply (bool_decide_unpack _). vm_compute. exact I.
  - apply (proj1 (proj2 (track_events_dataframe_errors
                    (ExternalsOk0 := reference_externals_ok)
                    {| columns := ["t"]; rows := [] |} [PyStr "x"; PyStr "y"] (PyStr "t")
                    PyNone (PyStr "m") (PyStr "clTrackID") (PyInt 1) PyNone (PyInt 1)
                    (PyInt 1) (PyStr "dbscan") (PyInt 1) (PyInt 1) (PyInt 1) demo_linker
                    demo_tracker demo_linker_init demo_tracker_init))).
    + apply (bool_decide_unpack _). vm_compute. exact I.
    + reflexivity.
  - apply (proj2 (proj2 (track_events_dataframe_errors
                    (ExternalsOk0 := reference_externals_ok)
                    negative_table [PyStr "x"; PyStr "y"] (PyStr "t")
                    PyNone (PyStr "m") (PyStr "clTrackID") (PyInt 1) PyNone (PyInt 1)
                    (PyInt 1) (PyStr "dbscan") (PyInt 1) (PyInt 1) (PyInt 1) demo_linker
                    demo_tracker demo_linker_init demo_tracker_init)) [] demo_tracker).
    + vm_compute. reflexivity.
    + repeat constructor.
    + repeat constructor.
Defined.

End EntryWitnesses.

Section WorkersWitness.
#[local] Existing Instance reference_externals.

Lemma demo_linker_workers_init j :
  Linker_init (PyInt 1) PyNone (PyInt 1) (PyInt 1)
    (PyStr "dbscan") (PyInt 1) (PyInt 1) (PyInt j) = Ok (demo_linker_workers j).
Proof. reflexivity. Qed.

Lemma link_invalid_workers_raises_witness :
  let L := linker_after (demo_linker_workers 0) frame_a in
  ∃ msg, link L frame_b = Raise (ValueError msg).
Proof.
  intros L.
  apply (link_invalid_workers_raises (ExternalsOk0 := reference_externals_ok)
           L frame_b [1; 1] frame_b [false; false]).
  - apply (reachable_link (demo_linker_workers 0) frame_a).
    + eapply reachable_init, (demo_linker_workers_init 0).
    + vm_compute. reflexivity.
  - left. reflexivity.
  - vm_compute. reflexivity.
  - discriminate.
  - vm_compute. discriminate.
Defined.

End WorkersWitness.
